(** * Loft: the perimeter-walk algorithm and the loft orchestrator

    A shallow embedding of [src/loft/PerimeterWalkAlgorithm.ts] and of
    [LoftableModel.ts].  JavaScript numbers are IEEE 754 binary64 values and
    are modelled by Rocq's primitive floats, whose operations are the same
    correctly rounded ones; array indices and loop cursors are naturals.
    A [TypeError] raised by reading a property of [undefined] is the [None]
    of an option. *)

From stdpp Require Import base option list strings gmap sorting.
From Stdlib Require Import ZArith Lia Floats.

Local Open Scope float_scope.

(** ** three.js vectors *)

Module Vector2.
Record t : Type := mk { x : float; y : float }.

(** [Vector2.distanceTo] of three.js: the square root of
    [distanceToSquared], itself [dx * dx + dy * dy]. *)
Definition distanceToSquared (a v : t) : float :=
  let dx := x a - x v in
  let dy := y a - y v in
  dx * dx + dy * dy.

Definition distanceTo (a v : t) : float := sqrt (distanceToSquared a v).
End Vector2.

Module Vector3.
Record t : Type := mk { x : float; y : float; z : float }.
End Vector3.

#[global] Instance Vector2_inhabited : Inhabited Vector2.t :=
  populate (Vector2.mk 0 0).

(** Reading [arr[i]] as a number: an index out of range reads [undefined],
    which every arithmetic operation and comparison treats as [NaN]. *)
Definition numberAt (arr : list float) (i : nat) : float :=
  default nan (arr !! i).

(** ** Winding normalizer *)

(** Modelled from the spec: [util/Geometry.ts] is not among the sources.
    The signed area is the shoelace sum over the closed loop. *)
Definition signedArea (vertices : list Vector2.t) : float :=
  let n := length vertices in
  fold_left
    (fun area i =>
       let p := vertices !!! i in
       let q := vertices !!! ((i + 1) mod n)%nat in
       area + (Vector2.x p * Vector2.y q - Vector2.x q * Vector2.y p))
    (seq 0 n) 0 / 2.

(** Modelled from the spec: [ensureWindingCCW] of [util/Geometry.ts].  A loop
    of fewer than 3 points passes through; a loop of negative signed area
    is returned reversed; any other loop is returned unchanged. *)
Definition ensureWindingCCW (vertices : list Vector2.t) : list Vector2.t :=
  if (length vertices <? 3)%nat then vertices
  else if signedArea vertices <? 0 then reverse vertices
  else vertices.

(** ** ParameterizedLoop *)

Module ParameterizedLoop.

Record t : Type := mk {
  vertices : list Vector2.t;
  params : list float;
  totalLength : float
}.

(** One turn of the constructor's [for] loop: the running [distances] array
    and [total]. *)
Definition accumulate (vs : list Vector2.t) (n : nat)
    (acc : list float * float) (i : nat) : list float * float :=
  let next := ((i + 1) mod n)%nat in
  let edgeLength := Vector2.distanceTo (vs !!! i) (vs !!! next) in
  let total := snd acc + edgeLength in
  (if (i <? n - 1)%nat then fst acc ++ [total] else fst acc, total).

Definition cumulative (vs : list Vector2.t) : list float * float :=
  fold_left (accumulate vs (length vs)) (seq 0 (length vs)) ([0], 0).

Definition normalize (total d : float) : float :=
  if 0 <? total then d / total else 0.

Definition new (vertices : list Vector2.t) : t :=
  let vs := ensureWindingCCW vertices in
  let '(distances, total) := cumulative vs in
  mk vs (map (normalize total) distances) total.

Definition count (l : t) : nat := length (vertices l).

Definition param (l : t) (i : nat) : float :=
  if (count l <=? i)%nat then 1 else numberAt (params l) i.

(** [this.vertices[i % this.count]]: [undefined] on an empty loop, where
    the remainder is [NaN]. *)
Definition vertex (l : t) (i : nat) : option Vector2.t :=
  if (count l =? 0)%nat then None else vertices l !! (i mod count l)%nat.

(** [interpolate] reads [v0.x] or calls [v0.clone()], so an [undefined]
    vertex raises. *)
Definition interpolate (l : t) (i : nat) (t : float) : option Vector2.t :=
  v0 ← vertex l i;
  v1 ← vertex l (i + 1);
  let t0 := param l i in
  let t1 := param l (i + 1) in
  let span := if t0 <? t1 then t1 - t0 else (1 - t0) + t1 in
  if span =? 0 then Some v0
  else
    let u := (t - t0) / span in
    Some (Vector2.mk
            (Vector2.x v0 + u * (Vector2.x v1 - Vector2.x v0))
            (Vector2.y v0 + u * (Vector2.y v1 - Vector2.y v0))).

End ParameterizedLoop.

(** ** FaceBuilder *)

Record LoftFace : Type := mkLoftFace { face_vertices : list Vector3.t }.
Record LoftResult : Type := mkLoftResult { faces : list LoftFace }.

Module FaceBuilder.

Record t : Type := mk {
  faces : list LoftFace;
  heightA : float;
  heightB : float
}.

Definition new (heightA heightB : float) : t := mk [] heightA heightB.

Definition toPoint3D_A (b : t) (p : Vector2.t) : Vector3.t :=
  Vector3.mk (Vector2.x p) (Vector2.y p) (heightA b).

Definition toPoint3D_B (b : t) (p : Vector2.t) : Vector3.t :=
  Vector3.mk (Vector2.x p) (Vector2.y p) (heightB b).

Definition push (b : t) (f : LoftFace) : t :=
  mk (faces b ++ [f]) (heightA b) (heightB b).

Definition addQuad (b : t) (a0 a1 b0 b1 : Vector2.t) : t :=
  push b (mkLoftFace [toPoint3D_A b a0; toPoint3D_A b a1;
                      toPoint3D_B b b1; toPoint3D_B b b0]).

Definition addTriangle (b : t) (p0 p1 p2 : Vector3.t) : t :=
  push b (mkLoftFace [p0; p1; p2]).

Definition getFaces (b : t) : list LoftFace := faces b.

End FaceBuilder.

(** ** Results of a call *)

Inductive JsError : Type :=
| TypeError
| Error (message : string).

(** A call returns a value or raises; [OutOfFuel] is the unrolled [while]
    loop running out of the steps it was given. *)
Inductive Outcome (A : Type) : Type :=
| Returned (a : A)
| Raised (e : JsError)
| OutOfFuel.

Arguments Returned {A} a.
Arguments Raised {A} e.
Arguments OutOfFuel {A}.

(** ** The walk *)

Module Walk.
Import ParameterizedLoop.

(** [1e-9], as the nearest binary64 value. *)
Definition EPS : float := 0x1.12e0be826d695p-30.

Record State : Type := mkState {
  iA : nat;
  iB : nat;
  builder : FaceBuilder.t
}.

(** The five arms of the [if] chain, in the order they are tested. *)
Inductive Branch : Type :=
| AExhausted
| BExhausted
| Tie
| ALeads
| BLeads.

#[global] Instance Branch_eq_dec : EqDecision Branch.
Proof. solve_decision. Defined.

Section Loops.
Variables loopA loopB : ParameterizedLoop.t.

Let nA := count loopA.
Let nB := count loopB.

(** The [while] condition. *)
Definition running (iA iB : nat) : bool :=
  (iA <? nA)%nat || (iB <? nB)%nat.

Definition branch (iA iB : nat) : Branch :=
  let tNextA := param loopA (iA + 1) in
  let tNextB := param loopB (iB + 1) in
  if (nA <=? iA)%nat then AExhausted
  else if (nB <=? iB)%nat then BExhausted
  else if abs (tNextA - tNextB) <? EPS then Tie
  else if tNextA <? tNextB then ALeads
  else BLeads.

(** The body of the [while] loop.  Every arm passes [a0] and [b0] to
    [addQuad], which reads their coordinates, so an [undefined] current
    vertex raises whichever arm is taken. *)
Definition iteration (st : State) : option State :=
  let tNextA := param loopA (iA st + 1) in
  let tNextB := param loopB (iB st + 1) in
  a0 ← vertex loopA (iA st);
  b0 ← vertex loopB (iB st);
  match branch (iA st) (iB st) with
  | AExhausted =>
      b1 ← vertex loopB (iB st + 1);
      a1 ← interpolate loopA (nA - 1) tNextB;
      Some (mkState (iA st) (iB st + 1)
              (FaceBuilder.addQuad (builder st) a0 a1 b0 b1))
  | BExhausted =>
      a1 ← vertex loopA (iA st + 1);
      b1 ← interpolate loopB (nB - 1) tNextA;
      Some (mkState (iA st + 1) (iB st)
              (FaceBuilder.addQuad (builder st) a0 a1 b0 b1))
  | Tie =>
      a1 ← vertex loopA (iA st + 1);
      b1 ← vertex loopB (iB st + 1);
      Some (mkState (iA st + 1) (iB st + 1)
              (FaceBuilder.addQuad (builder st) a0 a1 b0 b1))
  | ALeads =>
      a1 ← vertex loopA (iA st + 1);
      b1 ← interpolate loopB (iB st) tNextA;
      Some (mkState (iA st + 1) (iB st)
              (FaceBuilder.addQuad (builder st) a0 a1 b0 b1))
  | BLeads =>
      a1 ← interpolate loopA (iA st) tNextB;
      b1 ← vertex loopB (iB st + 1);
      Some (mkState (iA st) (iB st + 1)
              (FaceBuilder.addQuad (builder st) a0 a1 b0 b1))
  end.

Fixpoint loop (fuel : nat) (st : State) : Outcome State :=
  if running (iA st) (iB st) then
    match fuel with
    | O => OutOfFuel
    | S fuel' =>
        match iteration st with
        | None => Raised TypeError
        | Some st' => loop fuel' st'
        end
    end
  else Returned st.

(** The cursors move without regard to the builder: the positions the
    walk visits and the arm taken at each. *)
Record Step : Type := mkStep {
  step_iA : nat;
  step_iB : nat;
  step_branch : Branch
}.

Definition advance (s : Step) : nat * nat :=
  match step_branch s with
  | AExhausted | BLeads => (step_iA s, step_iB s + 1)%nat
  | BExhausted | ALeads => (step_iA s + 1, step_iB s)%nat
  | Tie => (step_iA s + 1, step_iB s + 1)%nat
  end.

Definition stepAt (iA iB : nat) : Step := mkStep iA iB (branch iA iB).

Fixpoint trace (fuel : nat) (iA iB : nat) : list Step :=
  if running iA iB then
    match fuel with
    | O => []
    | S fuel' =>
        let s := stepAt iA iB in
        s :: trace fuel' (fst (advance s)) (snd (advance s))
    end
  else [].

(** Where a corner of an emitted quad comes from: a vertex of the loop,
    read as it is, or a point computed by [interpolate]. *)
Inductive Corner : Type :=
| Exact (i : nat)
| Interpolated (edge : nat) (t : float).

Record Quad : Type := mkQuad {
  quad_a0 : Corner;
  quad_a1 : Corner;
  quad_b0 : Corner;
  quad_b1 : Corner
}.

(** The arguments of [addQuad] in each arm. *)
Definition corners (s : Step) : Quad :=
  let tNextA := param loopA (step_iA s + 1) in
  let tNextB := param loopB (step_iB s + 1) in
  let a0 := Exact (step_iA s) in
  let b0 := Exact (step_iB s) in
  match step_branch s with
  | AExhausted =>
      mkQuad a0 (Interpolated (nA - 1) tNextB) b0 (Exact (step_iB s + 1))
  | BExhausted =>
      mkQuad a0 (Exact (step_iA s + 1)) b0 (Interpolated (nB - 1) tNextA)
  | Tie =>
      mkQuad a0 (Exact (step_iA s + 1)) b0 (Exact (step_iB s + 1))
  | ALeads =>
      mkQuad a0 (Exact (step_iA s + 1)) b0 (Interpolated (step_iB s) tNextA)
  | BLeads =>
      mkQuad a0 (Interpolated (step_iA s) tNextB) b0 (Exact (step_iB s + 1))
  end.

End Loops.

Definition point (l : ParameterizedLoop.t) (c : Corner) : option Vector2.t :=
  match c with
  | Exact i => vertex l i
  | Interpolated edge t => interpolate l edge t
  end.

(** The face [addQuad] pushes for the four corners of [q]. *)
Definition face (loopA loopB : ParameterizedLoop.t) (b : FaceBuilder.t)
    (q : Quad) : option LoftFace :=
  a0 ← point loopA (quad_a0 q);
  a1 ← point loopA (quad_a1 q);
  b0 ← point loopB (quad_b0 q);
  b1 ← point loopB (quad_b1 q);
  Some (mkLoftFace [FaceBuilder.toPoint3D_A b a0; FaceBuilder.toPoint3D_A b a1;
                    FaceBuilder.toPoint3D_B b b1; FaceBuilder.toPoint3D_B b b0]).



Definition advancesA (s : Step) : bool :=
  match step_branch s with
  | BExhausted | Tie | ALeads => true
  | AExhausted | BLeads => false
  end.

Definition advancesB (s : Step) : bool :=
  match step_branch s with
  | AExhausted | Tie | BLeads => true
  | BExhausted | ALeads => false
  end.

(** [walkPerimeters]: the loop is run for [nA + nB] turns, which
    [loop_enough_fuel] shows is as many as it can take. *)
Definition walkPerimeters (loopA loopB : ParameterizedLoop.t)
    (builder : FaceBuilder.t) : Outcome FaceBuilder.t :=
  match loop loopA loopB (count loopA + count loopB) (mkState 0 0 builder) with
  | Returned st => Returned (Walk.builder st)
  | Raised e => Raised e
  | OutOfFuel => OutOfFuel
  end.

End Walk.

(** ** Aligning the starting points *)

(** [loopA[0]] is [undefined] for an empty [loopA]; [target.distanceTo] then
    raises as soon as [loopB] has a vertex to measure. *)
Definition closer (target : Vector2.t) (loopB : list Vector2.t)
    (best : nat * float) (i : nat) : nat * float :=
  let dist := Vector2.distanceTo target (loopB !!! i) in
  if dist <? snd best then (i, dist) else best.

Definition findClosestVertexIndex (loopA loopB : list Vector2.t) : option nat :=
  match loopA !! 0%nat, loopB with
  | None, [] => Some 0%nat
  | None, _ :: _ => None
  | Some target, _ =>
      Some (fst (fold_left (closer target loopB) (seq 0 (length loopB))
                   (0%nat, infinity)))
  end.

Definition rotateArray {T : Type} (arr : list T) (startIndex : nat) : list T :=
  if (startIndex =? 0)%nat || (length arr =? 0)%nat then arr
  else drop startIndex arr ++ take startIndex arr.

Definition alignLoopStarts (loopA loopB : list Vector2.t)
    : option (list Vector2.t) :=
  closestIndex ← findClosestVertexIndex loopA loopB;
  Some (rotateArray loopB closestIndex).

(** The distance [findClosestVertexIndex] measures to vertex [j] of [loopB]. *)
Definition distanceFrom (target : Vector2.t) (loopB : list Vector2.t)
    (j : nat) : float :=
  Vector2.distanceTo target (loopB !!! j).

(** ** Entry point *)

Definition perimeterWalkAlgorithm (loopA : list Vector2.t) (heightA : float)
    (loopB : list Vector2.t) (heightB : float) : Outcome LoftResult :=
  if (length loopA <? 3)%nat || (length loopB <? 3)%nat then
    Returned (mkLoftResult [])
  else
    let normalizedA := ensureWindingCCW loopA in
    let normalizedB := ensureWindingCCW loopB in
    match alignLoopStarts normalizedA normalizedB with
    | None => Raised TypeError
    | Some alignedB =>
        let paramA := ParameterizedLoop.new normalizedA in
        let paramB := ParameterizedLoop.new alignedB in
        let builder := FaceBuilder.new heightA heightB in
        match Walk.walkPerimeters paramA paramB builder with
        | Returned builder' =>
            Returned (mkLoftResult (FaceBuilder.getFaces builder'))
        | Raised e => Raised e
        | OutOfFuel => OutOfFuel
        end
    end.

(** ** Algorithm registry *)

Definition LoftAlgorithm : Type :=
  list Vector2.t -> float -> list Vector2.t -> float -> Outcome LoftResult.

(** An algorithm that gives a result on every pair of loops: it neither
    raises nor runs on. *)
Definition alwaysReturns (algorithm : LoftAlgorithm) : Prop :=
  forall loopA heightA loopB heightB,
    exists result, algorithm loopA heightA loopB heightB = Returned result.

(** Modelled from the spec: [LoftAlgorithm.ts] is not among the sources.  The
    registry maps a name to an algorithm; [register] stores, [lookup] finds
    the algorithm or nothing. *)
Definition registerLoftAlgorithm (name : string) (fn : LoftAlgorithm)
    (registry : gmap string LoftAlgorithm) : gmap string LoftAlgorithm :=
  <[name := fn]> registry.

Definition getLoftAlgorithm (registry : gmap string LoftAlgorithm)
    (name : string) : option LoftAlgorithm :=
  registry !! name.

(** ** Planes, segments and the model *)

Record SketchPlane : Type := mkSketchPlane {
  getVertices : list Vector2.t;
  getHeight : float
}.

#[global] Instance SketchPlane_inhabited : Inhabited SketchPlane :=
  populate (mkSketchPlane [] 0).

Record LoftSegment : Type := mkLoftSegment {
  bottomPlane : SketchPlane;
  topPlane : SketchPlane;
  segment_faces : list LoftFace
}.

Record LoftableModel : Type := mkLoftableModel {
  segments : list LoftSegment
}.

(** [Array.prototype.sort] with a comparison function.  ECMAScript requires
    the sort to be stable and reads the comparison's number [v] as "a after
    b" when [v > 0], "a before b" when [v < 0] and "equal" otherwise; for
    a consistent comparison the sorted array is then determined, and it is
    computed here by insertion from the right.  For a comparison that is
    not consistent, as the difference of heights is when a height is [NaN],
    ECMAScript leaves the order to the engine: the array returned is then
    some arrangement of the elements, and statements about its order are
    made only for heights that are numbers. *)
Module JsArray.

Fixpoint insertSorted {T : Type} (comparefn : T -> T -> float) (a : T)
    (sorted : list T) : list T :=
  match sorted with
  | [] => [a]
  | b :: rest =>
      if 0 <? comparefn a b then b :: insertSorted comparefn a rest
      else a :: sorted
  end.

Fixpoint sort {T : Type} (comparefn : T -> T -> float) (arr : list T) : list T :=
  match arr with
  | [] => []
  | a :: rest => insertSorted comparefn a (sort comparefn rest)
  end.

End JsArray.

Definition byHeight (a b : SketchPlane) : float := getHeight a - getHeight b.

Definition ascending (p q : SketchPlane) : Prop :=
  (getHeight p <=? getHeight q) = true.

Definition atHeight (h : float) (p : SketchPlane) : bool := getHeight p =? h.


Module LoftableModelOps.

(** One turn of the [for] loop of [buildSegments]. *)
Definition buildSegment (planes : list SketchPlane) (algorithm : LoftAlgorithm)
    (acc : Outcome (list LoftSegment)) (i : nat) : Outcome (list LoftSegment) :=
  match acc with
  | Returned segments =>
      let bottomPlane := planes !!! i in
      let topPlane := planes !!! (i + 1)%nat in
      match algorithm (getVertices bottomPlane) (getHeight bottomPlane)
              (getVertices topPlane) (getHeight topPlane) with
      | Returned result =>
          Returned (segments ++ [mkLoftSegment bottomPlane topPlane (faces result)])
      | Raised e => Raised e
      | OutOfFuel => OutOfFuel
      end
  | Raised e => Raised e
  | OutOfFuel => OutOfFuel
  end.

Definition buildSegments (planes : list SketchPlane) (algorithm : LoftAlgorithm)
    : Outcome LoftableModel :=
  match fold_left (buildSegment planes algorithm)
          (seq 0 (length planes - 1)) (Returned []) with
  | Returned segments => Returned (mkLoftableModel segments)
  | Raised e => Raised e
  | OutOfFuel => OutOfFuel
  end.

Definition hardcodedDefault : string := "perimeter-walk".

Definition warning (name : string) : string :=
  "Unknown loft algorithm: " +:+ name +:+ ", using perimeter-walk".

Section FromPlanes.
(** The registry at the time of the call, and [LOFT.DEFAULT_ALGORITHM] of
    [constants.ts], which is not among the sources: a name, or nothing. *)
Variable registry : gmap string LoftAlgorithm.
Variable DEFAULT_ALGORITHM : option string.

(** [algorithmName ?? LOFT.DEFAULT_ALGORITHM ?? 'perimeter-walk'] *)
Definition resolveName (algorithmName : option string) : string :=
  default (default hardcodedDefault DEFAULT_ALGORITHM) algorithmName.

(** [fromPlanes]: the lines written by [console.warn], and the model or
    the error raised. *)
Definition fromPlanes (planes : list SketchPlane)
    (algorithmName : option string) : list string * Outcome LoftableModel :=
  if (length planes <? 2)%nat then ([], Returned (mkLoftableModel []))
  else
    let sortedPlanes := JsArray.sort byHeight planes in
    let name := resolveName algorithmName in
    match getLoftAlgorithm registry name with
    | None =>
        match getLoftAlgorithm registry hardcodedDefault with
        | None =>
            ([warning name], Raised (Error "No loft algorithms registered"))
        | Some fallback =>
            ([warning name], buildSegments sortedPlanes fallback)
        end
    | Some algorithm => ([], buildSegments sortedPlanes algorithm)
    end.
End FromPlanes.

End LoftableModelOps.

(** ** Queries on segments and models *)

#[global] Instance LoftSegment_inhabited : Inhabited LoftSegment :=
  populate (mkLoftSegment inhabitant inhabitant []).

Definition getBottomHeight (s : LoftSegment) : float :=
  getHeight (bottomPlane s).

Definition getTopHeight (s : LoftSegment) : float := getHeight (topPlane s).

(** [null] is the [None] of the option. *)
Definition getRoofVertices (m : LoftableModel) : option (list Vector2.t) :=
  if (length (segments m) =? 0)%nat then None
  else
    let topPlane := topPlane (segments m !!! (length (segments m) - 1)%nat) in
    Some (getVertices topPlane).

Definition getRoofHeight (m : LoftableModel) : float :=
  if (length (segments m) =? 0)%nat then 0
  else getTopHeight (segments m !!! (length (segments m) - 1)%nat).

Definition getPlanes (m : LoftableModel) : list SketchPlane :=
  if (length (segments m) =? 0)%nat then []
  else
    fold_left (fun planes segment => planes ++ [topPlane segment])
      (segments m) [bottomPlane (segments m !!! 0%nat)].

(** The call [buildSegments] makes for the pair of planes [i] and [i + 1]. *)
Definition loftPair (planes : list SketchPlane) (algorithm : LoftAlgorithm)
    (i : nat) : Outcome LoftResult :=
  algorithm (getVertices (planes !!! i)) (getHeight (planes !!! i))
    (getVertices (planes !!! (i + 1)%nat))
    (getHeight (planes !!! (i + 1)%nat)).

(** ** Model: the planes and the lock state of the segments

    [Model.ts].  The planes are objects: [Plane] is the type of references
    to them, equal when they are the same object, as [indexOf] compares
    them, and [deref] reads the plane a reference points to.  The indices of
    segments are integers. *)

Module Model.

Record t (Plane : Type) : Type := mk {
  name : string;
  planes : list Plane;
  segmentLocked : list bool
}.

Arguments mk {Plane} _ _ _.
Arguments name {Plane} _.
Arguments planes {Plane} _.
Arguments segmentLocked {Plane} _.

Section Planes.
Context {Plane : Type} `{EqDecision Plane}.
Variable deref : Plane -> SketchPlane.

(** [Math.max(0, this.planes.length - 1)] *)
Definition segmentCount (planes : list Plane) : nat :=
  Z.to_nat (Z.max 0 (Z.of_nat (length planes) - 1)).

Definition createSegmentLockArray (planes : list Plane) : list bool :=
  replicate (segmentCount planes) false.

(** The constructor; [planes] left out is the empty array. *)
Definition new (name : string) (planes : option (list Plane)) : t Plane :=
  let planes := default [] planes in
  mk name planes (createSegmentLockArray planes).

Definition getSegmentCount (m : t Plane) : nat := segmentCount (planes m).

(** [this.segmentLocked[index] ?? false] *)
Definition isSegmentLocked (m : t Plane) (index : Z) : bool :=
  if (index <? 0)%Z then false
  else default false (segmentLocked m !! Z.to_nat index).

Definition setSegmentLocked (m : t Plane) (index : Z) (locked : bool)
    : t Plane :=
  if (0 <=? index)%Z && (index <? Z.of_nat (length (segmentLocked m)))%Z
  then mk (name m) (planes m) (<[Z.to_nat index := locked]> (segmentLocked m))
  else m.

(** The [while] loop pushes [false] until the array has [segmentCount]
    entries; setting [length] then cuts it to that many. *)
Definition syncSegmentLockArray (m : t Plane) : t Plane :=
  let segmentCount := getSegmentCount m in
  let pushed :=
    segmentLocked m
      ++ replicate (segmentCount - length (segmentLocked m)) false in
  mk (name m) (planes m) (take segmentCount pushed).

Definition addPlane (m : t Plane) (plane : Plane) : t Plane :=
  syncSegmentLockArray (mk (name m) (planes m ++ [plane]) (segmentLocked m)).

(** [Array.prototype.indexOf]: the first index holding the same object,
    [None] for [-1]. *)
Definition indexOf (arr : list Plane) (plane : Plane) : option nat :=
  fst <$> list_find (fun p => p = plane) arr.

(** [removePlane]: the boolean returned and the model afterwards. *)
Definition removePlane (m : t Plane) (plane : Plane) : bool * t Plane :=
  match indexOf (planes m) plane with
  | None => (false, m)
  | Some index =>
      (true,
       syncSegmentLockArray
         (mk (name m) (delete index (planes m)) (segmentLocked m)))
  end.

Definition getPlanesSortedByHeight (m : t Plane) : list Plane :=
  JsArray.sort (fun a b => getHeight (deref a) - getHeight (deref b))
    (planes m).

(** A call of one of the methods that change the model. *)
Inductive Call : Type :=
| AddPlane (plane : Plane)
| RemovePlane (plane : Plane)
| SetSegmentLocked (index : Z) (locked : bool).

Definition call (m : t Plane) (c : Call) : t Plane :=
  match c with
  | AddPlane plane => addPlane m plane
  | RemovePlane plane => snd (removePlane m plane)
  | SetSegmentLocked index locked => setSegmentLocked m index locked
  end.

(** The lock array has one entry for each segment. *)
Definition synced (m : t Plane) : Prop :=
  length (segmentLocked m) = getSegmentCount m.

End Planes.
End Model.

(** ** BuildingSerializer *)

(** [Math.min] and [Math.max] of two numbers: [NaN] if either is, and
    [-0] below [+0]. *)
Module Math.

Definition min (a b : float) : float :=
  if is_nan a || is_nan b then nan
  else if a <? b then a
  else if b <? a then b
  else if get_sign a then a else b.

Definition max (a b : float) : float :=
  if is_nan a || is_nan b then nan
  else if b <? a then a
  else if a <? b then b
  else if get_sign a then b else a.

End Math.

Module BuildingData.

Record PlaneData : Type := mkPlaneData {
  z : float;
  vertices : list (float * float)
}.

(** [segmentLocked] is missing from the data of older files. *)
Record t : Type := mk {
  version : Z;
  name : string;
  bounds_min : float * float * float;
  bounds_max : float * float * float;
  planes : list PlaneData;
  segmentLocked : option (list bool)
}.

End BuildingData.

Module BuildingSerializer.

(** The six running bounds of [serialize]. *)
Record Box : Type := mkBox {
  minX : float; minY : float; minZ : float;
  maxX : float; maxY : float; maxZ : float
}.

Definition emptyBox : Box :=
  mkBox infinity infinity infinity neg_infinity neg_infinity neg_infinity.

(** The callback of the inner [map], for one vertex. *)
Definition growVertex (box : Box) (v : Vector2.t) : Box :=
  mkBox (Math.min (minX box) (Vector2.x v)) (Math.min (minY box) (Vector2.y v))
    (minZ box)
    (Math.max (maxX box) (Vector2.x v)) (Math.max (maxY box) (Vector2.y v))
    (maxZ box).

(** The callback of the outer [map], for one plane. *)
Definition growPlane (box : Box) (plane : SketchPlane) : Box :=
  let z := getHeight plane in
  let vertices := getVertices plane in
  fold_left growVertex vertices
    (mkBox (minX box) (minY box) (Math.min (minZ box) z)
       (maxX box) (maxY box) (Math.max (maxZ box) z)).

Definition planeData (plane : SketchPlane) : BuildingData.PlaneData :=
  BuildingData.mkPlaneData (getHeight plane)
    (map (fun v => (Vector2.x v, Vector2.y v)) (getVertices plane)).

Section Planes.
Context {Plane : Type}.
Variable deref : Plane -> SketchPlane.

Definition serialize (model : Model.t Plane) : BuildingData.t :=
  let box := fold_left growPlane (deref <$> Model.planes model) emptyBox in
  BuildingData.mk 1 (Model.name model)
    (minX box, minY box, minZ box) (maxX box, maxY box, maxZ box)
    (planeData <$> (deref <$> Model.planes model))
    (Some (Model.segmentLocked model)).

(** The plane object that [deserialize] makes for entry [i] of the data,
    with the [SketchPlane] constructor and [setVertices]. *)
Variable makePlane : nat -> BuildingData.PlaneData -> Plane.

(** The [for] loop that restores the lock states. *)
Definition restoreLocks (saved locks : list bool) : list bool :=
  fold_left (fun locks i => <[i := saved !!! i]> locks)
    (seq 0 (length saved `min` length locks)) locks.

Definition deserialize (data : BuildingData.t) : Model.t Plane :=
  let planes := imap makePlane (BuildingData.planes data) in
  let model := Model.new (BuildingData.name data) (Some planes) in
  match BuildingData.segmentLocked data with
  | Some saved =>
      Model.mk (Model.name model) (Model.planes model)
        (restoreLocks saved (Model.segmentLocked model))
  | None => model
  end.

End Planes.
End BuildingSerializer.

(** The numbers each bound of [serialize] is taken over, in the order
    they are met. *)
Definition xsOf (planes : list SketchPlane) : list float :=
  planes ≫= (fun p => Vector2.x <$> getVertices p).

Definition ysOf (planes : list SketchPlane) : list float :=
  planes ≫= (fun p => Vector2.y <$> getVertices p).

(** The [x] and [y] of the vertices of a face, without their heights. *)
Definition footprint (f : LoftFace) : list (float * float) :=
  map (fun p => (Vector3.x p, Vector3.y p)) (face_vertices f).

(** ** Binary floats as ordered integers *)

Section Keys.
Variables prec emax : Z.

(** A finite float [m * 2^e] of the format, in units of the least positive
    one. *)
Definition scaled (m : positive) (e : Z) : Z :=
  (Z.pos m * 2 ^ (e - SpecFloat.emin prec emax))%Z.

(** The place of a float that is not [NaN] in the order of the comparisons:
    the infinities lie beyond every finite float. *)
Definition key (f : spec_float) : option Z :=
  match f with
  | S754_zero _ => Some 0%Z
  | S754_infinity s =>
      Some (cond_Zopp s (2 ^ (emax - SpecFloat.emin prec emax)))%Z
  | S754_nan => None
  | S754_finite s m e => Some (cond_Zopp s (scaled m e))
  end.
End Keys.

Definition rank (x : float) : option Z := key prec emax (Prim2SF x).

(** ** Rounding to nearest, ties to even *)

Section Nearest.
Variables prec emax : Z.

(** The fraction [N / D] is rounded up to the next integer: it lies above
    the middle of its unit interval, or in the middle and below an even
    integer. *)
Definition roundUp (N D : Z) : bool :=
  ((D <? 2 * (N mod D)) || ((2 * (N mod D) =? D) && Z.odd (N / D)))%Z.

Definition nearest (N D : Z) : Z :=
  (N / D + if roundUp N D then 1 else 0)%Z.

(** The exponent of the format for a number whose integer part, in units of
    the least positive float, is [c]. *)
Definition shift (c : Z) : Z := Z.max (Zdigits2 c - prec) 0.

(** The key of the float nearest to the fraction [N / D] of the least
    positive float. *)
Definition roundKey (N D : Z) : Z :=
  (let n := shift (N / D) in
   Z.min (nearest N (D * 2 ^ n) * 2 ^ n)
     (2 ^ (emax - SpecFloat.emin prec emax)))%Z.

(** The record [mrs] of a mantissa with its round and sticky bits locates
    the fraction [N / D]. *)
Definition locates (N D : Z) (mrs : shr_record) : Prop :=
  (shr_m mrs = N / D /\
   shr_r mrs = (D <=? 2 * (N mod D)) /\
   shr_s mrs = negb (N mod D =? 0) && negb (2 * (N mod D) =? D))%Z.


(** The number [N0 / D0 * 2^e] as a fraction of the least positive float. *)
Definition keyFraction (N0 D0 e : Z) : Z * Z :=
  (if SpecFloat.emin prec emax <=? e then (N0 * 2 ^ (e - SpecFloat.emin prec emax), D0)
  else (N0, D0 * 2 ^ (SpecFloat.emin prec emax - e)))%Z.

End Nearest.

(** A number that is not negative: zero, positive, [Infinity], or [NaN]. *)
Definition notNegative (x : float) : Prop :=
  forall a, rank x = Some a -> (0 <= a)%Z.

(** [y] is [x] or lies above it, where [x] is not negative; [NaN] is only
    followed by [NaN]. *)
Definition notBelow (x y : float) : Prop :=
  match rank x with
  | None => rank y = None
  | Some a => (0 <= a)%Z /\ forall b, rank y = Some b -> (a <= b)%Z
  end.

(** What the constructor's loop keeps true of [distances] and [total]:
    the distances start at 0 and never go down, and none exceeds the
    running total. *)
Definition accumulated (acc : list float * float) : Prop :=
  StronglySorted notBelow (fst acc) /\
  Forall (fun d => notBelow d (snd acc)) (fst acc) /\
  notNegative (snd acc) /\
  head (fst acc) = Some 0.


(** ** Sample loops *)

Module Examples.

(** The square of the specification's examples. *)
Definition square : list Vector2.t :=
  [Vector2.mk 0 0; Vector2.mk 2 0; Vector2.mk 2 2; Vector2.mk 0 2].

Definition unitSquare : list Vector2.t :=
  [Vector2.mk 0 0; Vector2.mk 1 0; Vector2.mk 1 1; Vector2.mk 0 1].

(** The unit square with two more vertices on its closing edge, [2^-32] and
    [2^-33] above the starting corner. *)
Definition notchedSquare : list Vector2.t :=
  [Vector2.mk 0 0; Vector2.mk 1 0; Vector2.mk 1 1; Vector2.mk 0 1;
   Vector2.mk 0 0x1p-32; Vector2.mk 0 0x1p-33].


(** The registry once [PerimeterWalkAlgorithm.ts] has been loaded. *)
Definition builtinRegistry : gmap string LoftAlgorithm :=
  registerLoftAlgorithm "perimeter-walk" perimeterWalkAlgorithm ∅.

Definition threeFloors : list SketchPlane :=
  [mkSketchPlane Examples.square 6; mkSketchPlane Examples.unitSquare 0;
   mkSketchPlane Examples.square 3].

(** Four floors, one of them at a height that is not a number. *)
Definition unsortable : list SketchPlane :=
  [mkSketchPlane Examples.square 2; mkSketchPlane Examples.square 1;
   mkSketchPlane Examples.square nan; mkSketchPlane Examples.square 0].

(** An algorithm that rejects a bottom loop of no vertices. *)
Definition strictAlgorithm : LoftAlgorithm :=
  fun loopA heightA loopB heightB =>
    match loopA with
    | [] => Raised (Error "empty loop")
    | _ :: _ => perimeterWalkAlgorithm loopA heightA loopB heightB
    end.

End Examples.

(** * Properties *)

(** ** The order of binary floats *)

Section KeyFacts.
Variables prec emax : Z.
Hypothesis prec_pos : (0 < prec)%Z.
Hypothesis prec_lt_emax : (prec < emax)%Z.

Local Open Scope Z_scope.

Abbreviation emin := (SpecFloat.emin prec emax).

Lemma digits2_pos_bounds (m : positive) :
  2 ^ (Z.pos (digits2_pos m) - 1) <= Z.pos m < 2 ^ Z.pos (digits2_pos m).
Proof.
  induction m as [m IH|m IH|]; simpl digits2_pos.
  - rewrite Pos2Z.inj_succ.
    replace (Z.succ (Z.pos (digits2_pos m)) - 1) with
      (Z.succ (Z.pos (digits2_pos m) - 1)) by lia.
    rewrite !Z.pow_succ_r by lia. lia.
  - rewrite Pos2Z.inj_succ.
    replace (Z.succ (Z.pos (digits2_pos m)) - 1) with
      (Z.succ (Z.pos (digits2_pos m) - 1)) by lia.
    rewrite !Z.pow_succ_r by lia. lia.
  - simpl. lia.
Qed.

Lemma bounded_inv (m : positive) (e : Z) :
  bounded prec emax m e = true ->
  emin <= e /\ e <= emax - prec /\
  Z.pos (digits2_pos m) <= prec /\
  (emin < e -> Z.pos (digits2_pos m) = prec).
Proof.
  unfold bounded, canonical_mantissa, fexp. intros H.
  apply andb_true_iff in H as [H1 H2].
  apply Z.eqb_eq in H1. apply Z.leb_le in H2. lia.
Qed.

Lemma scaled_pos (m : positive) (e : Z) :
  emin <= e -> 0 < scaled prec emax m e.
Proof.
  intros He. unfold scaled.
  pose proof (Z.pow_pos_nonneg 2 (e - emin)). lia.
Qed.

Lemma scaled_lt_exp (m1 : positive) (e1 : Z) (m2 : positive) (e2 : Z) :
  bounded prec emax m1 e1 = true -> bounded prec emax m2 e2 = true ->
  e1 < e2 -> scaled prec emax m1 e1 < scaled prec emax m2 e2.
Proof.
  intros H1 H2 Hlt.
  apply bounded_inv in H1 as (Hmin1 & _ & Hd1 & _).
  apply bounded_inv in H2 as (Hmin2 & _ & _ & Hd2).
  specialize (Hd2 ltac:(lia)).
  pose proof (digits2_pos_bounds m1) as [_ Hm1].
  pose proof (digits2_pos_bounds m2) as [Hm2 _].
  rewrite Hd2 in Hm2.
  pose proof (Z.pow_le_mono_r 2 (Z.pos (digits2_pos m1)) prec ltac:(lia) Hd1)
    as Hp1.
  unfold scaled.
  replace (e2 - emin) with ((e1 - emin) + 1 + (e2 - e1 - 1)) by lia.
  rewrite !Z.pow_add_r by lia.
  replace prec with ((prec - 1) + 1) in Hp1 by lia.
  rewrite Z.pow_add_r in Hp1 by lia.
  pose proof (Z.pow_pos_nonneg 2 (e1 - emin) ltac:(lia) ltac:(lia)).
  pose proof (Z.pow_pos_nonneg 2 (e2 - e1 - 1) ltac:(lia) ltac:(lia)).
  pose proof (Z.pow_pos_nonneg 2 (prec - 1) ltac:(lia) ltac:(lia)).
  change (2 ^ 1) with 2 in *.
  set (a := 2 ^ (e1 - emin)) in *. set (c := 2 ^ (e2 - e1 - 1)) in *.
  set (P := 2 ^ (prec - 1)) in *.
  assert (Z.pos m1 * a < P * 2 * a) by nia.
  assert (P * 2 * a <= Z.pos m2 * 2 * a) by nia.
  assert (Z.pos m2 * 2 * a * 1 <= Z.pos m2 * 2 * a * c)
    by (apply Z.mul_le_mono_nonneg_l; lia).
  lia.
Qed.

Lemma scaled_lt_infinity (m : positive) (e : Z) :
  bounded prec emax m e = true ->
  scaled prec emax m e < 2 ^ (emax - emin).
Proof.
  intros H. apply bounded_inv in H as (Hmin & Hmax & Hd & _).
  pose proof (digits2_pos_bounds m) as [_ Hm].
  pose proof (Z.pow_le_mono_r 2 (Z.pos (digits2_pos m)) prec ltac:(lia) Hd)
    as Hp.
  unfold scaled.
  replace (emax - emin) with (prec + (e - emin) + (emax - prec - e)) by lia.
  rewrite !Z.pow_add_r by lia.
  pose proof (Z.pow_pos_nonneg 2 (e - emin) ltac:(lia) ltac:(lia)).
  pose proof (Z.pow_pos_nonneg 2 (emax - prec - e) ltac:(lia) ltac:(lia)).
  set (a := 2 ^ (e - emin)) in *. set (c := 2 ^ (emax - prec - e)) in *.
  set (P := 2 ^ prec) in *.
  assert (Z.pos m * a < P * a) by nia.
  assert (P * a * 1 <= P * a * c)
    by (apply Z.mul_le_mono_nonneg_l; nia).
  lia.
Qed.

Lemma scaled_compare (m1 m2 : positive) (e : Z) :
  emin <= e ->
  (scaled prec emax m1 e ?= scaled prec emax m2 e) = (m1 ?= m2)%positive.
Proof.
  intros He. unfold scaled.
  pose proof (Z.pow_pos_nonneg 2 (e - emin) ltac:(lia) ltac:(lia)).
  set (a := 2 ^ (e - emin)) in *.
  destruct (Pos.compare_spec m1 m2) as [E|L|G].
  - subst. apply Z.compare_refl.
  - apply Z.compare_lt_iff. nia.
  - apply Z.compare_gt_iff. nia.
Qed.

(** On the floats of the format, [SFcompare] is the comparison of the
    keys. *)
Lemma SFcompare_key (x y : spec_float) :
  SpecFloat.valid_binary prec emax x = true ->
  SpecFloat.valid_binary prec emax y = true ->
  SFcompare x y =
    match key prec emax x, key prec emax y with
    | Some a, Some b => Some (a ?= b)
    | _, _ => None
    end.
Proof.
  intros Hx Hy.
  assert (0 < 2 ^ (emax - emin)) as Hinf
    by (apply Z.pow_pos_nonneg; unfold SpecFloat.emin; lia).
  assert (forall m e, bounded prec emax m e = true ->
            0 < scaled prec emax m e < 2 ^ (emax - emin)) as Hfin.
  { intros m e Hb. split; [|by apply scaled_lt_infinity].
    apply scaled_pos. apply bounded_inv in Hb. lia. }
  destruct x as [sx|sx| |sx mx ex], y as [sy|sy| |sy my ey];
    cbn [SFcompare key SpecFloat.valid_binary] in *; try reflexivity;
    try (pose proof (Hfin _ _ Hx)); try (pose proof (Hfin _ _ Hy));
    try (destruct sx); try (destruct sy); cbn [cond_Zopp];
    try (f_equal; symmetry;
         first [ apply Z.compare_eq_iff; lia
               | apply Z.compare_lt_iff; lia
               | apply Z.compare_gt_iff; lia ]).
  - f_equal. destruct (Z.compare_spec ex ey) as [E|L|G].
    + subst ey. rewrite Z.compare_opp.
      rewrite scaled_compare by (apply bounded_inv in Hx; lia).
      rewrite (Pos.compare_antisym mx my). reflexivity.
    + symmetry. apply Z.compare_gt_iff.
      pose proof (scaled_lt_exp mx ex my ey Hx Hy L). lia.
    + symmetry. apply Z.compare_lt_iff.
      pose proof (scaled_lt_exp my ey mx ex Hy Hx ltac:(lia)). lia.
  - f_equal. destruct (Z.compare_spec ex ey) as [E|L|G].
    + subst ey.
      rewrite scaled_compare by (apply bounded_inv in Hx; lia).
      reflexivity.
    + symmetry. apply Z.compare_lt_iff.
      exact (scaled_lt_exp mx ex my ey Hx Hy L).
    + symmetry. apply Z.compare_gt_iff.
      pose proof (scaled_lt_exp my ey mx ex Hy Hx ltac:(lia)). lia.
Qed.

End KeyFacts.

(** The comparisons of JavaScript numbers, read off their ranks. *)

Lemma compare_rank (x y : float) :
  SFcompare (Prim2SF x) (Prim2SF y) =
    match rank x, rank y with
    | Some a, Some b => Some (a ?= b)%Z
    | _, _ => None
    end.
Proof.
  apply SFcompare_key; first [apply Prim2SF_valid | reflexivity].
Qed.

Lemma ltb_rank (x y : float) :
  (x <? y)%float =
    match rank x, rank y with
    | Some a, Some b => (a <? b)%Z
    | _, _ => false
    end.
Proof.
  rewrite ltb_spec. unfold SFltb. rewrite compare_rank.
  destruct (rank x) as [a|], (rank y) as [b|]; reflexivity.
Qed.

Lemma leb_rank (x y : float) :
  (x <=? y)%float =
    match rank x, rank y with
    | Some a, Some b => (a <=? b)%Z
    | _, _ => false
    end.
Proof.
  rewrite leb_spec. unfold SFleb. rewrite compare_rank.
  destruct (rank x) as [a|], (rank y) as [b|]; reflexivity.
Qed.

Lemma eqb_rank (x y : float) :
  (x =? y)%float =
    match rank x, rank y with
    | Some a, Some b => (a =? b)%Z
    | _, _ => false
    end.
Proof.
  rewrite eqb_spec. unfold SFeqb. rewrite compare_rank.
  destruct (rank x) as [a|], (rank y) as [b|]; try reflexivity.
  destruct (Z.compare_spec a b), (Z.eqb_spec a b); try reflexivity; lia.
Qed.


(** ** Rounding keeps the sign *)

Section RoundFacts.
Variables prec emax : Z.
Hypothesis prec_pos : (0 < prec)%Z.

Local Open Scope Z_scope.

Abbreviation emin := (SpecFloat.emin prec emax).

Lemma Zdigits2_bounds (m : Z) :
  0 < m -> 2 ^ (Zdigits2 m - 1) <= m < 2 ^ Zdigits2 m.
Proof.
  destruct m as [|p|p]; try lia. intros _. apply digits2_pos_bounds.
Qed.

Lemma Zdigits2_pos (m : Z) : 0 < m -> 0 < Zdigits2 m.
Proof. destruct m; simpl; lia. Qed.

Lemma shr_1_m (mrs : shr_record) :
  0 <= shr_m mrs -> shr_m (shr_1 mrs) = shr_m mrs / 2.
Proof.
  destruct mrs as [m r s]. simpl. intros Hm.
  destruct m as [|[p|p|]|p]; simpl; try lia; try reflexivity.
  - rewrite Pos2Z.inj_xI. apply (Z.div_unique _ _ _ 1); lia.
  - rewrite Pos2Z.inj_xO. apply (Z.div_unique _ _ _ 0); lia.
Qed.

Lemma iter_shr_1_m (k : positive) (mrs : shr_record) :
  0 <= shr_m mrs ->
  shr_m (SpecFloat.iter_pos shr_1 k mrs) = shr_m mrs / 2 ^ Z.pos k.
Proof.
  revert mrs. induction k as [k IH|k IH|]; intros mrs Hm; simpl SpecFloat.iter_pos.
  - assert (0 <= shr_m (shr_1 mrs)) as H1
      by (rewrite shr_1_m by done; apply Z.div_pos; lia).
    assert (0 <= shr_m (SpecFloat.iter_pos shr_1 k (shr_1 mrs))) as H2
      by (rewrite IH by done; apply Z.div_pos; [done|]; apply Z.pow_pos_nonneg; lia).
    rewrite IH, IH, shr_1_m by done.
    rewrite !Z.div_div by (try apply Z.pow_pos_nonneg; lia).
    f_equal.
    assert (Z.pos k~1 = 1 + Z.pos k + Z.pos k) as -> by lia.
    rewrite !Z.pow_add_r by lia. change (2 ^ 1) with 2. lia.
  - assert (0 <= shr_m (SpecFloat.iter_pos shr_1 k mrs)) as H2
      by (rewrite IH by done; apply Z.div_pos; [done|]; apply Z.pow_pos_nonneg; lia).
    rewrite IH, IH by done.
    rewrite !Z.div_div by (try apply Z.pow_pos_nonneg; lia).
    f_equal.
    assert (Z.pos k~0 = Z.pos k + Z.pos k) as -> by lia.
    rewrite !Z.pow_add_r by lia. lia.
  - by rewrite shr_1_m.
Qed.

Lemma shr_record_of_loc_m (m : Z) (l : location) :
  shr_m (shr_record_of_loc m l) = m.
Proof. by destruct l as [|[]]. Qed.

(** Truncating a positive mantissa to the format's precision leaves a
    positive mantissa, at an exponent no lower. *)
Lemma shr_fexp_pos (m e : Z) (l : location) :
  0 < m -> emin <= e ->
  0 < shr_m (fst (shr_fexp prec emax m e l)) /\
  emin <= snd (shr_fexp prec emax m e l).
Proof.
  intros Hm He. unfold shr_fexp, shr, fexp.
  pose proof (Zdigits2_bounds m Hm) as [Hlo Hhi].
  pose proof (Zdigits2_pos m Hm) as Hd.
  destruct (Z.max (Zdigits2 m + e - prec) emin - e) as [|n|n] eqn:En;
    simpl; rewrite ?shr_record_of_loc_m; try (split; lia).
  split; [|lia].
  rewrite iter_shr_1_m by (rewrite shr_record_of_loc_m; lia).
  rewrite shr_record_of_loc_m.
  assert (Z.pos n <= Zdigits2 m - 1) as Hn by lia.
  pose proof (Z.pow_le_mono_r 2 (Z.pos n) (Zdigits2 m - 1) ltac:(lia) Hn).
  apply Z.div_str_pos. split; [apply Z.pow_pos_nonneg; lia | lia].
Qed.

Lemma round_nearest_even_pos (m : Z) (l : location) :
  0 < m -> 0 < round_nearest_even m l.
Proof.
  intros Hm. unfold round_nearest_even.
  destruct l as [|[]]; try lia. destruct (Z.even m); lia.
Qed.

(** Rounding a nonzero number of the format's range gives a nonzero float
    of the same sign, or the infinity of that sign. *)
Lemma binary_round_aux_shape (s : bool) (m e : Z) (l : location) :
  0 < m -> emin <= e ->
  binary_round_aux prec emax s m e l = S754_infinity s \/
  exists m' e', binary_round_aux prec emax s m e l = S754_finite s m' e'.
Proof.
  intros Hm He. unfold binary_round_aux.
  pose proof (shr_fexp_pos m e l Hm He) as [H1 H1e].
  destruct (shr_fexp prec emax m e l) as [mrs' e']. simpl in H1, H1e.
  pose proof (round_nearest_even_pos (shr_m mrs') (loc_of_shr_record mrs') H1)
    as H2.
  pose proof (shr_fexp_pos _ e' loc_Exact H2 H1e) as [H3 _].
  destruct (shr_fexp prec emax _ e' loc_Exact) as [mrs'' e'']. simpl in H3.
  destruct (shr_m mrs'') as [|p|p]; try lia.
  destruct (e'' <=? emax - prec); eauto.
Qed.

Lemma shl_align_exp (mx : positive) (ex ex' : Z) :
  emin <= ex -> emin <= ex' -> emin <= snd (shl_align mx ex ex').
Proof. intros. unfold shl_align. by destruct (ex' - ex). Qed.

Lemma binary_round_shape (s : bool) (m : positive) (e : Z) :
  emin <= e ->
  binary_round prec emax s m e = S754_infinity s \/
  exists m' e', binary_round prec emax s m e = S754_finite s m' e'.
Proof.
  intros He. unfold binary_round.
  pose proof (shl_align_exp m e (fexp prec emax (Z.pos (digits2_pos m) + e)) He)
    as Hez.
  destruct (shl_align m e _) as [mz ez]. simpl in Hez.
  apply binary_round_aux_shape; [lia|]. apply Hez. unfold fexp. lia.
Qed.

Lemma shl_align_value (mx : positive) (ex ez : Z) :
  ez <= ex -> Z.pos (fst (shl_align mx ex ez)) = Z.pos mx * 2 ^ (ex - ez).
Proof.
  intros Hle. unfold shl_align.
  destruct (ez - ex) as [|d|d] eqn:Ed; simpl.
  - replace (ex - ez) with 0 by lia. lia.
  - lia.
  - replace (ex - ez) with (Z.pos d) by lia.
    rewrite <- Z.shiftl_mul_pow2 by lia. simpl.
    apply (Pos.iter_swap_gen positive Z Z.pos xO (Z.mul 2)). reflexivity.
Qed.

Lemma scaled_shl_align (s : bool) (m : positive) (e ez : Z) :
  emin <= ez -> ez <= e ->
  cond_Zopp s (scaled prec emax m e) =
    cond_Zopp s (Z.pos (fst (shl_align m e ez))) * 2 ^ (ez - emin).
Proof.
  intros Hmin Hle. rewrite shl_align_value by done. unfold scaled.
  replace (e - emin) with ((e - ez) + (ez - emin)) by lia.
  rewrite Z.pow_add_r by lia. destruct s; simpl; lia.
Qed.

(** The sign of a difference: [x - y] is positive exactly when [y] is below
    [x]. *)
Lemma SFsub_positive (x y : spec_float) :
  prec < emax ->
  SpecFloat.valid_binary prec emax x = true ->
  SpecFloat.valid_binary prec emax y = true ->
  SFltb (S754_zero false) (SFsub prec emax x y) =
    match key prec emax x, key prec emax y with
    | Some a, Some b => b <? a
    | _, _ => false
    end.
Proof.
  intros Hmax Hx Hy.
  assert (0 < 2 ^ (emax - emin)) as Hinf
    by (apply Z.pow_pos_nonneg; unfold SpecFloat.emin; lia).
  assert (forall m e, bounded prec emax m e = true ->
            0 < scaled prec emax m e < 2 ^ (emax - emin)) as Hfin.
  { intros m e Hb. split; [|by apply scaled_lt_infinity].
    apply scaled_pos. apply bounded_inv in Hb. lia. }
  destruct x as [sx|sx| |sx mx ex], y as [sy|sy| |sy my ey];
    cbn [SFsub key SpecFloat.valid_binary] in *; try reflexivity;
    try (pose proof (Hfin _ _ Hx)); try (pose proof (Hfin _ _ Hy)).
  1-8: destruct sx; try destruct sy; cbn [cond_Zopp negb SFltb SFcompare];
    symmetry; first [apply Z.ltb_lt; lia | apply Z.ltb_ge; lia].
  pose proof (bounded_inv _ _ _ _ Hx) as (Hex & _).
  pose proof (bounded_inv _ _ _ _ Hy) as (Hey & _).
  set (ez := Z.min ex ey).
  rewrite (scaled_shl_align sx mx ex ez), (scaled_shl_align sy my ey ez)
    by lia.
  set (X := cond_Zopp sx (Z.pos (fst (shl_align mx ex ez)))).
  set (Y := cond_Zopp sy (Z.pos (fst (shl_align my ey ez)))).
  pose proof (Z.pow_pos_nonneg 2 (ez - emin) ltac:(lia) ltac:(lia)) as Hp.
  unfold binary_normalize.
  destruct (X - Y) as [|d|d] eqn:Ed.
  - simpl. symmetry. apply Z.ltb_ge. nia.
  - destruct (binary_round_shape false d ez ltac:(lia)) as [->|(m' & e' & ->)];
      simpl; symmetry; apply Z.ltb_lt; nia.
  - destruct (binary_round_shape true d ez ltac:(lia)) as [->|(m' & e' & ->)];
      simpl; symmetry; apply Z.ltb_ge; nia.
Qed.

End RoundFacts.

Lemma sub_positive (x y : float) : (0 <? x - y)%float = (y <? x)%float.
Proof.
  rewrite ltb_spec, sub_spec, ltb_rank.
  change (Prim2SF 0) with (S754_zero false).
  unfold SF64sub. rewrite (SFsub_positive prec emax);
    try reflexivity; try apply Prim2SF_valid.
  unfold rank. destruct (key prec emax (Prim2SF x)), (key prec emax (Prim2SF y));
    reflexivity.
Qed.


(** ** Order facts used by the loops *)

Lemma rank_infinity : rank infinity = Some (2 ^ (emax - SpecFloat.emin prec emax))%Z.
Proof. reflexivity. Qed.

Lemma rank_le_infinity (x : float) (a : Z) :
  rank x = Some a -> (a <= 2 ^ (emax - SpecFloat.emin prec emax))%Z.
Proof.
  unfold rank. pose proof (Prim2SF_valid x) as Hv.
  assert (0 < 2 ^ (emax - SpecFloat.emin prec emax))%Z as Hinf by reflexivity.
  destruct (Prim2SF x) as [s|s| |s m e]; cbn [key]; intros [= <-].
  - lia.
  - destruct s; cbn [cond_Zopp]; lia.
  - pose proof (scaled_lt_infinity prec emax eq_refl m e Hv).
    pose proof (scaled_pos prec emax m e
                  (proj1 (bounded_inv prec emax m e Hv))).
    destruct s; cbn [cond_Zopp]; lia.
Qed.

Lemma ltb_irrefl (x : float) : (x <? x) = false.
Proof. rewrite ltb_rank. destruct (rank x); [apply Z.ltb_irrefl | done]. Qed.

Lemma ltb_trans (x y z : float) :
  (x <? y) = true -> (y <? z) = true -> (x <? z) = true.
Proof.
  rewrite !ltb_rank.
  destruct (rank x), (rank y), (rank z); try done.
  rewrite !Z.ltb_lt. lia.
Qed.

Lemma eqb_ltb_trans (x y z : float) :
  (x =? y) = true -> (y <? z) = true -> (x <? z) = true.
Proof.
  rewrite eqb_rank, !ltb_rank.
  destruct (rank x), (rank y), (rank z); try done.
  rewrite Z.eqb_eq, !Z.ltb_lt. lia.
Qed.

Lemma not_ltb_infinity (x y : float) :
  (x <? infinity) = false -> (y <? infinity) = false -> (y <? x) = false.
Proof.
  rewrite !ltb_rank, rank_infinity.
  destruct (rank x) as [a|] eqn:Ex, (rank y) as [b|] eqn:Ey; try done.
  apply rank_le_infinity in Ex, Ey.
  rewrite !Z.ltb_ge. lia.
Qed.

Lemma not_ltb_leb (x y : float) :
  is_Some (rank x) -> is_Some (rank y) ->
  (y <? x) = false -> (x <=? y) = true.
Proof.
  rewrite ltb_rank, leb_rank. intros [a ->] [b ->].
  rewrite Z.ltb_ge, Z.leb_le. lia.
Qed.

Lemma ltb_leb (x y : float) : (x <? y) = true -> (x <=? y) = true.
Proof.
  rewrite ltb_rank, leb_rank. destruct (rank x), (rank y); try done.
  rewrite Z.ltb_lt, Z.leb_le. lia.
Qed.

Lemma leb_trans (x y z : float) :
  (x <=? y) = true -> (y <=? z) = true -> (x <=? z) = true.
Proof.
  rewrite !leb_rank. destruct (rank x), (rank y), (rank z); try done.
  rewrite !Z.leb_le. lia.
Qed.

Lemma ltb_not_eqb (x y h : float) :
  (x <? y) = true -> (y =? h) = true -> (x =? h) = false.
Proof.
  rewrite ltb_rank, !eqb_rank. destruct (rank x), (rank y), (rank h); try done.
  rewrite Z.ltb_lt, Z.eqb_eq, Z.eqb_neq. lia.
Qed.

Lemma is_nan_rank (x : float) : is_nan x = false <-> is_Some (rank x).
Proof.
  unfold is_nan. rewrite eqb_rank. destruct (rank x) as [a|]; simpl.
  - rewrite Z.eqb_refl. split; [eauto | done].
  - split; [done | by intros [? ?]].
Qed.

(** ** Rounding to nearest, ties to even, on fractions *)


Section NearestFacts.
Variables prec emax : Z.
Hypothesis prec_pos : (0 < prec)%Z.
Local Open Scope Z_scope.

Lemma Zdigits2_nonneg (c : Z) : 0 <= Zdigits2 c.
Proof. destruct c; simpl; lia. Qed.

Lemma Zdigits2_le_iff (c d : Z) :
  0 <= c -> 0 <= d -> (Zdigits2 c <= d <-> c < 2 ^ d).
Proof.
  intros Hc Hd. destruct (Z.eq_dec c 0) as [->|Hne].
  - simpl. pose proof (Z.pow_pos_nonneg 2 d). lia.
  - pose proof (Zdigits2_bounds c ltac:(lia)) as [Hlo Hhi].
    pose proof (Zdigits2_pos c ltac:(lia)).
    split; intros Hcd.
    + pose proof (Z.pow_le_mono_r 2 (Zdigits2 c) d ltac:(lia) Hcd). lia.
    + destruct (Z.le_gt_cases (Zdigits2 c) d) as [|Hgt]; [done|].
      pose proof (Z.pow_le_mono_r 2 d (Zdigits2 c - 1) ltac:(lia) ltac:(lia)).
      lia.
Qed.

Lemma Zdigits2_mono (a b : Z) : 0 <= a <= b -> Zdigits2 a <= Zdigits2 b.
Proof.
  intros [Ha Hab].
  apply Zdigits2_le_iff; [lia | apply Zdigits2_nonneg |].
  destruct (Z.eq_dec b 0) as [->|Hb]; [simpl; lia|].
  pose proof (Zdigits2_bounds b ltac:(lia)). lia.
Qed.

Lemma Zdigits2_lt (c : Z) : 0 <= c -> c < 2 ^ Zdigits2 c.
Proof.
  intros Hc. apply Zdigits2_le_iff; [done | apply Zdigits2_nonneg | lia].
Qed.

Lemma Zdigits2_ge (c : Z) : 0 < c -> 2 ^ (Zdigits2 c - 1) <= c.
Proof. intros Hc. apply Zdigits2_bounds. lia. Qed.

(** Dropping [j] low bits drops [j] digits. *)
Lemma Zdigits2_div_pow2 (m j : Z) :
  0 <= m -> 0 <= j -> Zdigits2 (m / 2 ^ j) = Z.max (Zdigits2 m - j) 0.
Proof.
  intros Hm Hj.
  pose proof (Z.pow_pos_nonneg 2 j ltac:(lia) Hj) as Hp.
  assert (0 <= m / 2 ^ j) as Hq by (apply Z.div_pos; lia).
  apply Z.le_antisymm.
  - apply Zdigits2_le_iff; [done | lia |].
    apply Z.div_lt_upper_bound; [lia|].
    rewrite <- Z.pow_add_r by lia.
    pose proof (Zdigits2_lt m Hm).
    pose proof (Z.pow_le_mono_r 2 (Zdigits2 m) (j + Z.max (Zdigits2 m - j) 0)
                  ltac:(lia) ltac:(lia)).
    lia.
  - apply Z.max_lub; [|apply Zdigits2_nonneg].
    destruct (Z.le_gt_cases (Zdigits2 m - j) 0) as [|Hgt];
      [pose proof (Zdigits2_nonneg (m / 2 ^ j)); lia|].
    assert (0 < m) as Hm' by (destruct m; simpl in *; lia).
    pose proof (Zdigits2_ge m Hm') as Hge.
    destruct (Z.le_gt_cases (Zdigits2 m - j) (Zdigits2 (m / 2 ^ j)))
      as [|Hlt]; [done|].
    assert (m / 2 ^ j < 2 ^ (Zdigits2 m - j - 1)) as Hsmall.
    { apply Zdigits2_le_iff; lia. }
    assert (2 ^ (Zdigits2 m - j - 1) <= m / 2 ^ j); [|lia].
    apply Z.div_le_lower_bound; [lia|].
    rewrite <- Z.pow_add_r by lia.
    replace (j + (Zdigits2 m - j - 1)) with (Zdigits2 m - 1) by lia. done.
Qed.

Lemma shift_nonneg (c : Z) : 0 <= shift prec c.
Proof. unfold shift. lia. Qed.

Lemma shift_mono (a b : Z) : 0 <= a <= b -> shift prec a <= shift prec b.
Proof. intros H. unfold shift. pose proof (Zdigits2_mono a b H). lia. Qed.

Lemma shift_upper (c : Z) : 0 <= c -> c / 2 ^ shift prec c < 2 ^ prec.
Proof.
  intros Hc. pose proof (shift_nonneg c).
  apply Z.div_lt_upper_bound; [apply Z.pow_pos_nonneg; lia|].
  rewrite <- Z.pow_add_r by lia.
  pose proof (Zdigits2_lt c Hc).
  pose proof (Z.pow_le_mono_r 2 (Zdigits2 c) (shift prec c + prec)
                ltac:(lia) ltac:(unfold shift; lia)).
  lia.
Qed.

Lemma shift_lower (c : Z) :
  0 <= c -> 0 < shift prec c -> 2 ^ (prec - 1) <= c / 2 ^ shift prec c.
Proof.
  intros Hc Hn.
  assert (shift prec c = Zdigits2 c - prec) as E by (unfold shift in *; lia).
  assert (0 < c) as Hc' by (destruct c; simpl in *; unfold shift in *; simpl in *; lia).
  apply Z.div_le_lower_bound; [apply Z.pow_pos_nonneg; lia|].
  rewrite <- Z.pow_add_r by lia.
  replace (shift prec c + (prec - 1)) with (Zdigits2 c - 1) by lia.
  by apply Zdigits2_ge.
Qed.

Lemma nearest_bounds (N D : Z) : N / D <= nearest N D <= N / D + 1.
Proof. unfold nearest. destruct (roundUp N D); lia. Qed.

Lemma nearest_mono (N1 N2 D : Z) :
  0 < D -> N1 <= N2 -> nearest N1 D <= nearest N2 D.
Proof.
  intros HD Hle.
  pose proof (Z.div_le_mono N1 N2 D HD Hle) as Hq.
  pose proof (nearest_bounds N1 D). pose proof (nearest_bounds N2 D).
  destruct (Z.eq_dec (N1 / D) (N2 / D)) as [E|Hne]; [|lia].
  pose proof (Z.div_mod N1 D ltac:(lia)) as E1.
  pose proof (Z.div_mod N2 D ltac:(lia)) as E2.
  pose proof (Z.mod_pos_bound N1 D HD). pose proof (Z.mod_pos_bound N2 D HD).
  assert (N1 mod D <= N2 mod D) as Hr by (rewrite E in E1; nia).
  unfold nearest, roundUp. rewrite E.
  destruct (Z.ltb_spec D (2 * (N1 mod D))), (Z.ltb_spec D (2 * (N2 mod D)));
    simpl; try lia.
  all: destruct (Z.eqb_spec (2 * (N1 mod D)) D),
                (Z.eqb_spec (2 * (N2 mod D)) D); simpl; try lia.
  all: destruct (Z.odd (N2 / D)); lia.
Qed.

Lemma nearest_scale (c N D : Z) :
  0 < c -> 0 < D -> nearest (c * N) (c * D) = nearest N D.
Proof.
  intros Hc HD. unfold nearest, roundUp.
  rewrite Z.div_mul_cancel_l by lia.
  rewrite Z.mul_mod_distr_l by lia.
  f_equal.
  destruct (Z.ltb_spec (c * D) (2 * (c * (N mod D)))),
           (Z.ltb_spec D (2 * (N mod D))); simpl; try nia.
  all: destruct (Z.eqb_spec (2 * (c * (N mod D))) (c * D)),
                (Z.eqb_spec (2 * (N mod D)) D); simpl; try nia.
  all: reflexivity.
Qed.

Lemma Zdigits2_unique (c d : Z) :
  0 < c -> 2 ^ (d - 1) <= c < 2 ^ d -> Zdigits2 c = d.
Proof.
  intros Hc [Hlo Hhi].
  assert (0 < d) as Hd.
  { destruct (Z.le_gt_cases d 0) as [Hle|]; [|done].
    destruct (Z.eq_dec d 0) as [->|Hd0]; [change (2 ^ 0) with 1 in Hhi; lia|].
    rewrite Z.pow_neg_r in Hhi by lia. lia. }
  apply Z.le_antisymm.
  - apply Zdigits2_le_iff; lia.
  - destruct (Z.le_gt_cases d (Zdigits2 c)) as [|Hlt]; [done|].
    assert (c < 2 ^ (d - 1)); [|lia].
    apply Zdigits2_le_iff; lia.
Qed.

Lemma Zdigits2_mul_pow2 (m j : Z) :
  0 < m -> 0 <= j -> Zdigits2 (m * 2 ^ j) = Zdigits2 m + j.
Proof.
  intros Hm Hj.
  pose proof (Z.pow_pos_nonneg 2 j ltac:(lia) Hj) as Hp.
  pose proof (Zdigits2_pos m Hm) as Hd.
  apply Zdigits2_unique; [nia|].
  pose proof (Zdigits2_ge m Hm) as Hlo.
  pose proof (Zdigits2_lt m ltac:(lia)) as Hhi.
  replace (Zdigits2 m + j - 1) with ((Zdigits2 m - 1) + j) by lia.
  rewrite !Z.pow_add_r by lia. nia.
Qed.

Abbreviation infinityKey := (2 ^ (emax - SpecFloat.emin prec emax)).

Lemma roundKey_le_infinity (N D : Z) : roundKey prec emax N D <= infinityKey.
Proof. unfold roundKey. lia. Qed.

Lemma roundKey_nonneg (N D : Z) :
  0 <= N -> 0 < D -> prec < emax -> 0 <= roundKey prec emax N D.
Proof.
  intros HN HD Hmax. unfold roundKey.
  pose proof (shift_nonneg (N / D)) as Hn.
  pose proof (Z.pow_pos_nonneg 2 (shift prec (N / D)) ltac:(lia) Hn) as Hp.
  pose proof (nearest_bounds N (D * 2 ^ shift prec (N / D))) as [Hlo _].
  assert (0 <= N / (D * 2 ^ shift prec (N / D)))
    by (apply Z.div_pos; nia).
  assert (0 < infinityKey)
    by (apply Z.pow_pos_nonneg; unfold SpecFloat.emin; lia).
  apply Z.min_glb; nia.
Qed.

Lemma roundKey_mono (N1 N2 D : Z) :
  0 <= N1 <= N2 -> 0 < D ->
  roundKey prec emax N1 D <= roundKey prec emax N2 D.
Proof.
  intros [H1 H12] HD. unfold roundKey.
  assert (0 <= N1 / D) as Hc1 by (apply Z.div_pos; lia).
  pose proof (Z.div_le_mono N1 N2 D HD H12) as Hc.
  pose proof (shift_mono (N1 / D) (N2 / D) ltac:(lia)) as Hn.
  set (n1 := shift prec (N1 / D)) in *. set (n2 := shift prec (N2 / D)) in *.
  pose proof (shift_nonneg (N1 / D)) as Hn1. fold n1 in Hn1.
  pose proof (Z.pow_pos_nonneg 2 n1 ltac:(lia) Hn1) as Hp1.
  pose proof (Z.pow_pos_nonneg 2 n2 ltac:(lia) ltac:(lia)) as Hp2.
  apply Z.min_le_compat_r.
  destruct (Z.eq_dec n1 n2) as [E|Hne].
  - rewrite <- E.
    apply Z.mul_le_mono_nonneg_r; [lia|].
    apply nearest_mono; [nia | lia].
  - pose proof (nearest_bounds N1 (D * 2 ^ n1)) as [_ Hup].
    pose proof (nearest_bounds N2 (D * 2 ^ n2)) as [Hlo _].
    rewrite <- !Z.div_div in Hup, Hlo by lia.
    pose proof (shift_upper (N1 / D) Hc1) as Hu. fold n1 in Hu.
    pose proof (shift_lower (N2 / D) ltac:(lia) ltac:(fold n2; lia)) as Hl.
    fold n2 in Hl.
    replace n2 with ((n1 + 1) + (n2 - n1 - 1)) by lia.
    rewrite !Z.pow_add_r by lia. change (2 ^ 1) with 2.
    pose proof (Z.pow_pos_nonneg 2 (n2 - n1 - 1) ltac:(lia) ltac:(lia)) as Hp3.
    replace n2 with ((n1 + 1) + (n2 - n1 - 1)) in Hlo, Hl by lia.
    rewrite !Z.pow_add_r in Hlo, Hl by lia. change (2 ^ 1) with 2 in *.
    assert (2 ^ prec = 2 ^ (prec - 1) * 2) as Epow.
    { replace prec with ((prec - 1) + 1) at 1 by lia.
      by rewrite Z.pow_add_r by lia. }
    rewrite Epow in Hu.
    pose proof (Z.pow_pos_nonneg 2 (prec - 1) ltac:(lia) ltac:(lia)) as Hp4.
    set (a := 2 ^ n1) in *. set (b := 2 ^ (n2 - n1 - 1)) in *.
    set (P := 2 ^ (prec - 1)) in *.
    set (M1 := nearest N1 (D * a)) in *.
    set (M2 := nearest N2 (D * (a * 2 * b))) in *.
    assert (M1 * a <= P * 2 * a) by nia.
    assert (P * (a * 2 * b) <= M2 * (a * 2 * b)) by nia.
    assert (P * 2 * a * 1 <= P * 2 * a * b)
      by (apply Z.mul_le_mono_nonneg_l; nia).
    lia.
Qed.

Lemma roundKey_scale (c N D : Z) :
  0 < c -> 0 < D -> roundKey prec emax (c * N) (c * D) = roundKey prec emax N D.
Proof.
  intros Hc HD. unfold roundKey.
  rewrite Z.div_mul_cancel_l by lia.
  pose proof (shift_nonneg (N / D)) as Hn.
  pose proof (Z.pow_pos_nonneg 2 (shift prec (N / D)) ltac:(lia) Hn) as Hp.
  rewrite <- Z.mul_assoc, nearest_scale by nia. reflexivity.
Qed.

Lemma roundKey_mono_frac (N1 D1 N2 D2 : Z) :
  0 <= N1 -> 0 <= N2 -> 0 < D1 -> 0 < D2 -> N1 * D2 <= N2 * D1 ->
  roundKey prec emax N1 D1 <= roundKey prec emax N2 D2.
Proof.
  intros H1 H2 HD1 HD2 Hle.
  rewrite <- (roundKey_scale D2 N1 D1), <- (roundKey_scale D1 N2 D2) by lia.
  replace (D1 * D2) with (D2 * D1) by lia.
  apply roundKey_mono; nia.
Qed.

Lemma roundKey_frac_eq (N1 D1 N2 D2 : Z) :
  0 < D1 -> 0 < D2 -> N1 * D2 = N2 * D1 ->
  roundKey prec emax N1 D1 = roundKey prec emax N2 D2.
Proof.
  intros HD1 HD2 E.
  rewrite <- (roundKey_scale D2 N1 D1), <- (roundKey_scale D1 N2 D2) by lia.
  f_equal; lia.
Qed.

(** A number of the format is its own nearest float. *)
Lemma roundKey_exact (K : Z) :
  0 <= K -> K mod 2 ^ shift prec K = 0 ->
  roundKey prec emax K 1 = Z.min K infinityKey.
Proof.
  intros HK Hmod. unfold roundKey. rewrite Z.div_1_r, Z.mul_1_l.
  pose proof (shift_nonneg K) as Hn.
  pose proof (Z.pow_pos_nonneg 2 (shift prec K) ltac:(lia) Hn) as Hp.
  f_equal. unfold nearest, roundUp. rewrite Hmod.
  replace (2 * 0) with 0 by lia.
  destruct (Z.ltb_spec (2 ^ shift prec K) 0); [lia|].
  destruct (Z.eqb_spec 0 (2 ^ shift prec K)); [lia|]. cbn [orb andb].
  pose proof (Z.div_mod K (2 ^ shift prec K) ltac:(lia)) as E.
  rewrite Hmod in E. nia.
Qed.

Lemma shift_scaled (m : positive) (e : Z) :
  bounded prec emax m e = true ->
  shift prec (scaled prec emax m e) = e - SpecFloat.emin prec emax.
Proof.
  intros Hb. pose proof (bounded_inv _ _ _ _ Hb) as (Hmin & _ & Hd & Hfull).
  unfold shift, scaled. rewrite Zdigits2_mul_pow2 by lia. simpl Zdigits2.
  destruct (Z.eq_dec e (SpecFloat.emin prec emax)) as [E|Hne]; [|specialize (Hfull ltac:(lia))]; lia.
Qed.

Lemma roundKey_scaled (m : positive) (e : Z) :
  bounded prec emax m e = true ->
  roundKey prec emax (scaled prec emax m e) 1 = scaled prec emax m e.
Proof.
  intros Hb. pose proof (bounded_inv _ _ _ _ Hb) as (Hmin & _).
  pose proof (scaled_pos prec emax m e Hmin) as Hpos.
  pose proof (scaled_lt_infinity prec emax prec_pos m e Hb) as Hlt.
  rewrite roundKey_exact; [lia | lia |].
  rewrite shift_scaled by done. unfold scaled. apply Z.mod_mul.
  pose proof (Z.pow_pos_nonneg 2 (e - SpecFloat.emin prec emax)). lia.
Qed.

End NearestFacts.

Section LocateFacts.
Local Open Scope Z_scope.

Lemma div_mod_eq (a b q r : Z) :
  0 <= r < b -> a = b * q + r -> a / b = q /\ a mod b = r.
Proof.
  intros Hr E. split.
  - symmetry. apply (Z.div_unique a b q r); [lia | done].
  - symmetry. apply (Z.mod_unique a b q r); [lia | done].
Qed.

Ltac split_leb :=
  match goal with
  | |- context [(?x <=? ?y)%Z] => destruct (Z.leb_spec x y)
  | H : context [(?x <=? ?y)%Z] |- _ => destruct (Z.leb_spec x y)
  end.

Ltac split_ltb :=
  match goal with
  | |- context [(?x <? ?y)%Z] => destruct (Z.ltb_spec x y)
  | H : context [(?x <? ?y)%Z] |- _ => destruct (Z.ltb_spec x y)
  end.

Ltac split_eqb :=
  match goal with
  | |- context [(?x =? ?y)%Z] => destruct (Z.eqb_spec x y)
  | H : context [(?x =? ?y)%Z] |- _ => destruct (Z.eqb_spec x y)
  end.

Ltac bool_arith :=
  repeat first [split_leb | split_ltb | split_eqb];
  cbn [negb andb orb] in *; try reflexivity; try discriminate; try lia.

(** One more step to the right keeps the record on the same fraction, now
    counted in units twice as large. *)
Lemma locates_shr_1 (N D : Z) (mrs : shr_record) :
  0 <= N -> 0 < D -> locates N D mrs -> locates N (2 * D) (shr_1 mrs).
Proof.
  intros HN HD. destruct mrs as [m r s]. unfold locates. cbn [shr_m shr_r shr_s].
  intros (Hm & Hr & Hs).
  pose proof (Z.div_mod N D ltac:(lia)) as E.
  pose proof (Z.mod_pos_bound N D HD) as Hrem.
  assert (0 <= N / D) as Hq by (apply Z.div_pos; lia).
  set (q := N / D) in *. set (rem := N mod D) in *.
  subst r s.
  destruct m as [|[p|p|]|p]; cbn [shr_1 shr_m shr_r shr_s]; try lia.
  - destruct (div_mod_eq N (2 * D) 0 rem) as [-> ->]; [lia | lia |].
    repeat split; bool_arith.
  - destruct (div_mod_eq N (2 * D) (Z.pos p) (D + rem)) as [-> ->];
      [lia | lia |].
    repeat split; bool_arith.
  - destruct (div_mod_eq N (2 * D) (Z.pos p) rem) as [-> ->]; [lia | lia |].
    repeat split; bool_arith.
  - destruct (div_mod_eq N (2 * D) 0 (D + rem)) as [-> ->]; [lia | lia |].
    repeat split; bool_arith.
Qed.

Lemma locates_iter (k : positive) (N D : Z) (mrs : shr_record) :
  0 <= N -> 0 < D -> locates N D mrs ->
  locates N (D * 2 ^ Z.pos k) (SpecFloat.iter_pos shr_1 k mrs).
Proof.
  intros HN. revert D mrs.
  induction k as [k IH|k IH|]; intros D mrs HD Hloc; simpl SpecFloat.iter_pos.
  - assert (Z.pos k~1 = 1 + Z.pos k + Z.pos k) as -> by lia.
    rewrite !Z.pow_add_r by lia. change (2 ^ 1) with 2.
    pose proof (Z.pow_pos_nonneg 2 (Z.pos k) ltac:(lia) ltac:(lia)) as Hp.
    replace (D * (2 * 2 ^ Z.pos k * 2 ^ Z.pos k))
      with (2 * D * 2 ^ Z.pos k * 2 ^ Z.pos k) by lia.
    apply IH; [nia|]. apply IH; [lia|]. by apply locates_shr_1.
  - assert (Z.pos k~0 = Z.pos k + Z.pos k) as -> by lia.
    rewrite !Z.pow_add_r by lia.
    pose proof (Z.pow_pos_nonneg 2 (Z.pos k) ltac:(lia) ltac:(lia)) as Hp.
    rewrite Z.mul_assoc.
    apply IH; [nia|]. by apply IH.
  - change (2 ^ 1) with 2. rewrite Z.mul_comm. by apply locates_shr_1.
Qed.

Lemma locates_exact (m : Z) : locates m 1 (shr_record_of_loc m loc_Exact).
Proof.
  unfold locates. cbn [shr_record_of_loc shr_m shr_r shr_s].
  rewrite Z.div_1_r, Z.mod_1_r. repeat split.
Qed.

(** The quotient and remainder of a division locate its exact result. *)
Lemma locates_division (q r d : Z) :
  0 <= r < d ->
  locates (d * q + r) d (shr_record_of_loc q (new_location d r)).
Proof.
  intros Hr.
  destruct (div_mod_eq (d * q + r) d q r Hr eq_refl) as [Eq Er].
  unfold locates. rewrite Eq, Er.
  unfold new_location, new_location_even, new_location_odd.
  destruct (Z.even d) eqn:Heven.
  - destruct (Z.eqb_spec r 0) as [->|Hr0];
      cbn [shr_record_of_loc shr_m shr_r shr_s].
    + repeat split; bool_arith.
    + destruct (Z.compare_spec (2 * r) d);
        cbn [shr_record_of_loc shr_m shr_r shr_s]; repeat split; bool_arith.
  - assert (2 * r <> d) as Hodd.
    { intros <-. rewrite Z.even_mul in Heven. discriminate. }
    destruct (Z.eqb_spec r 0) as [->|Hr0];
      cbn [shr_record_of_loc shr_m shr_r shr_s].
    + repeat split; bool_arith.
    + destruct (Z.compare_spec (2 * r + 1) d);
        cbn [shr_record_of_loc shr_m shr_r shr_s]; repeat split; bool_arith.
Qed.

(** Rounding the located fraction to nearest, ties to even. *)
Lemma round_locates (N D : Z) (mrs : shr_record) :
  0 <= N -> 0 < D -> locates N D mrs ->
  round_nearest_even (shr_m mrs) (loc_of_shr_record mrs) = nearest N D.
Proof.
  intros HN HD. destruct mrs as [m r s]. unfold locates.
  cbn [shr_m shr_r shr_s]. intros (-> & -> & ->).
  pose proof (Z.mod_pos_bound N D HD) as Hrem.
  unfold nearest, roundUp, loc_of_shr_record, round_nearest_even.
  rewrite <- Z.negb_odd.
  set (rem := N mod D) in *.
  destruct (Z.leb_spec D (2 * rem)), (Z.eqb_spec rem 0),
    (Z.eqb_spec (2 * rem) D), (Z.ltb_spec D (2 * rem));
    cbn [negb andb orb]; try lia; try (destruct (Z.odd (N / D)); simpl; lia).
Qed.

End LocateFacts.

Section RoundKeys.
Variables prec emax : Z.
Hypothesis prec_pos : (0 < prec)%Z.
Hypothesis prec_lt_emax : (prec < emax)%Z.
Local Open Scope Z_scope.

Abbreviation emin := (SpecFloat.emin prec emax).
Abbreviation infinityKey := (2 ^ (emax - emin)).

Lemma fexp_ge_emin (e : Z) : emin <= fexp prec emax e.
Proof. unfold fexp. lia. Qed.

(** The first truncation brings the mantissa to the exponent of the format
    and keeps track of what is cut off. *)
Lemma shr_fexp_locates (m e : Z) (l : location) (N0 D0 : Z) :
  0 <= N0 -> 0 < D0 -> locates N0 D0 (shr_record_of_loc m l) ->
  e <= fexp prec emax (Zdigits2 m + e) ->
  let E := fexp prec emax (Zdigits2 m + e) in
  snd (shr_fexp prec emax m e l) = E /\
  locates N0 (D0 * 2 ^ (E - e)) (fst (shr_fexp prec emax m e l)).
Proof.
  intros HN HD Hloc He E. unfold shr_fexp, shr. fold E.
  destruct (E - e) as [|p|p] eqn:Ek; cbn [fst snd].
  - split; [lia|]. by rewrite Z.mul_1_r.
  - split; [lia|]. by apply locates_iter.
  - lia.
Qed.

(** The second truncation only undoes a carry into one more digit. *)
Lemma shr_fexp_carry (M E : Z) :
  0 <= M <= 2 ^ prec -> emin <= E -> (emin < E -> 2 ^ (prec - 1) <= M) ->
  exists M' E',
    shr_m (fst (shr_fexp prec emax M E loc_Exact)) = M' /\
    snd (shr_fexp prec emax M E loc_Exact) = E' /\
    M' * 2 ^ (E' - emin) = M * 2 ^ (E - emin) /\
    emin <= E' /\ 0 <= M' < 2 ^ prec /\
    (emin < E' -> 2 ^ (prec - 1) <= M').
Proof.
  intros [HM0 HM] HE Hfull.
  pose proof (Z.pow_pos_nonneg 2 prec ltac:(lia) ltac:(lia)) as Hp.
  destruct (Z.eq_dec M (2 ^ prec)) as [->|Hne].
  - assert (Zdigits2 (2 ^ prec) = prec + 1) as Hd.
    { apply Zdigits2_unique; [lia|].
      replace (prec + 1 - 1) with prec by lia.
      rewrite Z.pow_add_r by lia. change (2 ^ 1) with 2. lia. }
    exists (2 ^ (prec - 1)), (E + 1).
    assert (2 ^ prec = 2 * 2 ^ (prec - 1)) as Epow.
    { replace prec with (1 + (prec - 1)) at 1 by lia.
      by rewrite Z.pow_add_r by lia. }
    pose proof (Z.pow_pos_nonneg 2 (prec - 1) ltac:(lia) ltac:(lia)) as Hp1.
    unfold shr_fexp, shr, fexp. rewrite Hd.
    replace (Z.max (prec + 1 + E - prec) emin - E) with 1 by lia.
    cbn [fst snd SpecFloat.iter_pos].
    rewrite shr_1_m by (rewrite shr_record_of_loc_m; lia).
    rewrite shr_record_of_loc_m.
    repeat split; try lia.
    + rewrite Epow, Z.mul_comm. apply Z.div_mul. lia.
    + replace (E + 1 - emin) with (1 + (E - emin)) by lia.
      rewrite Z.pow_add_r by lia. change (2 ^ 1) with 2. lia.
  - exists M, E.
    assert (Zdigits2 M <= prec) as Hd by (apply Zdigits2_le_iff; lia).
    unfold shr_fexp, shr, fexp.
    destruct (Z.max (Zdigits2 M + E - prec) emin - E) as [|p|p] eqn:Ek;
      cbn [fst snd]; rewrite ?shr_record_of_loc_m; try lia.
    all: repeat split; try lia.
Qed.

Lemma keyFraction_pos (N0 D0 e : Z) :
  0 <= N0 -> 0 < D0 ->
  0 <= fst (keyFraction prec emax N0 D0 e) /\ 0 < snd (keyFraction prec emax N0 D0 e).
Proof.
  intros HN HD. unfold keyFraction.
  destruct (Z.leb_spec emin e); cbn [fst snd].
  - pose proof (Z.pow_pos_nonneg 2 (e - emin) ltac:(lia) ltac:(lia)). nia.
  - pose proof (Z.pow_pos_nonneg 2 (emin - e) ltac:(lia) ltac:(lia)). nia.
Qed.

(** The exponent the truncation chose is the format's for the number. *)
Lemma shift_keyFraction (m e N0 D0 : Z) :
  0 <= N0 -> 0 < D0 -> m = N0 / D0 ->
  e <= fexp prec emax (Zdigits2 m + e) ->
  shift prec (fst (keyFraction prec emax N0 D0 e) / snd (keyFraction prec emax N0 D0 e))
    = fexp prec emax (Zdigits2 m + e) - emin.
Proof.
  intros HN HD Hm He.
  assert (0 <= m) as Hm0 by (subst m; apply Z.div_pos; lia).
  pose proof (Zdigits2_nonneg m) as Hd0.
  unfold keyFraction. destruct (Z.leb_spec emin e) as [Hle|Hlt]; cbn [fst snd].
  - destruct (Z.eq_dec m 0) as [E0|Hne].
    + rewrite E0 in *. simpl Zdigits2 in *. unfold fexp in *.
      assert (e = emin) as -> by lia.
      rewrite Z.sub_diag, Z.mul_1_r, <- Hm. unfold shift. simpl Zdigits2. lia.
    + pose proof (Z.pow_pos_nonneg 2 (e - emin) ltac:(lia) ltac:(lia)) as Hp.
      pose proof (Z.div_mod N0 D0 ltac:(lia)) as Ediv.
      pose proof (Z.mod_pos_bound N0 D0 HD) as Hrem. rewrite <- Hm in Ediv.
      pose proof (Zdigits2_ge m ltac:(lia)) as Hlo.
      pose proof (Zdigits2_lt m Hm0) as Hhi.
      pose proof (Z.pow_pos_nonneg 2 (Zdigits2 m - 1) ltac:(lia)
                    ltac:(pose proof (Zdigits2_pos m ltac:(lia)); lia)) as Hp1.
      assert (Zdigits2 (N0 * 2 ^ (e - emin) / D0) = Zdigits2 m + (e - emin))
        as Hdig.
      { assert (m * 2 ^ (e - emin) <= N0 * 2 ^ (e - emin) / D0) as Hge
          by (apply Z.div_le_lower_bound; nia).
        apply Zdigits2_unique; [nia|]. split.
        - replace (Zdigits2 m + (e - emin) - 1)
            with ((Zdigits2 m - 1) + (e - emin)) by lia.
          rewrite Z.pow_add_r
            by (pose proof (Zdigits2_pos m ltac:(lia)); lia).
          nia.
        - apply Z.div_lt_upper_bound; [lia|].
          rewrite Z.pow_add_r by lia.
          assert (N0 < D0 * 2 ^ Zdigits2 m) as Hlt0 by nia.
          set (a := 2 ^ (e - emin)) in *. set (b := 2 ^ Zdigits2 m) in *.
          replace (D0 * (b * a)) with (D0 * b * a) by lia.
          apply Z.mul_lt_mono_pos_r; lia. }
      unfold shift. rewrite Hdig. unfold fexp. lia.
  - pose proof (Z.pow_pos_nonneg 2 (emin - e) ltac:(lia) ltac:(lia)) as Hp.
    rewrite <- Z.div_div, <- Hm by lia.
    unfold shift. rewrite Zdigits2_div_pow2 by lia. unfold fexp. lia.
Qed.

Lemma nearest_keyFraction (e E N0 D0 : Z) :
  0 < D0 -> e <= E -> emin <= E ->
  nearest (fst (keyFraction prec emax N0 D0 e))
    (snd (keyFraction prec emax N0 D0 e) * 2 ^ (E - emin))
  = nearest N0 (D0 * 2 ^ (E - e)).
Proof.
  intros HD He HE. unfold keyFraction.
  destruct (Z.leb_spec emin e) as [Hle|Hlt]; cbn [fst snd].
  - replace (E - emin) with ((e - emin) + (E - e)) by lia.
    rewrite Z.pow_add_r by lia.
    pose proof (Z.pow_pos_nonneg 2 (e - emin) ltac:(lia) ltac:(lia)) as Hp.
    pose proof (Z.pow_pos_nonneg 2 (E - e) ltac:(lia) ltac:(lia)) as Hp'.
    replace (N0 * 2 ^ (e - emin)) with (2 ^ (e - emin) * N0) by lia.
    replace (D0 * (2 ^ (e - emin) * 2 ^ (E - e)))
      with (2 ^ (e - emin) * (D0 * 2 ^ (E - e))) by lia.
    apply nearest_scale; nia.
  - replace (E - e) with ((emin - e) + (E - emin)) by lia.
    rewrite Z.pow_add_r by lia. by rewrite Z.mul_assoc.
Qed.

(** [binary_round_aux], on a located fraction at an exponent no higher than
    the format's, returns the float nearest to the number. *)
Lemma binary_round_aux_key (m e : Z) (l : location) (N0 D0 : Z) :
  0 <= N0 -> 0 < D0 -> locates N0 D0 (shr_record_of_loc m l) ->
  e <= fexp prec emax (Zdigits2 m + e) ->
  key prec emax (binary_round_aux prec emax false m e l)
    = Some (roundKey prec emax (fst (keyFraction prec emax N0 D0 e))
              (snd (keyFraction prec emax N0 D0 e))).
Proof.
  intros HN HD Hloc He.
  assert (m = N0 / D0) as Hm.
  { destruct Hloc as [Hloc _]. by rewrite shr_record_of_loc_m in Hloc. }
  assert (0 <= m) as Hm0 by (subst m; apply Z.div_pos; lia).
  pose proof (shr_fexp_locates m e l N0 D0 HN HD Hloc He) as [HE Hloc'].
  pose proof (shift_keyFraction m e N0 D0 HN HD Hm He) as Hshift.
  set (E := fexp prec emax (Zdigits2 m + e)) in *.
  pose proof (fexp_ge_emin (Zdigits2 m + e)) as HEmin. fold E in HEmin.
  pose proof (nearest_keyFraction e E N0 D0 HD He HEmin) as Hnear.
  unfold roundKey. rewrite Hshift, Hnear.
  pose proof (Z.pow_pos_nonneg 2 (E - e) ltac:(lia) ltac:(lia)) as Hpk.
  pose proof (round_locates N0 (D0 * 2 ^ (E - e)) _ HN ltac:(nia) Hloc')
    as Hround.
  set (M := nearest N0 (D0 * 2 ^ (E - e))) in *.
  pose proof (nearest_bounds N0 (D0 * 2 ^ (E - e))) as [HMlo HMhi].
  fold M in HMlo, HMhi.
  rewrite <- Z.div_div, <- Hm in HMlo, HMhi by lia.
  pose proof (Zdigits2_nonneg m) as Hd0.
  pose proof (Z.pow_pos_nonneg 2 prec ltac:(lia) ltac:(lia)) as Hpp.
  assert (m / 2 ^ (E - e) < 2 ^ prec) as Hup.
  { apply Z.div_lt_upper_bound; [lia|]. rewrite <- Z.pow_add_r by lia.
    pose proof (Zdigits2_lt m Hm0).
    pose proof (Z.pow_le_mono_r 2 (Zdigits2 m) (E - e + prec) ltac:(lia)
                  ltac:(unfold E, fexp; lia)).
    lia. }
  assert (0 <= m / 2 ^ (E - e)) as Hlo0 by (apply Z.div_pos; lia).
  assert (emin < E -> 2 ^ (prec - 1) <= m / 2 ^ (E - e)) as Hfull.
  { intros HE'.
    assert (E - e = Zdigits2 m - prec) as Ek by (unfold E, fexp in *; lia).
    assert (0 < m) as Hmpos by (destruct m; simpl in *; lia).
    apply Z.div_le_lower_bound; [lia|]. rewrite <- Z.pow_add_r by lia.
    replace (E - e + (prec - 1)) with (Zdigits2 m - 1) by lia.
    by apply Zdigits2_ge. }
  destruct (shr_fexp_carry M E ltac:(lia) HEmin ltac:(lia))
    as (M' & E' & HM' & HE' & Hval & HE'min & HM'b & HM'full).
  unfold binary_round_aux.
  destruct (shr_fexp prec emax m e l) as [mrs1 e1]. cbn [fst snd] in *.
  subst e1. rewrite Hround.
  destruct (shr_fexp prec emax M E loc_Exact) as [mrs2 e2]. cbn [fst snd] in *.
  subst e2. rewrite HM'.
  assert (0 < infinityKey) as Hinf
    by (apply Z.pow_pos_nonneg; unfold SpecFloat.emin; lia).
  pose proof (Z.pow_pos_nonneg 2 (E' - emin) ltac:(lia) ltac:(lia)) as HpE'.
  destruct M' as [|p|p]; [| |lia].
  - cbn [key]. f_equal. lia.
  - destruct (Z.leb_spec E' (emax - prec)) as [Hfin|Hovf]; cbn [key cond_Zopp].
    + f_equal. unfold scaled. rewrite Hval.
      assert (Z.pos p * 2 ^ (E' - emin) < infinityKey); [|lia].
      replace (emax - emin) with (prec + (E' - emin) + (emax - prec - E'))
        by lia.
      rewrite !Z.pow_add_r by lia.
      pose proof (Z.pow_pos_nonneg 2 (emax - prec - E') ltac:(lia) ltac:(lia)).
      set (a := 2 ^ (E' - emin)) in *. set (c := 2 ^ (emax - prec - E')) in *.
      set (P := 2 ^ prec) in *.
      assert (Z.pos p * a < P * a) by nia.
      assert (P * a * 1 <= P * a * c) by (apply Z.mul_le_mono_nonneg_l; nia).
      lia.
    + f_equal.
      assert (emin < E') as Hgt by (unfold SpecFloat.emin in *; lia).
      specialize (HM'full Hgt).
      assert (infinityKey <= Z.pos p * 2 ^ (E' - emin)); [|lia].
      replace (E' - emin) with ((emax - prec + 1 - emin) + (E' - (emax - prec + 1)))
        by lia.
      replace (emax - emin) with ((prec - 1) + (emax - prec + 1 - emin)) by lia.
      rewrite !Z.pow_add_r by (unfold SpecFloat.emin; lia).
      pose proof (Z.pow_pos_nonneg 2 (emax - prec + 1 - emin) ltac:(lia)
                    ltac:(unfold SpecFloat.emin; lia)).
      pose proof (Z.pow_pos_nonneg 2 (E' - (emax - prec + 1)) ltac:(lia)
                    ltac:(lia)).
      pose proof (Z.pow_pos_nonneg 2 (prec - 1) ltac:(lia) ltac:(lia)).
      set (a := 2 ^ (emax - prec + 1 - emin)) in *.
      set (c := 2 ^ (E' - (emax - prec + 1))) in *.
      set (P := 2 ^ (prec - 1)) in *.
      assert (P * a <= Z.pos p * a) by nia.
      assert (Z.pos p * a * 1 <= Z.pos p * a * c)
        by (apply Z.mul_le_mono_nonneg_l; nia).
      lia.
Qed.

End RoundKeys.

Section Operations.
Variables prec emax : Z.
Hypothesis prec_pos : (0 < prec)%Z.
Hypothesis prec_lt_emax : (prec < emax)%Z.
Local Open Scope Z_scope.

Abbreviation emin := (SpecFloat.emin prec emax).
Abbreviation infinityKey := (2 ^ (emax - emin)).

Lemma emin_nonpos : emin <= 0.
Proof. unfold SpecFloat.emin. lia. Qed.

Lemma shl_align_cases (p : positive) (e F : Z) :
  (F < e /\ snd (shl_align p e F) = F /\
   Z.pos (fst (shl_align p e F)) = Z.pos p * 2 ^ (e - F)) \/
  (e <= F /\ shl_align p e F = (p, e)).
Proof.
  destruct (Z.lt_ge_cases F e) as [Hlt|Hge].
  - left. split; [done|]. split; [|apply shl_align_value; lia].
    unfold shl_align. destruct (F - e) eqn:E; try lia. reflexivity.
  - right. split; [done|]. unfold shl_align.
    destruct (F - e) eqn:E; try lia; reflexivity.
Qed.

(** Rounding an integer number of units of exponent [e]. *)
Lemma binary_round_key (p : positive) (e : Z) :
  emin <= e ->
  key prec emax (binary_round prec emax false p e)
    = Some (roundKey prec emax (scaled prec emax p e) 1).
Proof.
  intros He. unfold binary_round.
  set (F := fexp prec emax (Z.pos (digits2_pos p) + e)).
  pose proof (fexp_ge_emin prec emax (Z.pos (digits2_pos p) + e)) as HF.
  fold F in HF.
  destruct (shl_align_cases p e F) as [(Hlt & Hsnd & Hfst)|(Hge & Eq)].
  - destruct (shl_align p e F) as [mz ez]. cbn [fst snd] in *. subst ez.
    rewrite (binary_round_aux_key prec emax prec_pos prec_lt_emax
               (Z.pos mz) F loc_Exact (Z.pos mz) 1);
      [|lia|lia|apply locates_exact|].
    + f_equal. unfold keyFraction.
      destruct (Z.leb_spec emin F); [|lia]. cbn [fst snd]. f_equal.
      unfold scaled. rewrite Hfst.
      replace (e - emin) with ((e - F) + (F - emin)) by lia.
      rewrite Z.pow_add_r by lia. lia.
    + rewrite Hfst, Zdigits2_mul_pow2 by lia. simpl Zdigits2.
      replace (Z.pos (digits2_pos p) + (e - F) + F)
        with (Z.pos (digits2_pos p) + e) by lia.
      fold F. lia.
  - rewrite Eq.
    rewrite (binary_round_aux_key prec emax prec_pos prec_lt_emax
               (Z.pos p) e loc_Exact (Z.pos p) 1);
      [|lia|lia|apply locates_exact|simpl Zdigits2; fold F; lia].
    f_equal. unfold keyFraction.
    destruct (Z.leb_spec emin e); [|lia]. reflexivity.
Qed.

(** The sum of two positive floats is the float nearest to the sum. *)
Lemma SFadd_key (mx : positive) (ex : Z) (my : positive) (ey : Z) :
  bounded prec emax mx ex = true -> bounded prec emax my ey = true ->
  key prec emax
    (SFadd prec emax (S754_finite false mx ex) (S754_finite false my ey))
  = Some (roundKey prec emax
            (scaled prec emax mx ex + scaled prec emax my ey) 1).
Proof.
  intros Hx Hy.
  pose proof (bounded_inv _ _ _ _ Hx) as (Hex & _).
  pose proof (bounded_inv _ _ _ _ Hy) as (Hey & _).
  cbn [SFadd cond_Zopp]. set (ez := Z.min ex ey).
  pose proof (scaled_shl_align prec emax false mx ex ez ltac:(lia) ltac:(lia))
    as EX.
  pose proof (scaled_shl_align prec emax false my ey ez ltac:(lia) ltac:(lia))
    as EY.
  cbn [cond_Zopp] in EX, EY. rewrite EX, EY.
  set (X := fst (shl_align mx ex ez)). set (Y := fst (shl_align my ey ez)).
  change (Z.pos X + Z.pos Y) with (Z.pos (X + Y)).
  cbn [binary_normalize].
  rewrite binary_round_key by lia. f_equal. f_equal. unfold scaled.
  rewrite Pos2Z.inj_add. ring.
Qed.

Lemma pow2_add (a b : Z) : 0 <= a -> 0 <= b -> 2 ^ a * 2 ^ b = 2 ^ (a + b).
Proof. intros. by rewrite Z.pow_add_r. Qed.

(** The quotient of two positive floats is the float nearest to the
    quotient. *)
Lemma SFdiv_key (mx : positive) (ex : Z) (my : positive) (ey : Z) :
  bounded prec emax mx ex = true -> bounded prec emax my ey = true ->
  key prec emax
    (SFdiv prec emax (S754_finite false mx ex) (S754_finite false my ey))
  = Some (roundKey prec emax
            (scaled prec emax mx ex * 2 ^ (- emin)) (scaled prec emax my ey)).
Proof.
  intros Hx Hy.
  pose proof (bounded_inv _ _ _ _ Hx) as (Hex & _).
  pose proof (bounded_inv _ _ _ _ Hy) as (Hey & _).
  pose proof emin_nonpos as Hemin.
  cbn [SFdiv xorb]. unfold SFdiv_core_binary. cbn [Zdigits2].
  set (d1 := Z.pos (digits2_pos mx)). set (d2 := Z.pos (digits2_pos my)).
  set (e' := Z.min (fexp prec emax (d1 + ex - (d2 + ey))) (ex - ey)).
  set (s := ex - ey - e').
  assert (0 <= s) as Hs by (unfold s, e'; lia).
  set (m' := match s with
             | 0 => Z.pos mx
             | Z.pos _ => Z.shiftl (Z.pos mx) s
             | Z.neg _ => 0
             end).
  assert (m' = Z.pos mx * 2 ^ s) as Hm'.
  { unfold m'. destruct s as [|p|p] eqn:Es; [simpl; lia| |lia].
    by rewrite Z.shiftl_mul_pow2 by lia. }
  clearbody m'.
  pose proof (Z.pow_pos_nonneg 2 s ltac:(lia) Hs) as Hps.
  pose proof (Z.div_eucl_eq m' (Z.pos my) ltac:(lia)) as Heucl.
  pose proof (Z.mod_pos_bound m' (Z.pos my) ltac:(lia)) as Hrem.
  unfold Z.modulo in Hrem.
  assert (fst (Z.div_eucl m' (Z.pos my)) = m' / Z.pos my) as Hq by reflexivity.
  destruct (Z.div_eucl m' (Z.pos my)) as [q r]. cbn [fst] in Hq.
  assert (0 <= q) as Hq0 by (rewrite Hq; apply Z.div_pos; lia).
  pose proof (digits2_pos_bounds mx) as [Hlo1 Hhi1].
  pose proof (digits2_pos_bounds my) as [Hlo2 Hhi2].
  fold d1 in Hlo1, Hhi1. fold d2 in Hlo2, Hhi2.
  assert (d1 + s - d2 <= Zdigits2 q) as Hdq.
  { pose proof (Zdigits2_nonneg q).
    destruct (Z.le_gt_cases (d1 + s - d2) 0) as [|Hpos]; [lia|].
    destruct (Z.le_gt_cases (d1 + s - d2) (Zdigits2 q)) as [|Hlt]; [done|].
    assert (q < 2 ^ (d1 + s - d2 - 1)) as Hsmall
      by (apply Zdigits2_le_iff; lia).
    assert (2 ^ (d1 + s - d2 - 1) <= q); [|lia].
    rewrite Hq. apply Z.div_le_lower_bound; [lia|].
    assert (2 ^ (d1 + s - d2 - 1) * 2 ^ d2 = 2 ^ (d1 - 1) * 2 ^ s) as Epow.
    { rewrite !pow2_add by lia. f_equal. lia. }
    pose proof (Z.pow_pos_nonneg 2 (d1 + s - d2 - 1) ltac:(lia) ltac:(lia)).
    nia. }
  rewrite (binary_round_aux_key prec emax prec_pos prec_lt_emax q e'
             (new_location (Z.pos my) r) (Z.pos my * q + r) (Z.pos my));
    [|nia|lia|apply locates_division; lia|].
  - f_equal. pose proof (keyFraction_pos prec emax prec_pos prec_lt_emax
                           (Z.pos my * q + r) (Z.pos my) e'
                           ltac:(nia) ltac:(lia)) as [HN HD].
    pose proof (scaled_pos prec emax my ey Hey) as Hty.
    apply roundKey_frac_eq; [done | done |].
    rewrite <- Heucl, Hm'. unfold keyFraction, scaled.
    destruct (Z.leb_spec emin e'); cbn [fst snd].
    + replace (Z.pos mx * 2 ^ s * 2 ^ (e' - emin) * (Z.pos my * 2 ^ (ey - emin)))
        with (Z.pos mx * Z.pos my * (2 ^ s * 2 ^ (e' - emin) * 2 ^ (ey - emin)))
        by lia.
      replace (Z.pos mx * 2 ^ (ex - emin) * 2 ^ (- emin) * Z.pos my)
        with (Z.pos mx * Z.pos my * (2 ^ (ex - emin) * 2 ^ (- emin))) by lia.
      rewrite !pow2_add by lia. do 2 f_equal. unfold s. lia.
    + replace (Z.pos mx * 2 ^ s * (Z.pos my * 2 ^ (ey - emin)))
        with (Z.pos mx * Z.pos my * (2 ^ s * 2 ^ (ey - emin))) by lia.
      replace (Z.pos mx * 2 ^ (ex - emin) * 2 ^ (- emin)
               * (Z.pos my * 2 ^ (emin - e')))
        with (Z.pos mx * Z.pos my
              * (2 ^ (ex - emin) * 2 ^ (- emin) * 2 ^ (emin - e'))) by lia.
      rewrite !pow2_add by lia. do 2 f_equal. unfold s. lia.
  - unfold fexp, e', fexp in *. lia.
Qed.

(** Rounding a number that is not negative gives a float that is not
    negative. *)
Lemma shr_fexp_nonneg (m e : Z) (l : location) :
  0 <= m -> 0 <= shr_m (fst (shr_fexp prec emax m e l)).
Proof.
  intros Hm. unfold shr_fexp, shr.
  destruct (fexp prec emax (Zdigits2 m + e) - e) as [|p|p]; cbn [fst];
    rewrite ?iter_shr_1_m, ?shr_record_of_loc_m;
    rewrite ?shr_record_of_loc_m; try lia.
  apply Z.div_pos; [lia | apply Z.pow_pos_nonneg; lia].
Qed.

Lemma binary_round_aux_nonneg (m e : Z) (l : location) :
  0 <= m ->
  exists c, key prec emax (binary_round_aux prec emax false m e l) = Some c
            /\ 0 <= c.
Proof.
  intros Hm. unfold binary_round_aux.
  pose proof (shr_fexp_nonneg m e l Hm) as H1.
  destruct (shr_fexp prec emax m e l) as [mrs1 e1]. cbn [fst] in H1.
  assert (0 <= round_nearest_even (shr_m mrs1) (loc_of_shr_record mrs1)) as H2.
  { unfold round_nearest_even.
    destruct (loc_of_shr_record mrs1) as [|[]]; try lia.
    destruct (Z.even (shr_m mrs1)); lia. }
  pose proof (shr_fexp_nonneg _ e1 loc_Exact H2) as H3.
  destruct (shr_fexp prec emax _ e1 loc_Exact) as [mrs2 e2]. cbn [fst] in H3.
  destruct (shr_m mrs2) as [|p|p]; [| |lia].
  - exists 0. by cbn [key].
  - destruct (e2 <=? emax - prec); cbn [key cond_Zopp].
    + eexists. split; [reflexivity|]. unfold scaled.
      pose proof (Z.pow_nonneg 2 (e2 - emin) ltac:(lia)). nia.
    + eexists. split; [reflexivity|]. apply Z.pow_nonneg. lia.
Qed.

Lemma SFsqrt_nonneg (x : spec_float) :
  key prec emax (SFsqrt prec emax x) = None \/
  exists c, key prec emax (SFsqrt prec emax x) = Some c /\ 0 <= c.
Proof.
  destruct x as [s|[]| |[] m e]; cbn [SFsqrt key cond_Zopp]; eauto.
  - right. eexists. split; [reflexivity|]. lia.
  - right. eexists. split; [reflexivity|]. apply Z.pow_nonneg. lia.
  - right. unfold SFsqrt_core_binary.
    set (m' := match _ with 0 => _ | Z.pos _ => _ | Z.neg _ => _ end).
    assert (0 <= m') as Hm'.
    { unfold m'. destruct (e - 2 * _) as [|p|p]; try lia.
      apply Z.shiftl_nonneg. lia. }
    pose proof (Z.sqrtrem_spec m' Hm') as Hsq.
    destruct (Z.sqrtrem m') as [q r].
    apply binary_round_aux_nonneg. lia.
Qed.

End Operations.

(** ** Sums, quotients and square roots of JavaScript numbers *)

Lemma notBelow_refl (x : float) : notNegative x -> notBelow x x.
Proof.
  unfold notNegative, notBelow. intros Hx.
  destruct (rank x) as [a|]; [|done].
  split; [by apply Hx|]. intros b [= <-]. lia.
Qed.

Lemma notBelow_trans (x y z : float) :
  notBelow x y -> notBelow y z -> notBelow x z.
Proof.
  unfold notBelow.
  destruct (rank x) as [a|], (rank y) as [b|].
  - intros [Ha Hab] [Hb Hbc]. split; [done|].
    intros c Hc. specialize (Hab b eq_refl). specialize (Hbc c Hc). lia.
  - intros [Ha _] ->. split; [done|]. done.
  - intros [=].
  - done.
Qed.

Lemma notBelow_notNegative (x y : float) : notBelow x y -> notNegative y.
Proof.
  unfold notBelow, notNegative.
  destruct (rank x) as [a|].
  - intros [Ha Hab] b Hb. specialize (Hab b Hb). lia.
  - intros -> b [=].
Qed.

Lemma notBelow_ltb (x y : float) : notBelow x y -> (y <? x) = false.
Proof.
  unfold notBelow. rewrite ltb_rank.
  destruct (rank x) as [a|]; [|by intros ->].
  intros [_ Hab]. destruct (rank y) as [b|]; [|done].
  specialize (Hab b eq_refl). apply Z.ltb_ge. lia.
Qed.

(** The shapes of a number that is not negative. *)
Lemma notNegative_shape (x : float) (a : Z) :
  rank x = Some a -> (0 <= a)%Z ->
  (exists s, Prim2SF x = S754_zero s /\ a = 0%Z) \/
  (Prim2SF x = S754_infinity false /\ a = (2 ^ (emax - emin))%Z) \/
  (exists m e, Prim2SF x = S754_finite false m e /\
               bounded prec emax m e = true /\ a = scaled prec emax m e).
Proof.
  unfold rank. pose proof (Prim2SF_valid x) as Hv.
  destruct (Prim2SF x) as [s|s| |s m e]; cbn [key]; intros [= <-] Ha.
  - left. eauto.
  - right. left. destruct s; [|done]. cbn [cond_Zopp] in Ha.
    assert (0 < 2 ^ (emax - emin))%Z by reflexivity. lia.
  - right. right.
    pose proof (scaled_pos prec emax m e
                  (proj1 (bounded_inv prec emax m e Hv))).
    destruct s; cbn [cond_Zopp] in *; [lia|]. eauto.
Qed.

Lemma positive_shape (T : float) :
  (0 <? T) = true ->
  Prim2SF T = S754_infinity false \/
  exists m e, Prim2SF T = S754_finite false m e /\
              bounded prec emax m e = true.
Proof.
  rewrite ltb_spec. change (Prim2SF 0) with (S754_zero false).
  pose proof (Prim2SF_valid T) as Hv.
  destruct (Prim2SF T) as [s|s| |s m e]; cbn; try done.
  - destruct s; [done | by left].
  - destruct s; [done|]. right. eauto.
Qed.

(** Adding a number that is not negative does not go below. *)
Lemma add_notBelow (d e : float) :
  notNegative d -> notNegative e -> notBelow d (d + e).
Proof.
  unfold notNegative, notBelow, rank. intros Hd He.
  rewrite add_spec. unfold SF64add.
  destruct (key prec emax (Prim2SF d)) as [a|] eqn:Ea.
  2:{ by destruct (Prim2SF d). }
  specialize (Hd a eq_refl). split; [done|].
  destruct (notNegative_shape d a Ea Hd)
    as [(s & -> & ->)|[(-> & ->)|(m & ex & -> & Hb & ->)]].
  - intros b Hb. destruct (Prim2SF e) as [s'|s'| |s' m' e'] eqn:Ee;
      cbn [SFadd] in Hb.
    + destruct s, s'; cbn [key] in Hb; by injection Hb as <-.
    + by apply (He b).
    + done.
    + by apply (He b).
  - intros b Hb. destruct (Prim2SF e) as [s'|s'| |s' m' e'] eqn:Ee;
      cbn [SFadd] in Hb.
    + cbn [key cond_Zopp] in Hb. injection Hb as <-. lia.
    + destruct s'; cbn [key cond_Zopp] in Hb; [done|].
      injection Hb as <-. lia.
    + done.
    + cbn [key cond_Zopp] in Hb. injection Hb as <-. lia.
  - intros b Hb'.
    pose proof (Prim2SF_valid e) as Hv.
    destruct (Prim2SF e) as [s'|s'| |s' m' e'] eqn:Ee.
    + cbn [SFadd key cond_Zopp] in Hb'. injection Hb' as <-. lia.
    + assert (s' = false) as ->.
      { destruct s'; [|done]. specialize (He _ eq_refl).
        cbn [cond_Zopp] in He.
        assert (0 < 2 ^ (emax - emin))%Z by reflexivity. lia. }
      cbn [SFadd key cond_Zopp] in Hb'. injection Hb' as <-.
      pose proof (scaled_lt_infinity prec emax eq_refl m ex Hb). lia.
    + done.
    + assert (s' = false) as ->.
      { destruct s'; [|done]. specialize (He _ eq_refl).
        cbn [cond_Zopp] in He.
        pose proof (scaled_pos prec emax m' e'
                      (proj1 (bounded_inv prec emax m' e' Hv))). lia. }
      rewrite (SFadd_key prec emax eq_refl eq_refl) in Hb' by done.
      injection Hb' as <-.
      rewrite <- (roundKey_scaled prec emax eq_refl m ex Hb) at 1.
      pose proof (scaled_pos prec emax m ex
                    (proj1 (bounded_inv prec emax m ex Hb))).
      pose proof (scaled_pos prec emax m' e'
                    (proj1 (bounded_inv prec emax m' e' Hv))).
      apply roundKey_mono; [reflexivity | lia | lia].
Qed.

Lemma sqrt_notNegative (x : float) : notNegative (sqrt x).
Proof.
  unfold notNegative, rank. rewrite sqrt_spec. intros a Ha.
  destruct (SFsqrt_nonneg prec emax (Prim2SF x))
    as [Hnone|(c & Hc & Hpos)]; unfold SF64sqrt in *; congruence.
Qed.

(** [0 / T] for a positive [T]. *)
Lemma zero_div (T : float) : (0 <? T) = true -> 0 / T = 0.
Proof.
  intros HT. apply Prim2SF_inj. rewrite div_spec.
  change (Prim2SF 0) with (S754_zero false). unfold SF64div.
  by destruct (positive_shape T HT) as [->|(m & e & -> & _)].
Qed.

(** The key of a quotient by a positive float. *)
Lemma div_rank (d T : float) (a : Z) :
  rank d = Some a -> (0 <= a)%Z -> (0 <? T) = true ->
  (Prim2SF T = S754_infinity false /\
   (rank (d / T) = None \/ rank (d / T) = Some 0%Z)) \/
  (exists t, rank T = Some t /\ (0 < t < 2 ^ (emax - emin))%Z /\
     rank (d / T) =
       Some (if (a =? 0)%Z then 0
             else if (a =? 2 ^ (emax - emin))%Z then 2 ^ (emax - emin)
             else roundKey prec emax (a * 2 ^ (- emin)) t)%Z).
Proof.
  intros Ha Hpos HT.
  assert (0 < 2 ^ (emax - emin))%Z as Hinf by reflexivity.
  unfold rank at 1 2 4. rewrite div_spec. unfold SF64div.
  destruct (positive_shape T HT) as [ET|(mt & et & ET & Hbt)].
  - left. split; [done|]. rewrite ET.
    destruct (notNegative_shape d a Ha Hpos)
      as [(s & -> & ->)|[(-> & ->)|(m & ex & -> & Hb & ->)]];
      cbn [SFdiv key]; by eauto.
  - right. exists (scaled prec emax mt et).
    pose proof (scaled_pos prec emax mt et
                  (proj1 (bounded_inv prec emax mt et Hbt))).
    pose proof (scaled_lt_infinity prec emax eq_refl mt et Hbt).
    unfold rank. rewrite ET. cbn [key cond_Zopp].
    split; [done|]. split; [lia|].
    destruct (notNegative_shape d a Ha Hpos)
      as [(s & -> & ->)|[(-> & ->)|(m & ex & -> & Hb & ->)]].
    + by cbn [SFdiv key].
    + cbn [SFdiv key xorb cond_Zopp]. reflexivity.
    + rewrite (SFdiv_key prec emax eq_refl eq_refl) by done.
      pose proof (scaled_pos prec emax m ex
                    (proj1 (bounded_inv prec emax m ex Hb))).
      pose proof (scaled_lt_infinity prec emax eq_refl m ex Hb).
      f_equal.
      destruct (Z.eqb_spec (scaled prec emax m ex) 0); [lia|].
      destruct (Z.eqb_spec (scaled prec emax m ex) (2 ^ (emax - emin)));
        [lia|]. reflexivity.
Qed.

(** Dividing by the same positive number keeps the order. *)
Lemma div_notBelow (d1 d2 T : float) (a1 a2 : Z) :
  rank d1 = Some a1 -> rank d2 = Some a2 -> (0 <= a1 <= a2)%Z ->
  (0 <? T) = true ->
  (d2 / T <? d1 / T) = false.
Proof.
  intros H1 H2 [Hpos Hle] HT.
  assert (0 < 2 ^ (emax - emin))%Z as Hinf by reflexivity.
  pose proof (rank_le_infinity d1 a1 H1) as Hi1.
  pose proof (rank_le_infinity d2 a2 H2) as Hi2.
  rewrite ltb_rank.
  destruct (div_rank d1 T a1 H1 Hpos HT) as [(_ & Hr1)|(t & Ht & Htb & Hr1)],
           (div_rank d2 T a2 H2 ltac:(lia) HT)
             as [(ET & Hr2)|(t' & Ht' & Htb' & Hr2)].
  - destruct Hr1 as [E1|E1], Hr2 as [E2|E2]; rewrite E1, E2; reflexivity.
  - destruct Hr1 as [E1|E1]; rewrite E1; [by destruct (rank (d2 / T))|].
    rewrite Hr2. apply Z.ltb_ge.
    destruct (Z.eqb_spec a2 0); [lia|].
    destruct (Z.eqb_spec a2 (2 ^ (emax - emin))); [lia|].
    apply (roundKey_nonneg prec emax eq_refl); [|lia|done].
    pose proof (Z.pow_pos_nonneg 2 (- emin) ltac:(lia) ltac:(done)). nia.
  - unfold rank in Ht. rewrite ET in Ht. cbn in Ht. injection Ht as <-. lia.
  - rewrite Ht in Ht'. injection Ht' as <-. rewrite Hr1, Hr2.
    apply Z.ltb_ge.
    pose proof (Z.pow_pos_nonneg 2 (- emin) ltac:(lia) ltac:(done)) as Hp.
    destruct (Z.eqb_spec a1 0), (Z.eqb_spec a2 0); try lia.
    + destruct (Z.eqb_spec a2 (2 ^ (emax - emin))); [lia|].
      apply (roundKey_nonneg prec emax eq_refl); [nia | lia | done].
    + destruct (Z.eqb_spec a1 (2 ^ (emax - emin))),
               (Z.eqb_spec a2 (2 ^ (emax - emin))); try lia.
      * apply roundKey_le_infinity.
      * apply (roundKey_mono prec emax eq_refl); [nia | lia].
Qed.

Lemma rank_zero : rank 0 = Some 0%Z.
Proof. reflexivity. Qed.

Lemma rank_one : rank 1 = Some (2 ^ (- emin))%Z.
Proof. vm_compute. reflexivity. Qed.

Lemma roundKey_one :
  roundKey prec emax (2 ^ (- emin)) 1 = (2 ^ (- emin))%Z.
Proof. vm_compute. reflexivity. Qed.

(** A quotient by a positive number that is not smaller is at most one. *)
Lemma div_le_one (d T : float) :
  notBelow d T -> (0 <? T) = true -> (1 <? d / T) = false.
Proof.
  intros Hd HT. rewrite ltb_rank, rank_one.
  assert (exists t, rank T = Some t) as [t Ht].
  { rewrite ltb_rank, rank_zero in HT. destruct (rank T); [eauto | done]. }
  unfold notBelow in Hd. destruct (rank d) as [a|] eqn:Ea; [|congruence].
  destruct Hd as [Hpos Hle]. specialize (Hle t Ht).
  assert (0 < 2 ^ (- emin))%Z as HW by reflexivity.
  destruct (div_rank d T a Ea Hpos HT) as [(_ & [->| ->])|(t' & Ht' & Htb & ->)];
    [done | apply Z.ltb_ge; lia |].
  rewrite Ht in Ht'. injection Ht' as <-. apply Z.ltb_ge.
  destruct (Z.eqb_spec a 0); [lia|].
  destruct (Z.eqb_spec a (2 ^ (emax - emin))); [lia|].
  rewrite <- roundKey_one at 2.
  apply roundKey_mono_frac; try reflexivity; try lia; nia.
Qed.

Lemma eqb_zero_not_positive (T : float) : (T =? 0) = true -> (0 <? T) = false.
Proof.
  rewrite eqb_rank, ltb_rank, rank_zero.
  destruct (rank T) as [t|]; [|done].
  rewrite Z.eqb_eq. intros ->. reflexivity.
Qed.

(** ** The parameters of a loop *)

Lemma distanceTo_notNegative (p q : Vector2.t) :
  notNegative (Vector2.distanceTo p q).
Proof. apply sqrt_notNegative. Qed.

Section Cumulative.
Import ParameterizedLoop.
Variable vs : list Vector2.t.
Variable n : nat.

Lemma accumulate_accumulated (acc : list float * float) (i : nat) :
  accumulated acc -> accumulated (accumulate vs n acc i).
Proof.
  intros (Hsorted & Hall & Hpos & Hhead). unfold accumulate.
  set (edgeLength := Vector2.distanceTo (vs !!! i) (vs !!! ((i + 1) mod n)%nat)).
  set (total := snd acc + edgeLength).
  assert (notBelow (snd acc) total) as Hstep
    by (apply add_notBelow; [done | apply distanceTo_notNegative]).
  assert (notNegative total) as Hpos' by (by eapply notBelow_notNegative).
  assert (Forall (fun d => notBelow d total) (fst acc)) as Hall'.
  { eapply Forall_impl; [exact Hall|]. intros d Hd.
    exact (notBelow_trans _ _ _ Hd Hstep). }
  destruct (i <? n - 1)%nat; unfold accumulated; cbn [fst snd].
  - split; [|split; [|split]]; try done.
    + apply StronglySorted_app_2; [|done | repeat constructor].
      intros x1 x2 Hx1 Hx2%list_elem_of_singleton. subst x2.
      rewrite Forall_forall in Hall'. by apply Hall'.
    + apply Forall_app. split; [done|].
      constructor; [by apply notBelow_refl | constructor].
    + destruct (fst acc); [done | done].
  - done.
Qed.

Lemma fold_accumulated (indices : list nat) (acc : list float * float) :
  accumulated acc -> accumulated (fold_left (accumulate vs n) indices acc).
Proof.
  revert acc. induction indices as [|i indices IH]; intros acc Hacc; [done|].
  simpl. apply IH. by apply accumulate_accumulated.
Qed.

Lemma fold_accumulate_length (k : nat) (acc : list float * float) :
  length (fst (fold_left (accumulate vs n) (seq 0 k) acc))
    = (length (fst acc) + k `min` (n - 1))%nat.
Proof.
  induction k as [|k IH]; [simpl; lia|].
  rewrite seq_S, fold_left_app. cbn [fold_left Nat.add].
  set (acc' := fold_left (accumulate vs n) (seq 0 k) acc) in *.
  unfold accumulate. cbn [fst].
  destruct (Nat.ltb_spec k (n - 1)).
  - rewrite length_app, IH. cbn [length]. lia.
  - rewrite IH. lia.
Qed.

End Cumulative.

Lemma cumulative_accumulated (vs : list Vector2.t) :
  accumulated (ParameterizedLoop.cumulative vs).
Proof.
  apply fold_accumulated. unfold accumulated. cbn [fst snd].
  split; [repeat constructor|]. split; [|split; [|done]].
  - constructor; [|constructor]. apply notBelow_refl. by intros a [= <-].
  - by intros a [= <-].
Qed.

Lemma cumulative_length (vs : list Vector2.t) :
  length (fst (ParameterizedLoop.cumulative vs)) = (1 `max` length vs)%nat.
Proof.
  unfold ParameterizedLoop.cumulative. rewrite fold_accumulate_length.
  simpl. lia.
Qed.

Lemma numberAt_map (f : float -> float) (ds : list float) (i : nat) (d : float) :
  ds !! i = Some d -> numberAt (map f ds) i = f d.
Proof.
  intros H. unfold numberAt.
  change (map f ds) with (f <$> ds). by rewrite list_lookup_fmap, H.
Qed.

Lemma StronglySorted_lookup {A : Type} (R : A -> A -> Prop) (l : list A)
    (i j : nat) (x y : A) :
  StronglySorted R l -> (i < j)%nat -> l !! i = Some x -> l !! j = Some y ->
  R x y.
Proof.
  intros Hs. revert i j. induction Hs as [|a l Hs IH Hall]; intros i j Hij Hi Hj.
  - by rewrite lookup_nil in Hi.
  - destruct j as [|j]; [lia|]. destruct i as [|i].
    + simpl in Hi, Hj. injection Hi as <-.
      rewrite Forall_forall in Hall. apply Hall.
      by eapply list_elem_of_lookup_2.
    + simpl in Hi, Hj. apply (IH i j); [lia | done | done].
Qed.

Section ParameterClaims.
Import ParameterizedLoop.

(** C5. For the loop built from any vertices: every vertex has its
    parameter; the parameters never go down in traversal order, and are in
    ascending order where they are numbers; none exceeds the wrap sentinel;
    the parameter at index 0 is exactly 0; [param(i)] is exactly 1 at the
    vertex count and beyond; and when the total length is 0 every vertex's
    parameter is 0. *)
Theorem ParameterizedLoop_params (vertices : list Vector2.t) :
  let l := ParameterizedLoop.new vertices in
  let n := count l in
  let p := numberAt (params l) in
  length (params l) = (1 `max` n)%nat /\
  (forall i j, (i <= j)%nat -> (j < length (params l))%nat ->
     (p j <? p i) = false /\
     (is_nan (p i) = false -> is_nan (p j) = false -> (p i <=? p j) = true)) /\
  (forall i, (i < length (params l))%nat -> (1 <? p i) = false) /\
  p 0%nat = 0 /\
  ((0 < n)%nat -> param l 0 = 0) /\
  param l n = 1 /\
  (forall i, (n <= i)%nat -> param l i = 1) /\
  ((totalLength l =? 0) = true -> forall i, (i < n)%nat -> param l i = 0).
Proof.
  intros l n p.
  pose proof (cumulative_accumulated (ensureWindingCCW vertices))
    as (Hsorted & Hall & Hpos & Hhead).
  pose proof (cumulative_length (ensureWindingCCW vertices)) as Hlen.
  assert (n = length (ensureWindingCCW vertices)) as Hn.
  { unfold n, l, count, new. by destruct (cumulative _). }
  assert (params l = map (normalize (totalLength l))
                       (fst (cumulative (ensureWindingCCW vertices)))
          /\ totalLength l = snd (cumulative (ensureWindingCCW vertices)))
    as [Hparams Htotal].
  { unfold l, new. by destruct (cumulative _). }
  set (distances := fst (cumulative (ensureWindingCCW vertices))) in *.
  rewrite <- Htotal in Hall, Hpos. set (T := totalLength l) in *.
  assert (length (params l) = length distances) as Hlp
    by (by rewrite Hparams, length_map).
  assert (forall i d, distances !! i = Some d -> p i = normalize T d) as Hp.
  { intros i d Hd. unfold p. rewrite Hparams. by apply numberAt_map. }
  assert (forall i, (i < length (params l))%nat ->
            exists d, distances !! i = Some d /\ notBelow d T) as Hget.
  { intros i Hi. destruct (lookup_lt_is_Some_2 distances i) as [d Hd]; [lia|].
    exists d. split; [done|]. rewrite Forall_forall in Hall. apply Hall.
    by eapply list_elem_of_lookup_2. }
  assert (forall i j, (i <= j)%nat -> (j < length (params l))%nat ->
            (p j <? p i) = false) as Hmono.
  { intros i j Hij Hj.
    destruct (Hget i ltac:(lia)) as (di & Hdi & HdiT).
    destruct (Hget j Hj) as (dj & Hdj & HdjT).
    rewrite (Hp i di Hdi), (Hp j dj Hdj). unfold normalize.
    destruct (0 <? T) eqn:HT; [|reflexivity].
    assert (exists t, rank T = Some t) as [t Ht].
    { rewrite ltb_rank, rank_zero in HT. destruct (rank T); [eauto | done]. }
    destruct (decide (i = j)) as [->|Hne].
    { rewrite Hdi in Hdj. injection Hdj as <-. apply ltb_irrefl. }
    pose proof (StronglySorted_lookup notBelow distances i j di dj Hsorted
                  ltac:(lia) Hdi Hdj) as Hdij.
    unfold notBelow in HdiT, HdjT, Hdij.
    destruct (rank di) as [ai|] eqn:Eai; [|congruence].
    destruct (rank dj) as [aj|] eqn:Eaj; [|congruence].
    destruct Hdij as [Hai Hle]. specialize (Hle aj eq_refl).
    by apply (div_notBelow di dj T ai aj). }
  split; [|split; [|split; [|split; [|split; [|split; [|split]]]]]].
  - rewrite Hlp, Hn. exact Hlen.
  - intros i j Hij Hj. split; [by apply Hmono|].
    intros Hni Hnj. apply not_ltb_leb; [by apply is_nan_rank..|].
    by apply Hmono.
  - intros i Hi. destruct (Hget i Hi) as (d & Hd & HdT).
    rewrite (Hp i d Hd). unfold normalize.
    destruct (0 <? T) eqn:HT; [by apply div_le_one | reflexivity].
  - assert (distances !! 0%nat = Some 0) as H0.
    { destruct distances; [done|]. simpl in *. congruence. }
    rewrite (Hp 0%nat 0 H0). unfold normalize.
    destruct (0 <? T) eqn:HT; [by apply zero_div | reflexivity].
  - intros Hpos'. unfold param. fold n.
    destruct (Nat.leb_spec n 0); [lia|].
    assert (distances !! 0%nat = Some 0) as H0.
    { destruct distances; [done|]. simpl in *. congruence. }
    fold p. rewrite (Hp 0%nat 0 H0). unfold normalize.
    destruct (0 <? T) eqn:HT; [by apply zero_div | reflexivity].
  - unfold param. fold n. by rewrite Nat.leb_refl.
  - intros i Hi. unfold param. fold n.
    by destruct (Nat.leb_spec n i); [|lia].
  - intros Hzero i Hi. unfold param. fold n.
    destruct (Nat.leb_spec n i); [lia|]. fold p.
    destruct (Hget i ltac:(rewrite Hlp, Hlen; lia)) as (d & Hd & _).
    rewrite (Hp i d Hd). unfold normalize.
    by rewrite (eqb_zero_not_positive T Hzero).
Qed.

End ParameterClaims.

(** ** Winding normalizer and loop construction *)

Lemma ensureWindingCCW_cases (vs : list Vector2.t) :
  ensureWindingCCW vs = vs \/ ensureWindingCCW vs = reverse vs.
Proof.
  unfold ensureWindingCCW.
  destruct (length vs <? 3)%nat; [by left|].
  destruct (signedArea vs <? 0); [by right | by left].
Qed.

Lemma length_ensureWindingCCW (vs : list Vector2.t) :
  length (ensureWindingCCW vs) = length vs.
Proof.
  destruct (ensureWindingCCW_cases vs) as [-> | ->]; [done|].
  apply length_reverse.
Qed.

Lemma ensureWindingCCW_perm (vs : list Vector2.t) :
  ensureWindingCCW vs ≡ₚ vs.
Proof.
  destruct (ensureWindingCCW_cases vs) as [-> | ->]; [done|].
  apply reverse_Permutation.
Qed.

Lemma count_new (vs : list Vector2.t) :
  ParameterizedLoop.count (ParameterizedLoop.new vs) = length vs.
Proof.
  unfold ParameterizedLoop.count, ParameterizedLoop.new.
  destruct (ParameterizedLoop.cumulative _) as [distances total]; simpl.
  apply length_ensureWindingCCW.
Qed.


Lemma vertex_is_Some (l : ParameterizedLoop.t) (i : nat) :
  (0 < ParameterizedLoop.count l)%nat ->
  is_Some (ParameterizedLoop.vertex l i).
Proof.
  intros Hn. unfold ParameterizedLoop.vertex.
  destruct (Nat.eqb_spec (ParameterizedLoop.count l) 0) as [E|_]; [lia|].
  apply lookup_lt_is_Some. fold (ParameterizedLoop.count l).
  apply Nat.mod_upper_bound. lia.
Qed.

Lemma vertex_empty (l : ParameterizedLoop.t) (i : nat) :
  ParameterizedLoop.count l = 0%nat -> ParameterizedLoop.vertex l i = None.
Proof. intros E. unfold ParameterizedLoop.vertex. by rewrite E. Qed.

Lemma interpolate_is_Some (l : ParameterizedLoop.t) (i : nat) (t : float) :
  (0 < ParameterizedLoop.count l)%nat ->
  is_Some (ParameterizedLoop.interpolate l i t).
Proof.
  intros Hn. unfold ParameterizedLoop.interpolate.
  destruct (vertex_is_Some l i Hn) as [v0 ->].
  destruct (vertex_is_Some l (i + 1) Hn) as [v1 ->]. simpl.
  match goal with |- context [if ?c then _ else _] => destruct c end; eauto.
Qed.

Lemma point_is_Some (l : ParameterizedLoop.t) (c : Walk.Corner) :
  (0 < ParameterizedLoop.count l)%nat -> is_Some (Walk.point l c).
Proof.
  intros Hn. destruct c; simpl;
    [by apply vertex_is_Some | by apply interpolate_is_Some].
Qed.

(** ** One turn of the walk *)

Lemma advance_cursors (s : Walk.Step) :
  Walk.advance s =
    ((Walk.step_iA s + if Walk.advancesA s then 1 else 0)%nat,
     (Walk.step_iB s + if Walk.advancesB s then 1 else 0)%nat).
Proof.
  unfold Walk.advance, Walk.advancesA, Walk.advancesB.
  destruct (Walk.step_branch s); f_equal; lia.
Qed.

Lemma advances_some (s : Walk.Step) : Walk.advancesA s || Walk.advancesB s = true.
Proof. unfold Walk.advancesA, Walk.advancesB. by destruct (Walk.step_branch s). Qed.

Lemma filter_cover {T : Type} (f g : T -> bool) (l : list T) :
  (forall x, f x || g x = true) ->
  (length l <= length (List.filter f l) + length (List.filter g l))%nat.
Proof.
  intros Hfg. induction l as [|x l IH]; simpl; [lia|].
  specialize (Hfg x). destruct (f x), (g x); simpl in *; try discriminate; lia.
Qed.

Section WalkFacts.
Import Walk.
Variables loopA loopB : ParameterizedLoop.t.

Let nA := ParameterizedLoop.count loopA.
Let nB := ParameterizedLoop.count loopB.

Lemma face_is_Some (b : FaceBuilder.t) (q : Quad) :
  (0 < nA)%nat -> (0 < nB)%nat -> is_Some (face loopA loopB b q).
Proof.
  intros HA HB. unfold face.
  destruct (point_is_Some loopA (quad_a0 q) HA) as [? ->].
  destruct (point_is_Some loopA (quad_a1 q) HA) as [? ->].
  destruct (point_is_Some loopB (quad_b0 q) HB) as [? ->].
  destruct (point_is_Some loopB (quad_b1 q) HB) as [? ->].
  simpl. eauto.
Qed.

(** The loop body pushes the face of the arm's corners and moves the
    cursors as the arm says; it raises exactly when that face cannot be
    built. *)
Lemma iteration_face (st : State) :
  let s := stepAt loopA loopB (iA st) (iB st) in
  iteration loopA loopB st =
    f ← face loopA loopB (builder st) (corners loopA loopB s);
    Some (mkState (fst (advance s)) (snd (advance s))
            (FaceBuilder.push (builder st) f)).
Proof.
  unfold iteration, face, corners, advance, stepAt; simpl.
  destruct (branch loopA loopB (iA st) (iB st)); simpl;
    repeat match goal with
    | |- context [ParameterizedLoop.vertex ?l ?i] =>
        destruct (ParameterizedLoop.vertex l i); simpl; try reflexivity
    | |- context [ParameterizedLoop.interpolate ?l ?i ?t] =>
        destruct (ParameterizedLoop.interpolate l i t); simpl; try reflexivity
    end.
Qed.

(** A cursor is only moved while it is below its bound. *)
Lemma advance_bounds (iA iB : nat) :
  running loopA loopB iA iB = true ->
  let s := stepAt loopA loopB iA iB in
  (advancesA s = true -> (iA < nA)%nat) /\
  (advancesB s = true -> (iB < nB)%nat).
Proof.
  unfold running, stepAt, advancesA, advancesB, branch; simpl.
  fold nA nB. intros Hrun.
  destruct (Nat.leb_spec nA iA), (Nat.leb_spec nB iB);
    repeat match goal with
    | |- context [if ?c then _ else _] => destruct c
    end; simpl; split; intros; try lia; try discriminate.
  all: apply orb_true_iff in Hrun as [Hr|Hr]; apply Nat.ltb_lt in Hr; lia.
Qed.

Lemma face_push (b : FaceBuilder.t) (f : LoftFace) (q : Quad) :
  face loopA loopB (FaceBuilder.push b f) q = face loopA loopB b q.
Proof. reflexivity. Qed.

(** The cursors from which A (and B) is advanced are, in order, every index
    from the current one up to the bound. *)
Lemma trace_advances (fuel iA iB : nat) :
  (iA <= nA)%nat -> (iB <= nB)%nat -> ((nA - iA) + (nB - iB) <= fuel)%nat ->
  map step_iA (List.filter advancesA (trace loopA loopB fuel iA iB))
    = seq iA (nA - iA) /\
  map step_iB (List.filter advancesB (trace loopA loopB fuel iA iB))
    = seq iB (nB - iB).
Proof.
  revert iA iB. induction fuel as [|fuel IH]; intros iA iB HA HB Hfuel.
  - assert (iA = nA /\ iB = nB) as [-> ->] by lia.
    unfold trace, running. fold nA nB.
    rewrite !Nat.ltb_irrefl, !Nat.sub_diag. by simpl.
  - simpl. destruct (running loopA loopB iA iB) eqn:Hrun.
    + pose proof (advance_bounds iA iB Hrun) as [HbA HbB].
      pose proof (advances_some (stepAt loopA loopB iA iB)) as Hsome.
      rewrite advance_cursors. simpl.
      set (s := stepAt loopA loopB iA iB) in *.
      destruct (advancesA s) eqn:EA, (advancesB s) eqn:EB;
        try discriminate; simpl.
      * specialize (HbA eq_refl). specialize (HbB eq_refl).
        destruct (IH (iA + 1)%nat (iB + 1)%nat) as [IHA IHB]; try lia.
        rewrite IHA, IHB. split.
        -- replace (nA - iA)%nat with (S (nA - (iA + 1))) by lia.
           simpl. do 2 f_equal. lia.
        -- replace (nB - iB)%nat with (S (nB - (iB + 1))) by lia.
           simpl. do 2 f_equal. lia.
      * specialize (HbA eq_refl).
        destruct (IH (iA + 1)%nat (iB + 0)%nat) as [IHA IHB]; try lia.
        rewrite IHA, IHB. split.
        -- replace (nA - iA)%nat with (S (nA - (iA + 1))) by lia.
           simpl. do 2 f_equal. lia.
        -- f_equal; lia.
      * specialize (HbB eq_refl).
        destruct (IH (iA + 0)%nat (iB + 1)%nat) as [IHA IHB]; try lia.
        rewrite IHA, IHB. split.
        -- f_equal; lia.
        -- replace (nB - iB)%nat with (S (nB - (iB + 1))) by lia.
           simpl. do 2 f_equal. lia.
    + unfold running in Hrun. fold nA nB in Hrun.
      apply orb_false_iff in Hrun as [H1 H2].
      apply Nat.ltb_ge in H1, H2.
      replace (nA - iA)%nat with 0%nat by lia.
      replace (nB - iB)%nat with 0%nat by lia. by simpl.
Qed.

Lemma trace_length (fuel iA iB : nat) :
  (iA <= nA)%nat -> (iB <= nB)%nat -> ((nA - iA) + (nB - iB) <= fuel)%nat ->
  let k := length (trace loopA loopB fuel iA iB) in
  (nA - iA <= k)%nat /\ (nB - iB <= k)%nat /\ (k <= (nA - iA) + (nB - iB))%nat.
Proof.
  intros HA HB Hfuel k.
  destruct (trace_advances fuel iA iB HA HB Hfuel) as [EA EB].
  apply (f_equal length) in EA, EB.
  rewrite length_map, length_seq in EA, EB.
  pose proof (List.filter_length_le advancesA (trace loopA loopB fuel iA iB)).
  pose proof (List.filter_length_le advancesB (trace loopA loopB fuel iA iB)).
  pose proof (filter_cover advancesA advancesB
                (trace loopA loopB fuel iA iB) advances_some).
  subst k. lia.
Qed.


(** With fuel for every remaining vertex the loop returns, having pushed one
    face for each entry of the trace. *)
Lemma loop_returns (fuel : nat) (st : State) :
  (0 < nA)%nat -> (0 < nB)%nat ->
  (iA st <= nA)%nat -> (iB st <= nB)%nat ->
  ((nA - iA st) + (nB - iB st) <= fuel)%nat ->
  exists fs,
    loop loopA loopB fuel st =
      Returned (mkState nA nB
                  (FaceBuilder.mk (FaceBuilder.faces (builder st) ++ fs)
                     (FaceBuilder.heightA (builder st))
                     (FaceBuilder.heightB (builder st)))) /\
    Forall2 (fun s f => face loopA loopB (builder st) (corners loopA loopB s) = Some f)
      (trace loopA loopB fuel (iA st) (iB st)) fs.
Proof.
  intros HnA HnB. revert st.
  induction fuel as [|fuel IH]; intros [iA iB b] HA HB Hfuel; simpl in *.
  - assert (iA = nA /\ iB = nB) as [-> ->] by lia.
    unfold running. fold nA nB. rewrite !Nat.ltb_irrefl. simpl.
    exists []. rewrite app_nil_r. split; [by destruct b | constructor].
  - destruct (running loopA loopB iA iB) eqn:Hrun.
    + pose proof (advance_bounds iA iB Hrun) as [HbA HbB].
      rewrite iteration_face. simpl.
      set (s := stepAt loopA loopB iA iB) in *.
      destruct (face_is_Some b (corners loopA loopB s) HnA HnB) as [f Hf].
      rewrite Hf. simpl.
      pose proof (advances_some s) as Hsome.
      pose proof (advance_cursors s) as Hadv. simpl in Hadv.
      destruct (IH (mkState (fst (advance s)) (snd (advance s))
                      (FaceBuilder.push b f))) as (fs & Hloop & Htr).
      { rewrite Hadv. simpl. destruct (advancesA s); [specialize (HbA eq_refl)|]; lia. }
      { rewrite Hadv. simpl. destruct (advancesB s); [specialize (HbB eq_refl)|]; lia. }
      { rewrite Hadv. simpl.
        destruct (advancesA s), (advancesB s); try discriminate;
          try specialize (HbA eq_refl); try specialize (HbB eq_refl); lia. }
      exists (f :: fs). simpl in Hloop, Htr. rewrite Hloop. split.
      * by rewrite <- app_assoc.
      * constructor; [exact Hf | exact Htr].
    + unfold running in Hrun. fold nA nB in Hrun.
      apply orb_false_iff in Hrun as [H1 H2].
      apply Nat.ltb_ge in H1, H2.
      assert (iA = nA /\ iB = nB) as [-> ->] by lia.
      exists []. rewrite app_nil_r. split; [by destruct b | constructor].
Qed.

Lemma face_quad (b : FaceBuilder.t) (q : Quad) (f : LoftFace) :
  face loopA loopB b q = Some f -> length (face_vertices f) = 4%nat.
Proof.
  unfold face. intros H.
  destruct (point loopA (quad_a0 q)); simpl in H; [|discriminate].
  destruct (point loopA (quad_a1 q)); simpl in H; [|discriminate].
  destruct (point loopB (quad_b0 q)); simpl in H; [|discriminate].
  destruct (point loopB (quad_b1 q)); simpl in H; [|discriminate].
  by injection H as <-.
Qed.

(** A loop that has not run out of fuel does the same with more. *)
Lemma loop_fuel_mono (fuel fuel' : nat) (st : State) :
  (fuel <= fuel')%nat ->
  loop loopA loopB fuel st <> OutOfFuel ->
  loop loopA loopB fuel' st = loop loopA loopB fuel st.
Proof.
  revert fuel' st. induction fuel as [|fuel IH]; intros fuel' st Hle Hne.
  - destruct fuel'; [done|]. simpl in *.
    destruct (running loopA loopB (iA st) (iB st)); [done|done].
  - destruct fuel' as [|fuel']; [lia|]. simpl in *.
    destruct (running loopA loopB (iA st) (iB st)); [|done].
    destruct (iteration loopA loopB st) as [st'|]; [|done].
    apply IH; [lia | done].
Qed.

(** The loop never needs more turns than there are vertices left, whatever
    the loops: on an empty loop it raises instead. *)
Lemma loop_enough_fuel (fuel : nat) (st : State) :
  (iA st <= nA)%nat -> (iB st <= nB)%nat ->
  ((nA - iA st) + (nB - iB st) <= fuel)%nat ->
  loop loopA loopB fuel st <> OutOfFuel.
Proof.
  revert st. induction fuel as [|fuel IH]; intros [iA iB b] HA HB Hfuel; simpl in *.
  - assert (iA = nA /\ iB = nB) as [-> ->] by lia.
    unfold running. fold nA nB. by rewrite !Nat.ltb_irrefl.
  - destruct (running loopA loopB iA iB) eqn:Hrun; [|done].
    pose proof (advance_bounds iA iB Hrun) as [HbA HbB].
    rewrite iteration_face. simpl.
    set (s := stepAt loopA loopB iA iB) in *.
    destruct (face loopA loopB b (corners loopA loopB s)) as [f|]; [|done].
    simpl. pose proof (advances_some s) as Hsome.
    pose proof (advance_cursors s) as Hadv. simpl in Hadv.
    apply IH; simpl; rewrite Hadv; simpl;
      destruct (advancesA s), (advancesB s); try discriminate;
      try specialize (HbA eq_refl); try specialize (HbB eq_refl); lia.
Qed.

End WalkFacts.

(** ** Alignment *)

Lemma length_rotateArray {T : Type} (arr : list T) (k : nat) :
  length (rotateArray arr k) = length arr.
Proof.
  unfold rotateArray. destruct (_ || _); [done|].
  rewrite length_app, length_drop, length_take. lia.
Qed.

Lemma rotateArray_perm {T : Type} (arr : list T) (k : nat) :
  rotateArray arr k ≡ₚ arr.
Proof.
  unfold rotateArray. destruct (_ || _); [done|].
  rewrite Permutation_app_comm. by rewrite take_drop.
Qed.

Lemma alignLoopStarts_is_Some (loopA loopB : list Vector2.t) :
  (0 < length loopA)%nat ->
  exists k, findClosestVertexIndex loopA loopB = Some k /\
            alignLoopStarts loopA loopB = Some (rotateArray loopB k).
Proof.
  intros HA. unfold alignLoopStarts, findClosestVertexIndex.
  destruct loopA as [|target loopA]; [simpl in HA; lia|]. simpl.
  eauto.
Qed.

Section Closest.
Variable target : Vector2.t.
Variable loopB : list Vector2.t.

Abbreviation dist := (distanceFrom target loopB).

(** After [n] turns of the loop of [findClosestVertexIndex], no vertex seen
    is closer than [bestDist], which is still [Infinity] or the distance of
    vertex [bestIndex], the first at that distance. *)
Lemma closest_invariant (n : nat) :
  let best := fold_left (closer target loopB) (seq 0 n) (0%nat, infinity) in
  (forall j, (j < n)%nat -> (dist j <? snd best) = false) /\
  ((snd best = infinity /\ fst best = 0%nat) \/
   ((fst best < n)%nat /\ snd best = dist (fst best) /\
    forall j, (j < fst best)%nat ->
              (dist j =? dist (fst best)) = false)).
Proof.
  induction n as [|n IH]; [simpl; split; [intros; lia | by left]|].
  rewrite seq_S, fold_left_app. simpl.
  destruct IH as [Hnone Hbest].
  set (best := fold_left (closer target loopB) (seq 0 n) (0%nat, infinity)) in *.
  assert (closer target loopB best n =
            if dist n <? snd best then (n, dist n) else best)
    as -> by reflexivity.
  destruct (dist n <? snd best) eqn:Hlt; simpl.
  - split.
    + intros j Hj. destruct (decide (j = n)) as [->|Hne].
      * apply ltb_irrefl.
      * destruct (dist j <? dist n) eqn:E; [|done].
        rewrite <- (Hnone j) by lia. symmetry. by eapply ltb_trans.
    + right. split; [lia|]. split; [done|].
      intros j Hj.
      destruct (dist j =? dist n) eqn:E; [|done].
      rewrite <- (Hnone j) by lia. symmetry. by eapply eqb_ltb_trans.
  - split.
    + intros j Hj. destruct (decide (j = n)) as [->|Hne]; [done|].
      apply Hnone. lia.
    + destruct Hbest as [?|(? & ? & ?)]; [by left | right].
      split; [lia | done].
Qed.

End Closest.

Lemma rotateArray_lookup {T : Type} (arr : list T) (k i : nat) :
  (k < length arr)%nat -> (i < length arr)%nat ->
  rotateArray arr k !! i = arr !! ((k + i) mod length arr)%nat.
Proof.
  intros Hk Hi. unfold rotateArray.
  destruct (Nat.eqb_spec k 0) as [->|Hk0]; simpl.
  { by rewrite Nat.mod_small. }
  destruct (Nat.eqb_spec (length arr) 0) as [E|_]; [lia|].
  destruct (Nat.lt_ge_cases (k + i) (length arr)) as [Hlt|Hge].
  - rewrite lookup_app_l by (rewrite length_drop; lia).
    rewrite lookup_drop. by rewrite Nat.mod_small.
  - rewrite lookup_app_r by (rewrite length_drop; lia).
    rewrite length_drop, lookup_take_lt by lia.
    f_equal.
    replace (k + i)%nat with ((i - (length arr - k)) + 1 * length arr)%nat
      by lia.
    rewrite Nat.Div0.mod_add. rewrite Nat.mod_small; lia.
Qed.

(** C6. For non-empty loops, [findClosestVertexIndex] returns an index [k]
    of [loopB] such that no vertex of [loopB] is closer to [loopA]'s vertex 0
    than vertex [k], by the distance [distanceTo] computes, and no vertex
    before [k] is at the same distance: the lowest index among ties.  When
    no distance is [NaN], vertex [k]'s is at most every other.
    [alignLoopStarts] returns [loopB] rotated to start at [k]: the vertex at
    index [i] of the result is the vertex at index [(k + i) mod n] of
    [loopB]. *)
Theorem findClosestVertexIndex_closest (loopA loopB : list Vector2.t) :
  loopA <> [] -> loopB <> [] ->
  let dist := distanceFrom (loopA !!! 0%nat) loopB in
  exists k,
    findClosestVertexIndex loopA loopB = Some k /\
    (k < length loopB)%nat /\
    (forall j, (j < length loopB)%nat -> (dist j <? dist k) = false) /\
    (forall j, (j < k)%nat -> (dist j =? dist k) = false) /\
    ((forall j, (j < length loopB)%nat -> is_nan (dist j) = false) ->
     forall j, (j < length loopB)%nat -> (dist k <=? dist j) = true) /\
    alignLoopStarts loopA loopB = Some (rotateArray loopB k) /\
    rotateArray loopB k !! 0%nat = loopB !! k /\
    length (rotateArray loopB k) = length loopB /\
    (forall i, (i < length loopB)%nat ->
       rotateArray loopB k !! i = loopB !! ((k + i) mod length loopB)%nat).
Proof.
  intros HA HB dist.
  destruct loopA as [|target loopA]; [done|]. clear HA.
  assert (0 < length loopB)%nat as Hlen by (destruct loopB; [done | simpl; lia]).
  change ((target :: loopA) !!! 0%nat) with target in dist.
  pose proof (closest_invariant target loopB (length loopB)) as Hinv.
  simpl in Hinv. destruct Hinv as [Hnone Hbest]. fold dist in Hnone, Hbest.
  set (best := fold_left (closer target loopB) (seq 0 (length loopB))
                 (0%nat, infinity)) in *.
  assert (findClosestVertexIndex (target :: loopA) loopB = Some (fst best))
    as Hfind by reflexivity.
  assert (fst best < length loopB)%nat as Hk.
  { destruct Hbest as [[_ ->]|[? _]]; lia. }
  assert (forall j, (j < length loopB)%nat ->
                    (dist j <? dist (fst best)) = false) as Hmin.
  { intros j Hj. destruct Hbest as [[Hinf H0]|(_ & Hd & _)].
    - rewrite Hinf in Hnone. apply not_ltb_infinity; apply Hnone; lia.
    - rewrite <- Hd. by apply Hnone. }
  exists (fst best). split; [exact Hfind|]. split; [exact Hk|].
  split; [exact Hmin|]. split; [|split; [|split; [|split; [|split]]]].
  - intros j Hj. destruct Hbest as [[_ H0]|(_ & _ & Hties)]; [lia|].
    by apply Hties.
  - intros Hnum j Hj.
    apply not_ltb_leb; [apply is_nan_rank, Hnum; lia
                       | apply is_nan_rank, Hnum; lia | by apply Hmin].
  - unfold alignLoopStarts. by rewrite Hfind.
  - rewrite rotateArray_lookup by lia.
    by rewrite Nat.add_0_r, Nat.mod_small.
  - apply length_rotateArray.
  - intros i Hi. by apply rotateArray_lookup.
Qed.

Lemma findClosestVertexIndex_closest_witness :
  exists k,
    findClosestVertexIndex Examples.square
      [Vector2.mk 2 2; Vector2.mk 0 2; Vector2.mk 0 0; Vector2.mk 2 0]
      = Some k /\
    (k < 4)%nat.
Proof.
  destruct (findClosestVertexIndex_closest Examples.square
              [Vector2.mk 2 2; Vector2.mk 0 2; Vector2.mk 0 0; Vector2.mk 2 0])
    as (k & Hfind & Hk & _); [done | done |].
  exists k. split; [exact Hfind | exact Hk].
Defined.

(** ** The entry point on loops of three vertices or more *)

Lemma perimeterWalkAlgorithm_walk (loopA : list Vector2.t) (heightA : float)
    (loopB : list Vector2.t) (heightB : float) :
  (3 <= length loopA)%nat -> (3 <= length loopB)%nat ->
  exists alignedB fs,
    alignLoopStarts (ensureWindingCCW loopA) (ensureWindingCCW loopB)
      = Some alignedB /\
    alignedB ≡ₚ loopB /\
    let paramA := ParameterizedLoop.new (ensureWindingCCW loopA) in
    let paramB := ParameterizedLoop.new alignedB in
    ParameterizedLoop.count paramA = length loopA /\
    ParameterizedLoop.count paramB = length loopB /\
    perimeterWalkAlgorithm loopA heightA loopB heightB
      = Returned (mkLoftResult fs) /\
    Forall2 (fun s f =>
               Walk.face paramA paramB (FaceBuilder.new heightA heightB)
                 (Walk.corners paramA paramB s) = Some f)
      (Walk.trace paramA paramB (length loopA + length loopB) 0 0) fs.
Proof.
  intros HA HB.
  destruct (alignLoopStarts_is_Some (ensureWindingCCW loopA)
              (ensureWindingCCW loopB)) as (k & _ & Halign).
  { rewrite length_ensureWindingCCW. lia. }
  exists (rotateArray (ensureWindingCCW loopB) k).
  set (alignedB := rotateArray (ensureWindingCCW loopB) k) in *.
  assert (length alignedB = length loopB) as HlenB.
  { unfold alignedB. by rewrite length_rotateArray, length_ensureWindingCCW. }
  set (paramA := ParameterizedLoop.new (ensureWindingCCW loopA)).
  set (paramB := ParameterizedLoop.new alignedB).
  assert (ParameterizedLoop.count paramA = length loopA) as HcA.
  { unfold paramA. by rewrite count_new, length_ensureWindingCCW. }
  assert (ParameterizedLoop.count paramB = length loopB) as HcB.
  { unfold paramB. by rewrite count_new. }
  destruct (loop_returns paramA paramB (length loopA + length loopB)
              (Walk.mkState 0 0 (FaceBuilder.new heightA heightB)))
    as (fs & Hloop & Htr); simpl; try lia.
  exists fs. split; [exact Halign|]. split.
  { unfold alignedB. by rewrite rotateArray_perm, ensureWindingCCW_perm. }
  split; [exact HcA|]. split; [exact HcB|]. split; [|exact Htr].
  unfold perimeterWalkAlgorithm.
  destruct (Nat.ltb_spec (length loopA) 3); [lia|].
  destruct (Nat.ltb_spec (length loopB) 3); [lia|]. simpl.
  rewrite Halign. fold paramA paramB. unfold Walk.walkPerimeters.
  rewrite HcA, HcB, Hloop. reflexivity.
Qed.

(** ** Counting arrivals *)







(** The entry point gives a result on all loops. *)
Lemma perimeterWalkAlgorithm_returns : alwaysReturns perimeterWalkAlgorithm.
Proof.
  intros loopA heightA loopB heightB.
  destruct (Nat.lt_ge_cases (length loopA) 3) as [HA|HA].
  { exists (mkLoftResult []). unfold perimeterWalkAlgorithm.
    by destruct (Nat.ltb_spec (length loopA) 3); [|lia]. }
  destruct (Nat.lt_ge_cases (length loopB) 3) as [HB|HB].
  { exists (mkLoftResult []). unfold perimeterWalkAlgorithm.
    destruct (Nat.ltb_spec (length loopA) 3); [done|].
    by destruct (Nat.ltb_spec (length loopB) 3); [|lia]. }
  destruct (perimeterWalkAlgorithm_walk loopA heightA loopB heightB HA HB)
    as (alignedB & fs & _ & _ & _ & _ & Hres & _).
  by exists (mkLoftResult fs).
Qed.

(** ** Claims about the walk *)

Section WalkClaims.
Import Walk.

(** C1. For loops of at least three vertices each, [walkPerimeters]
    terminates: every turn of the loop moves cursor [iA], cursor [iB] or both
    by one and never past its bound, the loop runs while [iA < nA] or
    [iB < nB] and returns with both cursors at their bounds, whatever fuel
    of at least [nA + nB] turns it is given, and it has then pushed at most
    [nA + nB] faces, each of exactly four vertices. *)
Theorem walkPerimeters_terminates (loopA loopB : ParameterizedLoop.t)
    (b : FaceBuilder.t) :
  let nA := ParameterizedLoop.count loopA in
  let nB := ParameterizedLoop.count loopB in
  (3 <= nA)%nat -> (3 <= nB)%nat ->
  (forall st st',
     running loopA loopB (iA st) (iB st) = true ->
     iteration loopA loopB st = Some st' ->
     ((iA st' = iA st + 1 /\ iB st' = iB st) \/
      (iA st' = iA st /\ iB st' = iB st + 1) \/
      (iA st' = iA st + 1 /\ iB st' = iB st + 1))%nat /\
     ((iA st <= nA -> iA st' <= nA) /\ (iB st <= nB -> iB st' <= nB))%nat) /\
  running loopA loopB nA nB = false /\
  exists fs,
    (forall fuel, (nA + nB <= fuel)%nat ->
       loop loopA loopB fuel (mkState 0 0 b) =
         Returned (mkState nA nB
                     (FaceBuilder.mk (FaceBuilder.faces b ++ fs)
                        (FaceBuilder.heightA b) (FaceBuilder.heightB b)))) /\
    walkPerimeters loopA loopB b =
      Returned (FaceBuilder.mk (FaceBuilder.faces b ++ fs)
                  (FaceBuilder.heightA b) (FaceBuilder.heightB b)) /\
    (length fs <= nA + nB)%nat /\
    Forall (fun f => length (face_vertices f) = 4%nat) fs.
Proof.
  intros nA nB HA HB. split; [|split].
  - intros st st' Hrun Hit.
    pose proof (advance_bounds loopA loopB _ _ Hrun) as [HbA HbB].
    rewrite iteration_face in Hit.
    set (s := stepAt loopA loopB (iA st) (iB st)) in *.
    destruct (face loopA loopB (builder st) (corners loopA loopB s));
      simpl in Hit; [|discriminate].
    injection Hit as <-.
    pose proof (advances_some s) as Hsome.
    rewrite advance_cursors. fold nA nB in HbA, HbB.
    destruct (advancesA s), (advancesB s); try discriminate;
      try specialize (HbA eq_refl); try specialize (HbB eq_refl);
      simpl; lia.
  - unfold running. fold nA nB. by rewrite !Nat.ltb_irrefl.
  - destruct (loop_returns loopA loopB (nA + nB) (mkState 0 0 b))
      as (fs & Hloop & Htr); simpl; fold nA nB; try lia.
    simpl in Hloop, Htr. fold nA nB in Hloop.
    exists fs. split; [|split; [|split]].
    + intros fuel Hfuel. rewrite <- Hloop.
      apply loop_fuel_mono; [exact Hfuel|]. by rewrite Hloop.
    + unfold walkPerimeters. fold nA nB. by rewrite Hloop.
    + apply Forall2_length in Htr. rewrite <- Htr.
      pose proof (trace_length loopA loopB (nA + nB) 0 0) as Hlen.
      simpl in Hlen. fold nA nB in Hlen. lia.
    + clear Hloop. induction Htr as [|s f tr fs' Hf _ IH]; constructor; auto.
      by eapply face_quad.
Qed.

Lemma walkPerimeters_terminates_witness :
  exists fs,
    walkPerimeters (ParameterizedLoop.new Examples.square)
      (ParameterizedLoop.new Examples.notchedSquare) (FaceBuilder.new 0 3)
      = Returned (FaceBuilder.mk fs 0 3) /\
    (length fs <= 4 + 6)%nat.
Proof.
  destruct (walkPerimeters_terminates
              (ParameterizedLoop.new Examples.square)
              (ParameterizedLoop.new Examples.notchedSquare)
              (FaceBuilder.new 0 3))
    as (_ & _ & fs & _ & Hwalk & Hlen & _).
  - vm_compute. lia.
  - vm_compute. lia.
  - exists fs. split; [exact Hwalk | exact Hlen].
Defined.

(** C10. For loops of at least three vertices each, [perimeterWalkAlgorithm]
    returns at least [max nA nB] faces, so never an empty list (and at most
    [nA + nB], all quads): the walk takes one turn per face, and among its
    turns exactly [nA] advance [iA] and exactly [nB] advance [iB]. *)
Theorem perimeterWalkAlgorithm_face_count (loopA : list Vector2.t)
    (heightA : float) (loopB : list Vector2.t) (heightB : float) :
  (3 <= length loopA)%nat -> (3 <= length loopB)%nat ->
  exists fs (turns : list Step),
    perimeterWalkAlgorithm loopA heightA loopB heightB
      = Returned (mkLoftResult fs) /\
    length fs = length turns /\
    length (List.filter advancesA turns) = length loopA /\
    length (List.filter advancesB turns) = length loopB /\
    (length loopA `max` length loopB <= length fs)%nat /\
    fs <> [] /\
    (length fs <= length loopA + length loopB)%nat /\
    Forall (fun f => length (face_vertices f) = 4%nat) fs.
Proof.
  intros HA HB.
  destruct (perimeterWalkAlgorithm_walk loopA heightA loopB heightB HA HB)
    as (alignedB & fs & _ & _ & HcA & HcB & Hres & Htr).
  set (paramA := ParameterizedLoop.new (ensureWindingCCW loopA)) in *.
  set (paramB := ParameterizedLoop.new alignedB) in *.
  set (tr := trace paramA paramB (length loopA + length loopB) 0 0) in *.
  destruct (trace_advances paramA paramB (length loopA + length loopB) 0 0)
    as [EA EB]; try lia.
  fold tr in EA, EB.
  apply (f_equal length) in EA, EB.
  rewrite length_map, length_seq, Nat.sub_0_r in EA, EB.
  rewrite HcA in EA. rewrite HcB in EB.
  pose proof (trace_length paramA paramB (length loopA + length loopB) 0 0)
    as Hlen.
  simpl in Hlen. fold tr in Hlen. rewrite HcA, HcB in Hlen.
  pose proof (Forall2_length _ _ _ Htr) as Hfs.
  exists fs, tr. repeat split; try done; try lia.
  - intros ->. simpl in Hfs. lia.
  - clear -Htr. induction Htr as [|s f tr' fs' Hf _ IH]; constructor; auto.
    by eapply face_quad.
Qed.

Lemma perimeterWalkAlgorithm_face_count_witness :
  exists fs,
    perimeterWalkAlgorithm Examples.square 0 Examples.notchedSquare 3
      = Returned (mkLoftResult fs) /\
    (4 `max` 6 <= length fs)%nat.
Proof.
  destruct (perimeterWalkAlgorithm_face_count
              Examples.square 0 Examples.notchedSquare 3)
    as (fs & turns & Hres & _ & _ & _ & Hmax & _).
  - simpl. lia.
  - simpl. lia.
  - exists fs. split; [exact Hres | exact Hmax].
Defined.




(** C3, as the code has it.  When loop A is exhausted ([iA >= nA], on a
    loop A that has a vertex) and B is not, the turn pushes the quad of
    [a0 = loopA.vertex(iA)], which at [iA = nA] is the wrap-around vertex of
    index 0; of [a1], the point [interpolate] computes on A's final edge,
    from the vertex of index [nA - 1] to the vertex of index 0, at B's next
    parameter; and of B's current and next vertex.  Then [iB] is
    incremented and [iA] is not. *)
Theorem iteration_A_exhausted (loopA loopB : ParameterizedLoop.t)
    (st : State) :
  let nA := ParameterizedLoop.count loopA in
  let nB := ParameterizedLoop.count loopB in
  (0 < nA)%nat -> (nA <= iA st)%nat -> (iB st < nB)%nat ->
  branch loopA loopB (iA st) (iB st) = AExhausted /\
  exists a0 a1 b0 b1 last first,
    ParameterizedLoop.vertices loopA !! (nA - 1)%nat = Some last /\
    ParameterizedLoop.vertices loopA !! 0%nat = Some first /\
    ParameterizedLoop.vertex loopA (iA st) = Some a0 /\
    (iA st = nA -> a0 = first) /\
    ParameterizedLoop.interpolate loopA (nA - 1)
      (ParameterizedLoop.param loopB (iB st + 1)) = Some a1 /\
    (a1 = last \/
     exists u,
       a1 = Vector2.mk
              (Vector2.x last + u * (Vector2.x first - Vector2.x last))
              (Vector2.y last + u * (Vector2.y first - Vector2.y last))) /\
    ParameterizedLoop.vertex loopB (iB st) = Some b0 /\
    ParameterizedLoop.vertex loopB (iB st + 1) = Some b1 /\
    iteration loopA loopB st =
      Some (mkState (iA st) (iB st + 1)
              (FaceBuilder.addQuad (builder st) a0 a1 b0 b1)).
Proof.
  intros nA nB HnA HiA HiB.
  assert (branch loopA loopB (iA st) (iB st) = AExhausted) as Hbr.
  { unfold branch. fold nA. by destruct (Nat.leb_spec nA (iA st)); [|lia]. }
  split; [exact Hbr|].
  destruct (vertex_is_Some loopA (iA st) HnA) as [a0 Ha0].
  destruct (interpolate_is_Some loopA (nA - 1)
              (ParameterizedLoop.param loopB (iB st + 1)) HnA) as [a1 Ha1].
  destruct (vertex_is_Some loopB (iB st)) as [b0 Hb0]; [fold nB; lia|].
  destruct (vertex_is_Some loopB (iB st + 1)) as [b1 Hb1]; [fold nB; lia|].
  destruct (lookup_lt_is_Some_2 (ParameterizedLoop.vertices loopA) (nA - 1))
    as [last Hlast]; [fold (ParameterizedLoop.count loopA); fold nA; lia|].
  destruct (lookup_lt_is_Some_2 (ParameterizedLoop.vertices loopA) 0)
    as [first Hfirst]; [fold (ParameterizedLoop.count loopA); fold nA; lia|].
  assert (forall i, ParameterizedLoop.vertex loopA i
                    = ParameterizedLoop.vertices loopA !! (i mod nA)%nat)
    as Hvertex.
  { intros i. unfold ParameterizedLoop.vertex. fold nA.
    by destruct (Nat.eqb_spec nA 0); [lia|]. }
  exists a0, a1, b0, b1, last, first. repeat split; try done.
  - intros E. rewrite Hvertex, E, Nat.Div0.mod_same, Hfirst in Ha0.
    congruence.
  - unfold ParameterizedLoop.interpolate in Ha1.
    rewrite !Hvertex in Ha1.
    replace (nA - 1 + 1)%nat with nA in Ha1 by lia.
    rewrite (Nat.mod_small (nA - 1) nA) in Ha1 by lia.
    rewrite Nat.Div0.mod_same, Hlast, Hfirst in Ha1. simpl in Ha1.
    match type of Ha1 with
    | (if ?c then _ else _) = _ => destruct c
    end; injection Ha1 as <-; [by left | right; eauto].
  - unfold iteration. rewrite Hbr, Ha0, Hb0. simpl.
    rewrite Hb1. simpl. fold nA. rewrite Ha1. reflexivity.
Qed.

Lemma iteration_A_exhausted_witness :
  branch (ParameterizedLoop.new Examples.unitSquare)
    (ParameterizedLoop.new Examples.notchedSquare) 4 4 = AExhausted.
Proof.
  apply (iteration_A_exhausted
           (ParameterizedLoop.new Examples.unitSquare)
           (ParameterizedLoop.new Examples.notchedSquare)
           (mkState 4 4 (FaceBuilder.new 0 3))).
  - vm_compute. lia.
  - vm_compute. lia.
  - vm_compute. lia.
Defined.

(** C3, as stated, fails: lofting the unit square onto the notched square,
    the fifth turn finds loop A exhausted, and the A-side corners of its
    quad are two different points, [(0, 0)], which is A's vertex of index 0,
    and [(0, 2^-33)], which is no vertex of A; A's vertex of the last index,
    [(0, 1)], is neither. *)
Lemma A_exhausted_corners_differ :
  let paramA := ParameterizedLoop.new Examples.unitSquare in
  let paramB := ParameterizedLoop.new Examples.notchedSquare in
  exists fs f,
    perimeterWalkAlgorithm Examples.unitSquare 0 Examples.notchedSquare 3
      = Returned (mkLoftResult fs) /\
    trace paramA paramB 10 0 0 !! 4%nat = Some (mkStep 4 4 AExhausted) /\
    fs !! 4%nat = Some f /\
    face_vertices f =
      [Vector3.mk 0 0 0; Vector3.mk 0 0x1p-33 0;
       Vector3.mk 0 0x1p-33 3; Vector3.mk 0 0x1p-32 3] /\
    ParameterizedLoop.vertices paramA
      = [Vector2.mk 0 0; Vector2.mk 1 0; Vector2.mk 1 1; Vector2.mk 0 1] /\
    (0 =? 0x1p-33) = false /\ (1 =? 0x1p-33) = false /\ (1 =? 0) = false.
Proof.
  vm_compute. do 2 eexists. repeat split.
Qed.

End WalkClaims.

(** C4. If either loop has fewer than three vertices,
    [perimeterWalkAlgorithm] returns a result with no faces; it does not
    raise. *)
Theorem perimeterWalkAlgorithm_degenerate (loopA : list Vector2.t)
    (heightA : float) (loopB : list Vector2.t) (heightB : float) :
  (length loopA < 3)%nat \/ (length loopB < 3)%nat ->
  perimeterWalkAlgorithm loopA heightA loopB heightB
    = Returned (mkLoftResult []).
Proof.
  intros H. unfold perimeterWalkAlgorithm.
  destruct (Nat.ltb_spec (length loopA) 3) as [|HA]; [done|].
  destruct (Nat.ltb_spec (length loopB) 3) as [|HB]; [done|].
  lia.
Qed.

Lemma perimeterWalkAlgorithm_degenerate_witness :
  perimeterWalkAlgorithm [Vector2.mk 0 0; Vector2.mk 1 0] 0 Examples.square 3
    = Returned (mkLoftResult []).
Proof.
  apply perimeterWalkAlgorithm_degenerate. left. simpl. lia.
Defined.

(** C7. [addQuad(a0, a1, b0, b1)] appends exactly one face to the builder,
    whose vertices are, in this order, [a0] and [a1] lifted to the builder's
    height A, then [b1] and [b0] lifted to its height B; the heights are those
    the builder was constructed with. *)
Theorem addQuad_appends_one_face (heightA heightB : float)
    (b : FaceBuilder.t) (a0 a1 b0 b1 : Vector2.t) :
  FaceBuilder.getFaces (FaceBuilder.addQuad b a0 a1 b0 b1) =
    FaceBuilder.getFaces b ++
      [mkLoftFace
         [Vector3.mk (Vector2.x a0) (Vector2.y a0) (FaceBuilder.heightA b);
          Vector3.mk (Vector2.x a1) (Vector2.y a1) (FaceBuilder.heightA b);
          Vector3.mk (Vector2.x b1) (Vector2.y b1) (FaceBuilder.heightB b);
          Vector3.mk (Vector2.x b0) (Vector2.y b0) (FaceBuilder.heightB b)]] /\
  FaceBuilder.heightA (FaceBuilder.addQuad b a0 a1 b0 b1) = FaceBuilder.heightA b /\
  FaceBuilder.heightB (FaceBuilder.addQuad b a0 a1 b0 b1) = FaceBuilder.heightB b /\
  FaceBuilder.getFaces (FaceBuilder.addQuad (FaceBuilder.new heightA heightB) a0 a1 b0 b1) =
    [mkLoftFace
       [Vector3.mk (Vector2.x a0) (Vector2.y a0) heightA;
        Vector3.mk (Vector2.x a1) (Vector2.y a1) heightA;
        Vector3.mk (Vector2.x b1) (Vector2.y b1) heightB;
        Vector3.mk (Vector2.x b0) (Vector2.y b0) heightB]].
Proof. repeat split. Qed.

(** ** Sorting the planes *)

Lemma insertSorted_perm {T : Type} (comparefn : T -> T -> float) (a : T)
    (sorted : list T) :
  JsArray.insertSorted comparefn a sorted ≡ₚ a :: sorted.
Proof.
  induction sorted as [|b rest IH]; simpl; [done|].
  destruct (0 <? comparefn a b); [|done].
  rewrite IH. apply Permutation_swap.
Qed.

Lemma sort_perm {T : Type} (comparefn : T -> T -> float) (arr : list T) :
  JsArray.sort comparefn arr ≡ₚ arr.
Proof.
  induction arr as [|a rest IH]; simpl; [done|].
  by rewrite insertSorted_perm, IH.
Qed.

Lemma byHeight_after (a b : SketchPlane) :
  (0 <? byHeight a b) = (getHeight b <? getHeight a).
Proof. apply sub_positive. Qed.

Lemma insertSorted_ascending (a : SketchPlane) (sorted : list SketchPlane) :
  is_nan (getHeight a) = false ->
  Forall (fun p => is_nan (getHeight p) = false) sorted ->
  StronglySorted ascending sorted ->
  StronglySorted ascending (JsArray.insertSorted byHeight a sorted).
Proof.
  intros Ha Hnum Hsorted.
  induction Hsorted as [|b rest Hrest IH Hb]; simpl.
  - repeat constructor.
  - apply Forall_cons in Hnum as [Hnb Hnum].
    rewrite byHeight_after.
    destruct (getHeight b <? getHeight a) eqn:Hlt.
    + constructor; [by apply IH|].
      rewrite insertSorted_perm. constructor; [by apply ltb_leb | done].
    + assert (ascending a b) as Hab.
      { apply not_ltb_leb; [by apply is_nan_rank..|done]. }
      constructor; [by constructor|].
      constructor; [done|].
      eapply Forall_impl; [exact Hb|].
      intros q Hq. unfold ascending in *. by eapply leb_trans.
Qed.

Lemma sort_ascending (planes : list SketchPlane) :
  Forall (fun p => is_nan (getHeight p) = false) planes ->
  StronglySorted ascending (JsArray.sort byHeight planes).
Proof.
  induction planes as [|a rest IH]; intros Hnum; simpl; [constructor|].
  apply Forall_cons in Hnum as [Ha Hnum].
  apply insertSorted_ascending; [done | | by apply IH].
  by rewrite sort_perm.
Qed.

(** Insertion never moves a plane past one of the same height. *)
Lemma insertSorted_stable (h : float) (a : SketchPlane)
    (sorted : list SketchPlane) :
  List.filter (atHeight h) (JsArray.insertSorted byHeight a sorted)
    = List.filter (atHeight h) (a :: sorted).
Proof.
  induction sorted as [|b rest IH]; [done|].
  cbn [JsArray.insertSorted]. rewrite byHeight_after.
  destruct (getHeight b <? getHeight a) eqn:Hlt; [|done].
  cbn [List.filter] in *. rewrite IH.
  destruct (atHeight h a) eqn:Ea; [|done].
  unfold atHeight in *. by rewrite (ltb_not_eqb _ _ _ Hlt Ea).
Qed.

Lemma sort_stable (h : float) (planes : list SketchPlane) :
  List.filter (atHeight h) (JsArray.sort byHeight planes)
    = List.filter (atHeight h) planes.
Proof.
  induction planes as [|a rest IH]; [done|].
  cbn [JsArray.sort]. rewrite insertSorted_stable. cbn [List.filter].
  by rewrite IH.
Qed.

(** ** Building the segments *)

Section BuildSegments.
Import LoftableModelOps.
Variable planes : list SketchPlane.
Variable algorithm : LoftAlgorithm.

Lemma buildSegment_not_returned (acc : Outcome (list LoftSegment)) (i : nat)
    (segs : list LoftSegment) :
  buildSegment planes algorithm acc i = Returned segs ->
  exists segs0 result,
    acc = Returned segs0 /\
    algorithm (getVertices (planes !!! i)) (getHeight (planes !!! i))
      (getVertices (planes !!! (i + 1)%nat))
      (getHeight (planes !!! (i + 1)%nat)) = Returned result /\
    segs = segs0 ++ [mkLoftSegment (planes !!! i) (planes !!! (i + 1)%nat)
                       (faces result)].
Proof.
  unfold buildSegment. destruct acc as [segs0| |]; try done.
  destruct (algorithm _ _ _ _) as [result| |]; try done.
  intros [= <-]. eauto.
Qed.

Lemma buildSegments_fold (n : nat) (segs : list LoftSegment) :
  (n < length planes)%nat ->
  fold_left (buildSegment planes algorithm) (seq 0 n) (Returned [])
    = Returned segs ->
  bottomPlane <$> segs = take n planes /\
  topPlane <$> segs = take n (drop 1 planes).
Proof.
  revert segs. induction n as [|n IH]; intros segs Hn.
  - simpl. intros [= <-]. by rewrite !take_0.
  - rewrite seq_S, fold_left_app. simpl. intros Hstep.
    apply buildSegment_not_returned in Hstep as (segs0 & result & H0 & _ & ->).
    destruct (IH segs0 ltac:(lia) H0) as [Hb Ht].
    rewrite !fmap_app, Hb, Ht. simpl. split.
    + symmetry. apply take_S_r. apply list_lookup_lookup_total_lt. lia.
    + symmetry. apply take_S_r. rewrite lookup_drop.
      replace (1 + n)%nat with (n + 1)%nat by lia.
      apply list_lookup_lookup_total_lt. lia.
Qed.

Lemma buildSegments_returned (model : LoftableModel) :
  buildSegments planes algorithm = Returned model ->
  bottomPlane <$> segments model = take (length planes - 1) planes /\
  topPlane <$> segments model = drop 1 planes.
Proof.
  unfold buildSegments.
  destruct (fold_left _ _ _) as [segs| |] eqn:Hfold; try done.
  intros [= <-]. simpl.
  destruct planes as [|p rest] eqn:E.
  { simpl in *. by injection Hfold as <-. }
  rewrite <- E in *.
  destruct (buildSegments_fold (length planes - 1) segs) as [Hb Ht];
    [rewrite E; simpl; lia | done |].
  split; [done|]. rewrite Ht. apply take_ge. rewrite length_drop. lia.
Qed.

Lemma buildSegments_returns :
  alwaysReturns algorithm ->
  exists model, buildSegments planes algorithm = Returned model.
Proof.
  intros Htotal. unfold buildSegments.
  assert (forall indices segs, exists segs',
            fold_left (buildSegment planes algorithm) indices (Returned segs)
              = Returned segs') as Hfold.
  { induction indices as [|i indices IH]; intros segs; simpl; [eauto|].
    destruct (Htotal (getVertices (planes !!! i)) (getHeight (planes !!! i))
                (getVertices (planes !!! (i + 1)%nat))
                (getHeight (planes !!! (i + 1)%nat))) as [result ->].
    apply IH. }
  destruct (Hfold (seq 0 (length planes - 1)) []) as [segs ->]. eauto.
Qed.

End BuildSegments.

Lemma fmap_lookup_eq {A B : Type} (f : A -> B) (l : list A) (k : list B)
    (i : nat) (x : A) :
  f <$> l = k -> l !! i = Some x -> k !! i = Some (f x).
Proof. intros <- H. by rewrite list_lookup_fmap, H. Qed.

Lemma nan_not_leb_l (x y : float) : is_nan x = true -> (x <=? y) = false.
Proof.
  intros H. rewrite leb_rank.
  destruct (rank x) as [a|] eqn:E; [|done].
  assert (is_nan x = false) as H' by (apply is_nan_rank; eauto).
  congruence.
Qed.

Lemma nan_not_leb_r (x y : float) : is_nan y = true -> (x <=? y) = false.
Proof.
  intros H. rewrite leb_rank.
  destruct (rank y) as [b|] eqn:E; [|by destruct (rank x)].
  assert (is_nan y = false) as H' by (apply is_nan_rank; eauto).
  congruence.
Qed.

(** Two planes or more, one of them at a height that is [NaN], cannot be
    put in ascending order. *)
Lemma nan_not_ascending (planes arranged : list SketchPlane) :
  (2 <= length planes)%nat ->
  Exists (fun p => is_nan (getHeight p) = true) planes ->
  arranged ≡ₚ planes -> ~ StronglySorted ascending arranged.
Proof.
  intros HN Hnan Hperm Hsorted.
  rewrite <- Hperm in Hnan. apply (Permutation_length) in Hperm.
  apply Exists_exists in Hnan as (p & Hin & Hp).
  apply list_elem_of_lookup_1 in Hin as [i Hi].
  pose proof (lookup_lt_Some _ _ _ Hi) as Hlt.
  destruct (Nat.eq_dec i 0) as [->|Hne].
  - destruct (lookup_lt_is_Some_2 arranged 1) as [q Hq]; [lia|].
    pose proof (StronglySorted_lookup ascending arranged 0 1 p q Hsorted
                  ltac:(lia) Hi Hq) as Hpq.
    unfold ascending in Hpq. by rewrite nan_not_leb_l in Hpq.
  - destruct (lookup_lt_is_Some_2 arranged 0) as [q Hq]; [lia|].
    pose proof (StronglySorted_lookup ascending arranged 0 i q p Hsorted
                  ltac:(lia) Hq Hi) as Hqp.
    unfold ascending in Hqp. by rewrite nan_not_leb_r in Hqp.
Qed.

Section FromPlanesSegments.
Import LoftableModelOps.
Variable registry : gmap string LoftAlgorithm.
Variable DEFAULT_ALGORITHM : option string.

(** The segments of a model that [fromPlanes] returns join the planes
    sorted by height, each to the next. *)
Lemma fromPlanes_returned (planes : list SketchPlane)
    (algorithmName : option string) (warnings : list string)
    (model : LoftableModel) :
  Forall (fun p => is_nan (getHeight p) = false) planes ->
  fromPlanes registry DEFAULT_ALGORITHM planes algorithmName
    = (warnings, Returned model) ->
  let N := length planes in
  let sortedPlanes := JsArray.sort byHeight planes in
  ((N < 2)%nat -> segments model = []) /\
  ((2 <= N)%nat -> length (segments model) = (N - 1)%nat) /\
  sortedPlanes ≡ₚ planes /\
  StronglySorted ascending sortedPlanes /\
  (forall h, List.filter (atHeight h) sortedPlanes
             = List.filter (atHeight h) planes) /\
  ((2 <= N)%nat ->
   (forall i seg, segments model !! i = Some seg ->
      sortedPlanes !! i = Some (bottomPlane seg) /\
      sortedPlanes !! (i + 1)%nat = Some (topPlane seg)) /\
   StronglySorted ascending (bottomPlane <$> segments model) /\
   StronglySorted ascending (topPlane <$> segments model) /\
   Forall (fun seg => ascending (bottomPlane seg) (topPlane seg))
     (segments model)).
Proof.
  intros Hnum Hfrom N sortedPlanes.
  pose proof (sort_ascending planes Hnum) as Hsorted.
  fold sortedPlanes in Hsorted.
  assert (length sortedPlanes = N) as HlenS
    by (unfold sortedPlanes; by rewrite sort_perm).
  unfold fromPlanes in Hfrom. fold sortedPlanes in Hfrom.
  split; [|split; [|split; [|split; [|split]]]].
  - intros HN. fold N in Hfrom.
    destruct (Nat.ltb_spec N 2); [|lia]. by injection Hfrom as _ <-.
  - intros HN. fold N in Hfrom.
    destruct (Nat.ltb_spec N 2); [lia|].
    assert (exists algorithm,
              buildSegments sortedPlanes algorithm = Returned model)
      as [algorithm Hbuild].
    { destruct (getLoftAlgorithm registry _) as [algorithm|].
      - exists algorithm. by injection Hfrom.
      - destruct (getLoftAlgorithm registry hardcodedDefault) as [fallback|];
          [|done].
        exists fallback. by injection Hfrom. }
    apply buildSegments_returned in Hbuild as [Hb _].
    apply (f_equal length) in Hb.
    rewrite length_fmap, length_take, HlenS in Hb. lia.
  - apply sort_perm.
  - exact Hsorted.
  - intros h. apply sort_stable.
  - intros HN. fold N in Hfrom.
    destruct (Nat.ltb_spec N 2); [lia|].
    assert (exists algorithm,
              buildSegments sortedPlanes algorithm = Returned model)
      as [algorithm Hbuild].
    { destruct (getLoftAlgorithm registry _) as [algorithm|].
      - exists algorithm. by injection Hfrom.
      - destruct (getLoftAlgorithm registry hardcodedDefault) as [fallback|];
          [|done].
        exists fallback. by injection Hfrom. }
    apply buildSegments_returned in Hbuild as [Hb Ht].
    assert (StronglySorted ascending (take (N - 1) sortedPlanes)) as HsB.
    { rewrite <- (take_drop (N - 1) sortedPlanes) in Hsorted.
      by apply StronglySorted_app_1_l in Hsorted. }
    assert (StronglySorted ascending (drop 1 sortedPlanes)) as HsT.
    { rewrite <- (take_drop 1 sortedPlanes) in Hsorted.
      by apply StronglySorted_app_1_r in Hsorted. }
    rewrite HlenS in Hb.
    split; [|split; [|split]].
    + intros i seg Hseg.
      pose proof (fmap_lookup_eq _ _ _ _ _ Hb Hseg) as H1.
      pose proof (fmap_lookup_eq _ _ _ _ _ Ht Hseg) as H2.
      apply lookup_take_Some in H1 as [H1 _].
      rewrite lookup_drop in H2.
      split; [done|]. by replace (i + 1)%nat with (1 + i)%nat by lia.
    + by rewrite Hb.
    + by rewrite Ht.
    + apply Forall_lookup. intros i seg Hseg.
      pose proof (fmap_lookup_eq _ _ _ _ _ Hb Hseg) as H1.
      pose proof (fmap_lookup_eq _ _ _ _ _ Ht Hseg) as H2.
      apply lookup_take_Some in H1 as [H1 _].
      rewrite lookup_drop in H2.
      apply list_elem_of_split_length in H1 as (l1 & l2 & E & Hl1).
      rewrite E in Hsorted, H2.
      apply StronglySorted_app_1_r in Hsorted.
      apply StronglySorted_inv in Hsorted as [_ Hall].
      rewrite Forall_forall in Hall. apply Hall.
      rewrite lookup_app_r in H2 by lia.
      replace (1 + i - length l1)%nat with 1%nat in H2 by lia.
      simpl in H2. by eapply list_elem_of_lookup_2.
Qed.

(** The number of segments, whatever the heights. *)
Lemma fromPlanes_count (planes : list SketchPlane)
    (algorithmName : option string) (warnings : list string)
    (model : LoftableModel) :
  fromPlanes registry DEFAULT_ALGORITHM planes algorithmName
    = (warnings, Returned model) ->
  ((length planes < 2)%nat -> segments model = []) /\
  ((2 <= length planes)%nat ->
   length (segments model) = (length planes - 1)%nat).
Proof.
  intros Hfrom. unfold fromPlanes in Hfrom.
  destruct (Nat.ltb_spec (length planes) 2) as [HN|HN].
  - injection Hfrom as _ <-. split; [done | lia].
  - split; [lia|]. intros _.
    assert (exists algorithm,
              buildSegments (JsArray.sort byHeight planes) algorithm
                = Returned model) as [algorithm Hbuild].
    { destruct (getLoftAlgorithm registry _) as [algorithm|].
      - exists algorithm. by injection Hfrom.
      - destruct (getLoftAlgorithm registry hardcodedDefault) as [fallback|];
          [|done].
        exists fallback. by injection Hfrom. }
    apply buildSegments_returned in Hbuild as [_ Ht].
    apply (f_equal length) in Ht.
    rewrite length_fmap, length_drop, sort_perm in Ht. lia.
Qed.

(** C8, as the code has it.  For [N < 2], [fromPlanes] returns the model of
    no segments.  For [N >= 2] it returns a model whenever the algorithm it
    resolves gives a result on all loops, and a model it returns has
    exactly [N - 1] segments, whatever the heights.  When the heights are
    numbers, the planes sorted by height are the input planes in ascending
    order of height, those of equal height in the order they were given,
    and segment [i] joins plane [i] and plane [i + 1] of them, so the
    segments ascend by height.  When a height is [NaN] and [N >= 2], no
    arrangement of the planes ascends. *)
Theorem fromPlanes_segments (planes : list SketchPlane)
    (algorithmName : option string) :
  let N := length planes in
  let sortedPlanes := JsArray.sort byHeight planes in
  let name := resolveName DEFAULT_ALGORITHM algorithmName in
  ((N < 2)%nat ->
   fromPlanes registry DEFAULT_ALGORITHM planes algorithmName
     = ([], Returned (mkLoftableModel []))) /\
  (forall algorithm,
     getLoftAlgorithm registry name = Some algorithm \/
     (getLoftAlgorithm registry name = None /\
      getLoftAlgorithm registry hardcodedDefault = Some algorithm) ->
     alwaysReturns algorithm ->
     exists warnings model,
       fromPlanes registry DEFAULT_ALGORITHM planes algorithmName
         = (warnings, Returned model)) /\
  (forall warnings model,
     fromPlanes registry DEFAULT_ALGORITHM planes algorithmName
       = (warnings, Returned model) ->
     ((N < 2)%nat -> segments model = []) /\
     ((2 <= N)%nat -> length (segments model) = (N - 1)%nat) /\
     (Forall (fun p => is_nan (getHeight p) = false) planes ->
      sortedPlanes ≡ₚ planes /\
      StronglySorted ascending sortedPlanes /\
      (forall h, List.filter (atHeight h) sortedPlanes
                 = List.filter (atHeight h) planes) /\
      ((2 <= N)%nat ->
       (forall i seg, segments model !! i = Some seg ->
          sortedPlanes !! i = Some (bottomPlane seg) /\
          sortedPlanes !! (i + 1)%nat = Some (topPlane seg)) /\
       StronglySorted ascending (bottomPlane <$> segments model) /\
       StronglySorted ascending (topPlane <$> segments model) /\
       Forall (fun seg => ascending (bottomPlane seg) (topPlane seg))
         (segments model)))) /\
  ((2 <= N)%nat ->
   Exists (fun p => is_nan (getHeight p) = true) planes ->
   forall arranged, arranged ≡ₚ planes -> ~ StronglySorted ascending arranged).
Proof.
  intros N sortedPlanes name.
  split; [|split; [|split]].
  - intros HN. unfold fromPlanes. fold N.
    by destruct (Nat.ltb_spec N 2); [|lia].
  - intros algorithm Hresolved Htotal. unfold fromPlanes. fold N.
    destruct (Nat.ltb_spec N 2); [eauto|]. fold name sortedPlanes.
    destruct (buildSegments_returns sortedPlanes algorithm Htotal)
      as [model Hmodel].
    destruct Hresolved as [->|[-> ->]]; rewrite Hmodel; eauto.
  - intros warnings model Hfrom.
    destruct (fromPlanes_count planes algorithmName warnings model Hfrom)
      as [H0 Hlen].
    split; [exact H0|]. split; [exact Hlen|]. intros Hnum.
    destruct (fromPlanes_returned planes algorithmName warnings model
                Hnum Hfrom) as (_ & _ & Hperm & Hsorted & Hstable & Hshape).
    done.
  - intros HN Hnan arranged Hperm. by apply (nan_not_ascending planes).
Qed.

End FromPlanesSegments.

Lemma fromPlanes_segments_witness :
  exists warnings model,
    LoftableModelOps.fromPlanes Examples.builtinRegistry None
      Examples.threeFloors None = (warnings, Returned model) /\
    length (segments model) = 2%nat.
Proof.
  destruct (fromPlanes_segments Examples.builtinRegistry None
              Examples.threeFloors None)
    as (_ & Hreturns & Hshape & _).
  destruct (Hreturns perimeterWalkAlgorithm)
    as (warnings & model & Hfrom).
  - left. reflexivity.
  - exact perimeterWalkAlgorithm_returns.
  - exists warnings, model. split; [exact Hfrom|].
    apply (Hshape warnings model Hfrom). simpl. lia.
Defined.

(** C8, as stated, fails for a height that is [NaN].  Of the four planes at
    the heights 2, 1, [NaN] and 0, [fromPlanes] returns a model of three
    segments, and they are not in ascending order of height: the plane at
    [NaN] is the bottom or the top of a segment, and no comparison with
    [NaN] holds.  No arrangement of the four planes ascends, whatever order
    the sort gives them. *)
Lemma nan_height_not_ascending :
  exists model,
    LoftableModelOps.fromPlanes Examples.builtinRegistry None
      Examples.unsortable None = ([], Returned model) /\
    length (segments model) = 3%nat /\
    ~ Forall (fun seg => ascending (bottomPlane seg) (topPlane seg))
        (segments model) /\
    Exists (fun seg => is_nan (getHeight (bottomPlane seg)) = true \/
                       is_nan (getHeight (topPlane seg)) = true)
      (segments model) /\
    (forall p q, is_nan (getHeight p) = true -> ~ ascending p q) /\
    (forall p q, is_nan (getHeight q) = true -> ~ ascending p q) /\
    forall arranged,
      arranged ≡ₚ Examples.unsortable -> ~ StronglySorted ascending arranged.
Proof.
  destruct (buildSegments_returns
              (JsArray.sort byHeight Examples.unsortable)
              perimeterWalkAlgorithm perimeterWalkAlgorithm_returns)
    as [model Hbuild].
  assert (LoftableModelOps.fromPlanes Examples.builtinRegistry None
            Examples.unsortable None = ([], Returned model)) as Hfrom.
  { unfold LoftableModelOps.fromPlanes.
    change (length Examples.unsortable <? 2)%nat with false. cbn iota.
    change (getLoftAlgorithm Examples.builtinRegistry
              (LoftableModelOps.resolveName None None))
      with (Some perimeterWalkAlgorithm).
    cbv beta zeta iota. by rewrite Hbuild. }
  exists model. split; [exact Hfrom|].
  destruct (fromPlanes_count Examples.builtinRegistry None
              Examples.unsortable None [] model Hfrom) as [_ Hlen].
  specialize (Hlen ltac:(simpl; lia)).
  split; [exact Hlen|].
  assert (Exists (fun seg => is_nan (getHeight (bottomPlane seg)) = true \/
                             is_nan (getHeight (topPlane seg)) = true)
            (segments model)) as Hex.
  { apply buildSegments_returned in Hbuild as [_ Ht].
    assert ((topPlane <$> segments model) !! 1%nat
            = Some (mkSketchPlane Examples.square nan)) as Htop
      by (rewrite Ht; vm_compute; reflexivity).
    rewrite list_lookup_fmap in Htop.
    destruct (segments model !! 1%nat) as [seg|] eqn:Hseg; [|done].
    simpl in Htop. injection Htop as Htop.
    apply Exists_exists. exists seg.
    split; [by eapply list_elem_of_lookup_2|]. right. by rewrite Htop. }
  assert (forall p q, is_nan (getHeight p) = true -> ~ ascending p q) as Hl.
  { intros p q Hp. unfold ascending. by rewrite nan_not_leb_l. }
  assert (forall p q, is_nan (getHeight q) = true -> ~ ascending p q) as Hr.
  { intros p q Hq. unfold ascending. by rewrite nan_not_leb_r. }
  split; [|split; [exact Hex|split; [exact Hl|split; [exact Hr|]]]].
  - intros Hall. apply Exists_exists in Hex as (seg & Hin & Hnan).
    rewrite Forall_forall in Hall. specialize (Hall seg Hin).
    destruct Hnan as [Hnan|Hnan]; [by apply (Hl _ _ Hnan) in Hall
                                  | by apply (Hr _ _ Hnan) in Hall].
  - intros arranged Hperm.
    apply (nan_not_ascending Examples.unsortable); [simpl; lia | | done].
    apply Exists_exists. exists (mkSketchPlane Examples.square nan).
    split; [|done]. unfold Examples.unsortable.
    rewrite !elem_of_cons. auto.
Qed.

(** ** The orchestrator *)

Section FromPlanesClaims.
Import LoftableModelOps.
Variable registry : gmap string LoftAlgorithm.
Variable DEFAULT_ALGORITHM : option string.

(** C9, as the code has it.  Given at least two planes, [fromPlanes]
    resolves the algorithm's name as the explicit argument, else the
    configured default, else the literal ['perimeter-walk'].  A registered
    name builds the segments with its algorithm and warns of nothing.  An
    unknown name writes one warning and builds with the algorithm
    registered as ['perimeter-walk']; if that one is not registered either,
    the call raises an error and returns no model. *)
Theorem fromPlanes_resolution (planes : list SketchPlane)
    (algorithmName : option string) :
  (2 <= length planes)%nat ->
  let name := resolveName DEFAULT_ALGORITHM algorithmName in
  let sortedPlanes := JsArray.sort byHeight planes in
  name = match algorithmName, DEFAULT_ALGORITHM with
         | Some explicit, _ => explicit
         | None, Some configured => configured
         | None, None => "perimeter-walk"
         end /\
  (forall algorithm,
     getLoftAlgorithm registry name = Some algorithm ->
     fromPlanes registry DEFAULT_ALGORITHM planes algorithmName
       = ([], buildSegments sortedPlanes algorithm)) /\
  (forall fallback,
     getLoftAlgorithm registry name = None ->
     getLoftAlgorithm registry "perimeter-walk" = Some fallback ->
     fromPlanes registry DEFAULT_ALGORITHM planes algorithmName
       = ([warning name], buildSegments sortedPlanes fallback)) /\
  (getLoftAlgorithm registry name = None ->
   getLoftAlgorithm registry "perimeter-walk" = None ->
   fromPlanes registry DEFAULT_ALGORITHM planes algorithmName
     = ([warning name], Raised (Error "No loft algorithms registered"))).
Proof.
  intros HN name sortedPlanes.
  assert (forall r : list string * Outcome LoftableModel,
            (if (length planes <? 2)%nat
             then ([], Returned (mkLoftableModel [])) else r) = r)
    as Hguard.
  { intros r. by destruct (Nat.ltb_spec (length planes) 2); [lia|]. }
  split; [|split; [|split]].
  - unfold name, resolveName, hardcodedDefault.
    by destruct algorithmName, DEFAULT_ALGORITHM.
  - intros algorithm Hreg. unfold fromPlanes. rewrite Hguard.
    fold name. by rewrite Hreg.
  - intros fallback Hname Hdef. unfold fromPlanes. rewrite Hguard.
    fold name. unfold hardcodedDefault. by rewrite Hname, Hdef.
  - intros Hname Hdef. unfold fromPlanes. rewrite Hguard.
    fold name. unfold hardcodedDefault. by rewrite Hname, Hdef.
Qed.

End FromPlanesClaims.

Lemma fromPlanes_resolution_witness :
  LoftableModelOps.fromPlanes ∅ None
    [mkSketchPlane Examples.square 0; mkSketchPlane Examples.square 3]
    (Some "ruled")
  = ([LoftableModelOps.warning "ruled"],
     Raised (Error "No loft algorithms registered")).
Proof.
  apply (fromPlanes_resolution ∅ None
           [mkSketchPlane Examples.square 0; mkSketchPlane Examples.square 3]
           (Some "ruled")).
  - simpl. lia.
  - reflexivity.
  - reflexivity.
Defined.

(** C9, as stated, fails: with fewer than two planes [fromPlanes] returns the
    empty model before it looks any name up, so an unknown name is not
    warned about and an empty registry raises nothing. *)
Lemma fromPlanes_no_resolution_below_two_planes :
  getLoftAlgorithm ∅ "ruled" = None /\
  getLoftAlgorithm ∅ "perimeter-walk" = None /\
  LoftableModelOps.fromPlanes ∅ None [] (Some "ruled")
    = ([], Returned (mkLoftableModel [])) /\
  LoftableModelOps.fromPlanes ∅ None [mkSketchPlane Examples.square 0]
    (Some "ruled")
    = ([], Returned (mkLoftableModel [])).
Proof. repeat split. Qed.

(** * Further properties *)

(** ** Rotation and the walk *)

(** X1. Rotating twice is rotating once by the sum, as long as the sum is
    no more than the length; so a rotation by [k] is undone by the rotation
    by [length - k], and a start index at the length or beyond leaves the
    array as it is. *)
Theorem rotateArray_compose {T : Type} (arr : list T) (j k : nat) :
  ((j + k <= length arr)%nat ->
   rotateArray (rotateArray arr j) k = rotateArray arr (j + k)) /\
  ((k <= length arr)%nat ->
   rotateArray (rotateArray arr k) (length arr - k) = arr) /\
  ((length arr <= k)%nat -> rotateArray arr k = arr).
Proof.
  assert (forall i, (length arr <= i)%nat -> rotateArray arr i = arr) as Hpast.
  { intros i Hi. unfold rotateArray.
    destruct (_ || _); [done|].
    by rewrite drop_ge, take_ge by lia. }
  assert (forall a b, (a + b <= length arr)%nat ->
            rotateArray (rotateArray arr a) b = rotateArray arr (a + b))
    as Hsum.
  { intros a b Hab.
    destruct (Nat.eq_dec a 0) as [->|Ha]; [done|].
    destruct (Nat.eq_dec b 0) as [->|Hb].
    { by rewrite Nat.add_0_r. }
    unfold rotateArray at 2 3.
    destruct (Nat.eqb_spec a 0) as [|_]; [lia|].
    destruct (Nat.eqb_spec (a + b) 0) as [|_]; [lia|].
    destruct (Nat.eqb_spec (length arr) 0) as [|_]; [lia|]. simpl.
    unfold rotateArray.
    destruct (Nat.eqb_spec b 0) as [|_]; [lia|]. simpl.
    rewrite length_app, length_drop, length_take.
    destruct (Nat.eqb_spec (length arr - a + a `min` length arr) 0) as [|_];
      [lia|].
    rewrite drop_app_le by (rewrite length_drop; lia).
    rewrite take_app_le by (rewrite length_drop; lia).
    rewrite drop_drop, <- app_assoc. f_equal.
    apply take_take_drop. }
  split; [apply Hsum|]. split; [|apply Hpast].
  intros Hk. rewrite Hsum by lia.
  replace (k + (length arr - k))%nat with (length arr) by lia.
  by apply Hpast.
Qed.

Lemma filter_both {T : Type} (f g : T -> bool) (l : list T) :
  (forall x, f x || g x = true) ->
  (length (List.filter f l) + length (List.filter g l)
   = length l + length (List.filter (fun x => f x && g x) l))%nat.
Proof.
  intros Hfg. induction l as [|x l IH]; simpl; [done|].
  specialize (Hfg x). destruct (f x), (g x); simpl in *; try discriminate; lia.
Qed.

Section WalkExtras.
Import Walk.
Variables loopA loopB : ParameterizedLoop.t.

Let nA := ParameterizedLoop.count loopA.
Let nB := ParameterizedLoop.count loopB.

(** The walk from the start on two loops that have a vertex each. *)
Lemma walkPerimeters_trace (b : FaceBuilder.t) :
  (0 < nA)%nat -> (0 < nB)%nat ->
  exists fs,
    walkPerimeters loopA loopB b =
      Returned (FaceBuilder.mk (FaceBuilder.faces b ++ fs)
                  (FaceBuilder.heightA b) (FaceBuilder.heightB b)) /\
    Forall2 (fun s f => face loopA loopB b (corners loopA loopB s) = Some f)
      (trace loopA loopB (nA + nB) 0 0) fs.
Proof.
  intros HA HB.
  destruct (loop_returns loopA loopB (nA + nB) (mkState 0 0 b))
    as (fs & Hloop & Htr); simpl; fold nA nB; try lia.
  exists fs. split; [|exact Htr].
  unfold walkPerimeters. fold nA nB. by rewrite Hloop.
Qed.

(** X5. On two loops that have a vertex each, [walkPerimeters] returns
    after pushing one face for each turn of the walk, and the number of
    faces is [nA + nB] less the number of turns in which both cursors
    advance. *)
Theorem walkPerimeters_tie_count (b : FaceBuilder.t) :
  (0 < nA)%nat -> (0 < nB)%nat ->
  let turns := trace loopA loopB (nA + nB) 0 0 in
  exists fs,
    walkPerimeters loopA loopB b =
      Returned (FaceBuilder.mk (FaceBuilder.faces b ++ fs)
                  (FaceBuilder.heightA b) (FaceBuilder.heightB b)) /\
    length fs = length turns /\
    (length fs
     + length (List.filter (fun s => advancesA s && advancesB s) turns)
     = nA + nB)%nat.
Proof.
  intros HA HB turns.
  destruct (walkPerimeters_trace b HA HB) as (fs & Hwalk & Htr).
  exists fs. split; [exact Hwalk|].
  apply Forall2_length in Htr. fold turns in Htr.
  split; [done|]. rewrite <- Htr.
  destruct (trace_advances loopA loopB (nA + nB) 0 0) as [EA EB];
    fold nA nB; try lia.
  fold nA nB turns in EA, EB. apply (f_equal length) in EA, EB.
  rewrite length_map, length_seq, Nat.sub_0_r in EA, EB.
  pose proof (filter_both advancesA advancesB turns advances_some). lia.
Qed.


End WalkExtras.

(** X8. On two loops of no vertices [walkPerimeters] returns without a
    turn and leaves the builder as it is.  When one loop has no vertices
    and the other has some, the first turn reads the missing vertex and
    raises a [TypeError]. *)
Theorem walkPerimeters_empty_loop (loopA loopB : ParameterizedLoop.t)
    (b : FaceBuilder.t) :
  let nA := ParameterizedLoop.count loopA in
  let nB := ParameterizedLoop.count loopB in
  (nA = 0%nat -> nB = 0%nat ->
   Walk.walkPerimeters loopA loopB b = Returned b) /\
  (nA = 0%nat -> (0 < nB)%nat ->
   Walk.walkPerimeters loopA loopB b = Raised TypeError) /\
  ((0 < nA)%nat -> nB = 0%nat ->
   Walk.walkPerimeters loopA loopB b = Raised TypeError).
Proof.
  intros nA nB. unfold Walk.walkPerimeters. fold nA nB.
  split; [|split].
  - intros EA EB. rewrite EA, EB. simpl. unfold Walk.running.
    fold nA nB. by rewrite EA, EB.
  - intros EA HB. destruct (nA + nB)%nat as [|fuel] eqn:Ef; [lia|].
    simpl. unfold Walk.running. fold nA nB.
    destruct (Nat.ltb_spec 0 nB) as [_|]; [|lia]. rewrite orb_true_r.
    unfold Walk.iteration. simpl.
    by rewrite (vertex_empty loopA 0 EA).
  - intros HA EB. destruct (nA + nB)%nat as [|fuel] eqn:Ef; [lia|].
    simpl. unfold Walk.running. fold nA nB.
    destruct (Nat.ltb_spec 0 nA) as [_|]; [|lia]. simpl.
    unfold Walk.iteration. simpl.
    destruct (ParameterizedLoop.vertex loopA 0); simpl; [|done].
    by rewrite (vertex_empty loopB 0 EB).
Qed.

Lemma walkPerimeters_tie_count_witness :
  exists fs,
    Walk.walkPerimeters (ParameterizedLoop.new Examples.square)
      (ParameterizedLoop.new Examples.notchedSquare) (FaceBuilder.new 0 3)
      = Returned (FaceBuilder.mk fs 0 3) /\
    length fs = 6%nat.
Proof.
  destruct (walkPerimeters_tie_count (ParameterizedLoop.new Examples.square)
              (ParameterizedLoop.new Examples.notchedSquare)
              (FaceBuilder.new 0 3))
    as (fs & Hwalk & Hlen & _).
  - vm_compute. lia.
  - vm_compute. lia.
  - exists fs. split; [exact Hwalk|]. rewrite Hlen. vm_compute. reflexivity.
Defined.


(** X6. Whatever the loops, [perimeterWalkAlgorithm] returns a result: it
    does not raise.  Every face of the result has four vertices, the first
    two at [heightA] and the last two at [heightB]. *)
Theorem perimeterWalkAlgorithm_face_heights (loopA : list Vector2.t)
    (heightA : float) (loopB : list Vector2.t) (heightB : float) :
  exists fs,
    perimeterWalkAlgorithm loopA heightA loopB heightB
      = Returned (mkLoftResult fs) /\
    Forall (fun f =>
              exists a0 a1 b1 b0 : Vector2.t,
                face_vertices f =
                  [Vector3.mk (Vector2.x a0) (Vector2.y a0) heightA;
                   Vector3.mk (Vector2.x a1) (Vector2.y a1) heightA;
                   Vector3.mk (Vector2.x b1) (Vector2.y b1) heightB;
                   Vector3.mk (Vector2.x b0) (Vector2.y b0) heightB]) fs.
Proof.
  destruct ((length loopA <? 3)%nat || (length loopB <? 3)%nat) eqn:Hshort.
  { exists []. unfold perimeterWalkAlgorithm. rewrite Hshort.
    split; [done | constructor]. }
  apply orb_false_iff in Hshort as [HA HB]. apply Nat.ltb_ge in HA, HB.
  destruct (perimeterWalkAlgorithm_walk loopA heightA loopB heightB HA HB)
    as (alignedB & fs & _ & _ & _ & _ & Hres & Htr).
  exists fs. split; [exact Hres|]. clear Hres.
  induction Htr as [|s f tr fs' Hf _ IH]; [constructor|].
  constructor; [|exact IH].
  unfold Walk.face in Hf.
  destruct (Walk.point _ (Walk.quad_a0 _)) as [a0|]; simpl in Hf; [|done].
  destruct (Walk.point _ (Walk.quad_a1 _)) as [a1|]; simpl in Hf; [|done].
  destruct (Walk.point _ (Walk.quad_b0 _)) as [b0|]; simpl in Hf; [|done].
  destruct (Walk.point _ (Walk.quad_b1 _)) as [b1|]; simpl in Hf; [|done].
  injection Hf as <-. by exists a0, a1, b1, b0.
Qed.

(** X9. [vertex] wraps around: on a loop that has a vertex it always
    returns one of the loop's vertices, the same for [i] and [i + count],
    and [interpolate] returns a point.  On a loop of no vertices [vertex]
    returns [undefined] and [interpolate] raises a [TypeError]. *)
Theorem vertex_wraps (l : ParameterizedLoop.t) (i : nat) (t : float) :
  let n := ParameterizedLoop.count l in
  ((0 < n)%nat ->
   ParameterizedLoop.vertex l (i + n) = ParameterizedLoop.vertex l i /\
   ParameterizedLoop.vertex l i
     = ParameterizedLoop.vertices l !! (i mod n)%nat /\
   (exists v, ParameterizedLoop.vertex l i = Some v /\
              v ∈ ParameterizedLoop.vertices l) /\
   is_Some (ParameterizedLoop.interpolate l i t)) /\
  (n = 0%nat ->
   ParameterizedLoop.vertex l i = None /\
   ParameterizedLoop.interpolate l i t = None).
Proof.
  intros n. split.
  - intros Hn.
    assert (forall j, ParameterizedLoop.vertex l j
                      = ParameterizedLoop.vertices l !! (j mod n)%nat) as Hv.
    { intros j. unfold ParameterizedLoop.vertex. fold n.
      by destruct (Nat.eqb_spec n 0); [lia|]. }
    split; [|split; [|split]].
    + rewrite !Hv. f_equal.
      replace (i + n)%nat with (i + 1 * n)%nat by lia.
      apply Nat.Div0.mod_add.
    + apply Hv.
    + destruct (vertex_is_Some l i Hn) as [v Hsome].
      exists v. split; [done|]. rewrite Hv in Hsome.
      by eapply list_elem_of_lookup_2.
    + by apply interpolate_is_Some.
  - intros E. split; [by apply vertex_empty|].
    unfold ParameterizedLoop.interpolate.
    by rewrite (vertex_empty l i E).
Qed.

(** ** Numbers that are not numbers, and finite ones *)

Lemma rank_None (x : float) : rank x = None <-> Prim2SF x = S754_nan.
Proof.
  unfold rank. destruct (Prim2SF x) as [s|s| |s m e]; simpl; split; done.
Qed.

Lemma is_nan_true (x : float) : is_nan x = true <-> Prim2SF x = S754_nan.
Proof.
  rewrite <- rank_None. pose proof (is_nan_rank x) as [H1 H2].
  destruct (is_nan x), (rank x) as [a|]; split; try done.
  - intros _. by specialize (H2 (mk_is_Some _ _ eq_refl)).
  - intros _. by destruct (H1 eq_refl).
Qed.

Lemma Prim2SF_nan (x : float) : Prim2SF x = S754_nan -> x = nan.
Proof. intros H. apply Prim2SF_inj. by rewrite H. Qed.

Lemma sub_nan_l (x y : float) : is_nan x = true -> is_nan (x - y) = true.
Proof.
  rewrite !is_nan_true, sub_spec. intros ->. by destruct (Prim2SF y).
Qed.

Lemma mul_nan (x : float) : is_nan x = true -> is_nan (x * x) = true.
Proof. rewrite !is_nan_true, mul_spec. by intros ->. Qed.

Lemma add_nan_l (x y : float) : is_nan x = true -> is_nan (x + y) = true.
Proof.
  rewrite !is_nan_true, add_spec. intros ->. by destruct (Prim2SF y).
Qed.

Lemma add_nan_r (x y : float) : is_nan y = true -> is_nan (x + y) = true.
Proof.
  rewrite !is_nan_true, add_spec. intros ->. by destruct (Prim2SF x).
Qed.

Lemma sqrt_nan (x : float) : is_nan x = true -> is_nan (sqrt x) = true.
Proof. rewrite !is_nan_true, sqrt_spec. by intros ->. Qed.

Lemma nan_not_ltb (x y : float) : is_nan x = true -> (x <? y) = false.
Proof.
  rewrite is_nan_true, <- rank_None, ltb_rank. by intros ->.
Qed.

Lemma distanceTo_nan (target v : Vector2.t) :
  is_nan (Vector2.x target) = true \/ is_nan (Vector2.y target) = true ->
  is_nan (Vector2.distanceTo target v) = true.
Proof.
  intros H. unfold Vector2.distanceTo, Vector2.distanceToSquared.
  apply sqrt_nan. destruct H as [H|H].
  - by apply add_nan_l, mul_nan, sub_nan_l.
  - by apply add_nan_r, mul_nan, sub_nan_l.
Qed.

Lemma finite_shape (x : float) :
  is_finite x = true ->
  (exists s, Prim2SF x = S754_zero s) \/
  (exists s m e, Prim2SF x = S754_finite s m e).
Proof.
  unfold is_finite, is_infinity. intros H.
  apply negb_true_iff, orb_false_iff in H as [Hnan Hinf].
  apply is_nan_rank in Hnan as [a Ha].
  rewrite eqb_spec, abs_spec in Hinf.
  unfold rank in Ha.
  destruct (Prim2SF x) as [s|s| |s m e]; simpl in *; try done; eauto.
Qed.

Lemma SFsub_diag (x : spec_float) :
  (exists s, x = S754_zero s) \/ (exists s m e, x = S754_finite s m e) ->
  SFsub prec emax x x = S754_zero false.
Proof.
  intros [[s ->]|(s & m & e & ->)].
  - by destruct s.
  - unfold SFsub. rewrite Z.sub_diag. reflexivity.
Qed.

Lemma sub_diag (x : float) : is_finite x = true -> x - x = 0.
Proof.
  intros H. apply Prim2SF_inj. rewrite sub_spec.
  unfold SF64sub. by rewrite SFsub_diag by by apply finite_shape.
Qed.

Lemma distanceTo_self (v : Vector2.t) :
  is_finite (Vector2.x v) = true -> is_finite (Vector2.y v) = true ->
  Vector2.distanceTo v v = 0.
Proof.
  intros Hx Hy. unfold Vector2.distanceTo, Vector2.distanceToSquared.
  rewrite (sub_diag _ Hx), (sub_diag _ Hy). reflexivity.
Qed.

Lemma notNegative_not_ltb_zero (d : float) :
  notNegative d -> (d <? 0) = false.
Proof.
  unfold notNegative. rewrite ltb_rank, rank_zero.
  destruct (rank d) as [a|]; [|done].
  intros H. specialize (H a eq_refl). apply Z.ltb_ge. lia.
Qed.

(** ** Alignment, again *)

Lemma ltb_is_Some (x y : float) : (x <? y) = true -> is_Some (rank x).
Proof. rewrite ltb_rank. destruct (rank x); [eauto | done]. Qed.

Lemma number_trichotomy (x y : float) :
  is_Some (rank x) -> is_Some (rank y) ->
  (x <? y) = false -> (y <? x) = false -> (x =? y) = true.
Proof.
  rewrite !ltb_rank, eqb_rank. intros [a ->] [b ->].
  rewrite !Z.ltb_ge, Z.eqb_eq. lia.
Qed.

(** Once the loop of [findClosestVertexIndex] has taken a vertex, its
    [bestDist] is a number below [Infinity]. *)
Lemma closest_updated (target : Vector2.t) (loopB : list Vector2.t) (n : nat) :
  let best := fold_left (closer target loopB) (seq 0 n) (0%nat, infinity) in
  (snd best = infinity /\ fst best = 0%nat) \/ (snd best <? infinity) = true.
Proof.
  induction n as [|n IH]; [by left|].
  rewrite seq_S, fold_left_app. simpl.
  set (best := fold_left (closer target loopB) (seq 0 n) (0%nat, infinity)) in *.
  assert (closer target loopB best n =
            if Vector2.distanceTo target (loopB !!! n) <? snd best
            then (n, Vector2.distanceTo target (loopB !!! n)) else best)
    as -> by reflexivity.
  destruct (Vector2.distanceTo target (loopB !!! n) <? snd best) eqn:Hlt;
    [|exact IH].
  right. simpl. destruct IH as [[E _]|Hfin]; [by rewrite E in Hlt|].
  by rewrite (ltb_trans _ _ _ Hlt Hfin).
Qed.

Lemma distanceFrom_rotateArray (target : Vector2.t) (loopB : list Vector2.t)
    (k j : nat) :
  (k < length loopB)%nat -> (j < length loopB)%nat ->
  distanceFrom target (rotateArray loopB k) j
    = distanceFrom target loopB ((k + j) mod length loopB)%nat.
Proof.
  intros Hk Hj. unfold distanceFrom. f_equal.
  apply list_lookup_total_correct.
  rewrite rotateArray_lookup by done.
  apply list_lookup_lookup_total_lt, Nat.mod_upper_bound. lia.
Qed.

Lemma findClosestVertexIndex_rotated (target : Vector2.t)
    (rest loopB : list Vector2.t) (k : nat) :
  findClosestVertexIndex (target :: rest) loopB = Some k ->
  findClosestVertexIndex (target :: rest) (rotateArray loopB k) = Some 0%nat.
Proof.
  intros Hfind.
  destruct (Nat.eq_dec k 0) as [->|Hk0]; [done|].
  simpl in Hfind. injection Hfind as Hk.
  pose proof (closest_invariant target loopB (length loopB)) as [Hnone Hbest].
  pose proof (closest_updated target loopB (length loopB)) as Hupd.
  simpl in Hnone, Hbest, Hupd. rewrite Hk in *.
  destruct Hbest as [[_ ?]|(Hkn & Hd & _)]; [lia|].
  destruct Hupd as [[_ ?]|Hfin]; [lia|].
  rewrite Hd in Hnone, Hfin.
  set (aligned := rotateArray loopB k).
  assert (length aligned = length loopB) as Hlen by apply length_rotateArray.
  pose proof (closest_invariant target aligned (length aligned))
    as [Hnone' Hbest'].
  pose proof (closest_updated target aligned (length aligned)) as Hupd'.
  simpl in Hnone', Hbest', Hupd'.
  set (best' := fold_left (closer target aligned) (seq 0 (length aligned))
                  (0%nat, infinity)) in *.
  change (Some (fst best') = Some 0%nat). f_equal.
  destruct Hbest' as [[_ ?]|(Hk' & Hd' & Hties')]; [done|].
  destruct (Nat.eq_dec (fst best') 0) as [|Hne]; [done|]. exfalso.
  destruct Hupd' as [[_ ?]|Hfin']; [lia|].
  rewrite Hd' in Hnone', Hfin'.
  assert (distanceFrom target aligned 0 = distanceFrom target loopB k) as E0.
  { unfold aligned. rewrite distanceFrom_rotateArray by lia.
    by rewrite Nat.add_0_r, Nat.mod_small. }
  pose proof (Hties' 0%nat ltac:(lia)) as Hneq.
  pose proof (Hnone' 0%nat ltac:(lia)) as Hnlt.
  rewrite E0 in Hneq, Hnlt.
  assert ((distanceFrom target aligned (fst best')
           <? distanceFrom target loopB k) = false) as Hngt.
  { unfold aligned. rewrite distanceFrom_rotateArray by lia.
    apply Hnone, Nat.mod_upper_bound. lia. }
  rewrite (number_trichotomy _ _ (ltb_is_Some _ _ Hfin)
             (ltb_is_Some _ _ Hfin') Hnlt Hngt) in Hneq.
  discriminate.
Qed.

(** X2. Aligning is idempotent: in the loop that [alignLoopStarts] returns,
    the vertex that [findClosestVertexIndex] finds closest to [loopA]'s
    vertex 0 is vertex 0, so aligning the aligned loop again returns it
    as it is. *)
Theorem alignLoopStarts_idempotent (loopA loopB aligned : list Vector2.t) :
  alignLoopStarts loopA loopB = Some aligned ->
  findClosestVertexIndex loopA aligned = Some 0%nat /\
  alignLoopStarts loopA aligned = Some aligned.
Proof.
  intros Halign.
  assert (findClosestVertexIndex loopA aligned = Some 0%nat) as Hfind.
  { unfold alignLoopStarts in Halign.
    destruct (findClosestVertexIndex loopA loopB) as [k|] eqn:Hk; [|done].
    simpl in Halign. injection Halign as <-.
    destruct loopA as [|target rest].
    - destruct loopB; [|done]. injection Hk as <-. reflexivity.
    - by apply findClosestVertexIndex_rotated. }
  split; [exact Hfind|].
  unfold alignLoopStarts. by rewrite Hfind.
Qed.

Lemma alignLoopStarts_idempotent_witness :
  alignLoopStarts Examples.square
    [Vector2.mk 0 2; Vector2.mk 0 0; Vector2.mk 2 0; Vector2.mk 2 2]
    = Some Examples.square /\
  alignLoopStarts Examples.square Examples.square = Some Examples.square.
Proof.
  split; [vm_compute; reflexivity|].
  apply (alignLoopStarts_idempotent Examples.square
           [Vector2.mk 0 2; Vector2.mk 0 0; Vector2.mk 2 0; Vector2.mk 2 2]).
  vm_compute. reflexivity.
Defined.

Lemma fold_closer_nan (target : Vector2.t) (loopB : list Vector2.t)
    (indices : list nat) (best : nat * float) :
  is_nan (Vector2.x target) = true \/ is_nan (Vector2.y target) = true ->
  fold_left (closer target loopB) indices best = best.
Proof.
  intros Hnan. induction indices as [|i indices IH]; [done|]. simpl.
  unfold closer at 2.
  by rewrite (nan_not_ltb _ _ (distanceTo_nan target (loopB !!! i) Hnan)).
Qed.

(** X3. The edges of the alignment.  For a [loopB] of no vertices
    [findClosestVertexIndex] returns 0 and [alignLoopStarts] returns the
    empty loop.  For a [loopA] of no vertices and a [loopB] that has some,
    both raise a [TypeError].  When a coordinate of [loopA]'s vertex 0 is
    [NaN], no distance compares below [Infinity]: the index is 0 and
    [loopB] is returned as it is. *)
Theorem findClosestVertexIndex_edges (loopA loopB : list Vector2.t) :
  (loopB = [] ->
   findClosestVertexIndex loopA loopB = Some 0%nat /\
   alignLoopStarts loopA loopB = Some []) /\
  (loopA = [] -> loopB <> [] ->
   findClosestVertexIndex loopA loopB = None /\
   alignLoopStarts loopA loopB = None) /\
  (forall target,
     loopA !! 0%nat = Some target ->
     is_nan (Vector2.x target) = true \/ is_nan (Vector2.y target) = true ->
     findClosestVertexIndex loopA loopB = Some 0%nat /\
     alignLoopStarts loopA loopB = Some loopB).
Proof.
  split; [|split].
  - intros ->. unfold alignLoopStarts.
    assert (findClosestVertexIndex loopA [] = Some 0%nat) as ->; [|done].
    unfold findClosestVertexIndex. by destruct (loopA !! 0%nat).
  - intros -> HB. unfold alignLoopStarts.
    assert (findClosestVertexIndex [] loopB = None) as ->; [|done].
    by destruct loopB.
  - intros target Htarget Hnan. unfold alignLoopStarts.
    assert (findClosestVertexIndex loopA loopB = Some 0%nat) as ->; [|done].
    unfold findClosestVertexIndex. rewrite Htarget.
    by rewrite fold_closer_nan.
Qed.

(** ** Lofting a loop onto itself *)

Lemma rank_bounded_shape (x : float) (a : Z) :
  rank x = Some a ->
  (- 2 ^ (emax - SpecFloat.emin prec emax) < a
   < 2 ^ (emax - SpecFloat.emin prec emax))%Z ->
  (exists s, Prim2SF x = S754_zero s) \/
  (exists s m e, Prim2SF x = S754_finite s m e).
Proof.
  unfold rank. destruct (Prim2SF x) as [s|s| |s m e]; simpl; try done; eauto.
  intros [= <-]. destruct s; simpl; lia.
Qed.

(** A parameter that is a number lies between 0 and 1. *)
Lemma normalize_unit (d T : float) (a : Z) :
  notBelow d T -> rank (ParameterizedLoop.normalize T d) = Some a ->
  (0 <= a <= 2 ^ (- SpecFloat.emin prec emax))%Z.
Proof.
  intros Hd. unfold ParameterizedLoop.normalize.
  destruct (0 <? T) eqn:HT.
  - intros Ha. split.
    + unfold notBelow in Hd.
      destruct (rank d) as [a1|] eqn:Ea1.
      * destruct Hd as [Hpos _].
        pose proof (div_notBelow 0 d T 0 a1 rank_zero Ea1 ltac:(lia) HT) as Hlt.
        rewrite (zero_div T HT), ltb_rank, Ha, rank_zero in Hlt.
        apply Z.ltb_ge in Hlt. lia.
      * rewrite ltb_rank, Hd in HT. by destruct (rank 0).
    + pose proof (div_le_one d T Hd HT) as Hle.
      rewrite ltb_rank, rank_one, Ha in Hle. by apply Z.ltb_ge in Hle.
  - rewrite rank_zero. intros [= <-]. split; [lia|]. by vm_compute.
Qed.

Lemma param_sub_diag (vs : list Vector2.t) (j : nat) :
  let l := ParameterizedLoop.new vs in
  Forall (fun t => is_nan t = false) (ParameterizedLoop.params l) ->
  ParameterizedLoop.param l j - ParameterizedLoop.param l j = 0.
Proof.
  intros l Hnum. unfold ParameterizedLoop.param.
  destruct (ParameterizedLoop.count l <=? j)%nat eqn:Hj; [reflexivity|].
  apply Nat.leb_gt in Hj.
  pose proof (cumulative_accumulated (ensureWindingCCW vs))
    as (_ & Hall & _ & _).
  pose proof (cumulative_length (ensureWindingCCW vs)) as Hlen.
  assert (ParameterizedLoop.count l = length (ensureWindingCCW vs)) as Hn.
  { unfold l, ParameterizedLoop.count, ParameterizedLoop.new.
    by destruct (ParameterizedLoop.cumulative _). }
  assert (ParameterizedLoop.params l
          = map (ParameterizedLoop.normalize
                   (snd (ParameterizedLoop.cumulative (ensureWindingCCW vs))))
              (fst (ParameterizedLoop.cumulative (ensureWindingCCW vs))))
    as Hparams.
  { unfold l, ParameterizedLoop.new.
    by destruct (ParameterizedLoop.cumulative _). }
  set (distances := fst (ParameterizedLoop.cumulative (ensureWindingCCW vs)))
    in *.
  set (T := snd (ParameterizedLoop.cumulative (ensureWindingCCW vs))) in *.
  destruct (lookup_lt_is_Some_2 distances j) as [d Hd]; [lia|].
  rewrite Hparams in *. rewrite (numberAt_map _ _ _ _ Hd).
  assert (is_nan (ParameterizedLoop.normalize T d) = false) as Hnan.
  { rewrite Forall_forall in Hnum. apply Hnum.
    apply list_elem_of_fmap. exists d. split; [done|].
    by eapply list_elem_of_lookup_2. }
  apply is_nan_rank in Hnan as [a Ha].
  assert (notBelow d T) as HdT.
  { rewrite Forall_forall in Hall. apply Hall.
    by eapply list_elem_of_lookup_2. }
  pose proof (normalize_unit d T a HdT Ha) as Hunit.
  apply Prim2SF_inj. rewrite sub_spec. unfold SF64sub.
  rewrite SFsub_diag; [reflexivity|].
  apply (rank_bounded_shape _ a Ha).
  assert (2 ^ (- SpecFloat.emin prec emax)
          < 2 ^ (emax - SpecFloat.emin prec emax))%Z by (by vm_compute).
  lia.
Qed.

Lemma fold_closer_zero (target : Vector2.t) (loopB : list Vector2.t)
    (indices : list nat) :
  fold_left (closer target loopB) indices (0%nat, 0) = (0%nat, 0).
Proof.
  induction indices as [|i indices IH]; [done|]. simpl.
  unfold closer at 2. cbn [snd].
  by rewrite (notNegative_not_ltb_zero _
                (distanceTo_notNegative target (loopB !!! i))).
Qed.

Lemma findClosestVertexIndex_self (loop : list Vector2.t) (target : Vector2.t) :
  loop !! 0%nat = Some target ->
  is_finite (Vector2.x target) = true -> is_finite (Vector2.y target) = true ->
  findClosestVertexIndex loop loop = Some 0%nat.
Proof.
  intros Htarget Hx Hy. unfold findClosestVertexIndex. rewrite Htarget.
  f_equal. destruct loop as [|v rest]; [done|].
  simpl in Htarget. injection Htarget as ->.
  cbn [length seq fold_left]. unfold closer at 2.
  change ((target :: rest) !!! 0%nat) with target.
  rewrite (distanceTo_self target Hx Hy).
  change (0 <? snd (0%nat, infinity)) with true. cbn iota.
  by rewrite fold_closer_zero.
Qed.

Section SelfLoft.
Import Walk.
Variable vs : list Vector2.t.

Let P := ParameterizedLoop.new vs.
Let n := ParameterizedLoop.count P.

Hypothesis params_numbers :
  Forall (fun t => is_nan t = false) (ParameterizedLoop.params P).

Lemma branch_self (i : nat) : (i < n)%nat -> branch P P i i = Tie.
Proof.
  intros Hi. unfold branch. fold n.
  destruct (Nat.leb_spec n i); [lia|].
  unfold P. by rewrite (param_sub_diag vs (i + 1) params_numbers).
Qed.

Lemma trace_self (fuel i : nat) :
  (i <= n)%nat -> (n - i <= fuel)%nat ->
  trace P P fuel i i = map (fun j => mkStep j j Tie) (seq i (n - i)).
Proof.
  revert i. induction fuel as [|fuel IH]; intros i Hi Hfuel.
  - assert (i = n) as -> by lia. rewrite Nat.sub_diag.
    unfold trace, running. fold n. by rewrite Nat.ltb_irrefl.
  - cbn [trace]. unfold running. fold n.
    destruct (Nat.ltb_spec i n) as [Hlt|Hge]; cbn [orb].
    + unfold stepAt. rewrite (branch_self i Hlt). cbn [advance step_branch
        step_iA step_iB fst snd].
      replace (n - i)%nat with (S (n - (i + 1))) by lia.
      cbn [seq map]. f_equal.
      replace (S i) with (i + 1)%nat by lia. apply IH; lia.
    + assert (i = n) as -> by lia. by rewrite Nat.sub_diag.
Qed.

Lemma face_self (b : FaceBuilder.t) (j : nat) :
  (0 < n)%nat ->
  let v := fun i => ParameterizedLoop.vertices P !!! (i mod n)%nat in
  face P P b (corners P P (mkStep j j Tie)) =
    Some (mkLoftFace
            [FaceBuilder.toPoint3D_A b (v j);
             FaceBuilder.toPoint3D_A b (v (j + 1)%nat);
             FaceBuilder.toPoint3D_B b (v (j + 1)%nat);
             FaceBuilder.toPoint3D_B b (v j)]).
Proof.
  intros Hn v.
  assert (forall i, ParameterizedLoop.vertex P i = Some (v i)) as Hv.
  { intros i. unfold ParameterizedLoop.vertex. fold n.
    destruct (Nat.eqb_spec n 0); [lia|].
    apply list_lookup_lookup_total_lt.
    fold (ParameterizedLoop.count P). fold n.
    apply Nat.mod_upper_bound. lia. }
  unfold face, corners. cbn [step_branch step_iA step_iB quad_a0 quad_a1
    quad_b0 quad_b1 point]. by rewrite !Hv.
Qed.

End SelfLoft.

(** X4. Lofting a loop onto itself gives the upright walls of a prism.
    For a loop of three vertices or more whose coordinates are finite and
    whose parameters are numbers, [perimeterWalkAlgorithm] returns one quad
    for each edge, with no interpolated corner: the quad of edge [i] has
    the vertices [i] and [i + 1] at [heightA], then the vertices [i + 1] and
    [i] at [heightB]. *)
Theorem perimeterWalkAlgorithm_prism (loop : list Vector2.t)
    (heightA heightB : float) :
  (3 <= length loop)%nat ->
  Forall (fun v => is_finite (Vector2.x v) = true /\
                   is_finite (Vector2.y v) = true) loop ->
  let P := ParameterizedLoop.new (ensureWindingCCW loop) in
  Forall (fun t => is_nan t = false) (ParameterizedLoop.params P) ->
  let v := fun i =>
    ParameterizedLoop.vertices P !!! (i mod length loop)%nat in
  perimeterWalkAlgorithm loop heightA loop heightB =
    Returned (mkLoftResult
      (map (fun i =>
              mkLoftFace
                [Vector3.mk (Vector2.x (v i)) (Vector2.y (v i)) heightA;
                 Vector3.mk (Vector2.x (v (i + 1)%nat))
                   (Vector2.y (v (i + 1)%nat)) heightA;
                 Vector3.mk (Vector2.x (v (i + 1)%nat))
                   (Vector2.y (v (i + 1)%nat)) heightB;
                 Vector3.mk (Vector2.x (v i)) (Vector2.y (v i)) heightB])
         (seq 0 (length loop)))).
Proof.
  intros Hlen Hfinite P Hnum v.
  set (normalized := ensureWindingCCW loop) in *.
  assert (length normalized = length loop) as Hnl
    by apply length_ensureWindingCCW.
  destruct (lookup_lt_is_Some_2 normalized 0) as [target Htarget]; [lia|].
  assert (is_finite (Vector2.x target) = true /\
          is_finite (Vector2.y target) = true) as [Hx Hy].
  { rewrite Forall_forall in Hfinite. apply Hfinite.
    rewrite <- (ensureWindingCCW_perm loop).
    by eapply list_elem_of_lookup_2. }
  assert (alignLoopStarts normalized normalized = Some normalized) as Halign.
  { unfold alignLoopStarts.
    by rewrite (findClosestVertexIndex_self normalized target Htarget Hx Hy). }
  destruct (perimeterWalkAlgorithm_walk loop heightA loop heightB Hlen Hlen)
    as (alignedB & fs & Halign' & _ & HcA & _ & Hres & Htr).
  fold normalized in Halign', HcA, Htr. rewrite Halign in Halign'.
  injection Halign' as <-. fold P in HcA, Htr.
  rewrite Hres. do 2 f_equal.
  assert (Walk.trace P P (length loop + length loop) 0 0
          = map (fun j => Walk.mkStep j j Walk.Tie) (seq 0 (length loop))) as Htrace.
  { rewrite <- HcA at 3. rewrite <- (Nat.sub_0_r (ParameterizedLoop.count P)).
    apply (trace_self normalized Hnum); fold P; lia. }
  rewrite Htrace in Htr.
  apply Forall2_fmap_l in Htr.
  assert (forall l fs',
            Forall2 (fun j f =>
                       Walk.face P P (FaceBuilder.new heightA heightB)
                         (Walk.corners P P (Walk.mkStep j j Walk.Tie)) = Some f) l fs' ->
            fs' = map (fun i =>
              mkLoftFace
                [Vector3.mk (Vector2.x (v i)) (Vector2.y (v i)) heightA;
                 Vector3.mk (Vector2.x (v (i + 1)%nat))
                   (Vector2.y (v (i + 1)%nat)) heightA;
                 Vector3.mk (Vector2.x (v (i + 1)%nat))
                   (Vector2.y (v (i + 1)%nat)) heightB;
                 Vector3.mk (Vector2.x (v i)) (Vector2.y (v i)) heightB]) l)
    as Hmap.
  { induction 1 as [|j f l fs' Hf _ IH]; [done|].
    cbn [map]. f_equal; [|exact IH].
    pose proof (face_self normalized (FaceBuilder.new heightA heightB) j)
      as Hface.
    fold P in Hface. cbv zeta in Hface. rewrite Hface in Hf by lia.
    injection Hf as <-. unfold v. by rewrite HcA. }
  by apply Hmap in Htr.
Qed.

Lemma perimeterWalkAlgorithm_prism_witness :
  perimeterWalkAlgorithm Examples.square 0 Examples.square 3 =
    Returned (mkLoftResult
      [mkLoftFace [Vector3.mk 0 0 0; Vector3.mk 2 0 0;
                   Vector3.mk 2 0 3; Vector3.mk 0 0 3];
       mkLoftFace [Vector3.mk 2 0 0; Vector3.mk 2 2 0;
                   Vector3.mk 2 2 3; Vector3.mk 2 0 3];
       mkLoftFace [Vector3.mk 2 2 0; Vector3.mk 0 2 0;
                   Vector3.mk 0 2 3; Vector3.mk 2 2 3];
       mkLoftFace [Vector3.mk 0 2 0; Vector3.mk 0 0 0;
                   Vector3.mk 0 0 3; Vector3.mk 0 2 3]]).
Proof.
  rewrite (perimeterWalkAlgorithm_prism Examples.square 0 3).
  - vm_compute. reflexivity.
  - simpl. lia.
  - repeat constructor.
  - repeat constructor.
Defined.

(** ** The model that [fromPlanes] returns *)

Lemma getPlanes_tops (m : LoftableModel) (first : LoftSegment)
    (rest : list LoftSegment) :
  segments m = first :: rest ->
  getPlanes m = bottomPlane first :: (topPlane <$> segments m).
Proof.
  intros E. unfold getPlanes. rewrite E.
  assert (forall segs acc,
            fold_left (fun planes segment => planes ++ [topPlane segment])
              segs acc = acc ++ (topPlane <$> segs)) as Hfold.
  { induction segs as [|s segs IH]; intros acc; simpl.
    - by rewrite app_nil_r.
    - rewrite IH. by rewrite <- app_assoc. }
  rewrite Hfold. reflexivity.
Qed.

Section ModelQueries.
Import LoftableModelOps.
Variable registry : gmap string LoftAlgorithm.
Variable DEFAULT_ALGORITHM : option string.

(** What [fromPlanes] builds from two planes or more is what
    [buildSegments] returns for the sorted planes and some algorithm of the
    registry. *)
Lemma fromPlanes_built (planes : list SketchPlane)
    (algorithmName : option string) (warnings : list string)
    (model : LoftableModel) :
  (2 <= length planes)%nat ->
  fromPlanes registry DEFAULT_ALGORITHM planes algorithmName
    = (warnings, Returned model) ->
  exists algorithm,
    (getLoftAlgorithm registry (resolveName DEFAULT_ALGORITHM algorithmName)
       = Some algorithm \/
     getLoftAlgorithm registry hardcodedDefault = Some algorithm) /\
    buildSegments (JsArray.sort byHeight planes) algorithm = Returned model.
Proof.
  intros HN. unfold fromPlanes.
  destruct (Nat.ltb_spec (length planes) 2); [lia|].
  destruct (getLoftAlgorithm registry (resolveName _ _)) as [algorithm|].
  - intros [= _ Hb]. eauto.
  - destruct (getLoftAlgorithm registry hardcodedDefault) as [fallback|];
      [|done].
    intros [= _ Hb]. eauto.
Qed.

(** X10. For a model that [fromPlanes] returns: with fewer than two planes
    the model has no segment and [getPlanes] is empty, so a single plane is
    not listed; with two planes or more [getPlanes] lists every input plane
    once, and when the heights are numbers it lists them sorted by height:
    in ascending order, those of equal height in the order they were
    given. *)
Theorem getPlanes_fromPlanes (planes : list SketchPlane)
    (algorithmName : option string) (warnings : list string)
    (model : LoftableModel) :
  fromPlanes registry DEFAULT_ALGORITHM planes algorithmName
    = (warnings, Returned model) ->
  ((length planes < 2)%nat -> getPlanes model = []) /\
  ((2 <= length planes)%nat ->
   getPlanes model ≡ₚ planes /\
   (Forall (fun p => is_nan (getHeight p) = false) planes ->
    getPlanes model = JsArray.sort byHeight planes /\
    StronglySorted ascending (getPlanes model) /\
    forall h, List.filter (atHeight h) (getPlanes model)
              = List.filter (atHeight h) planes)).
Proof.
  intros Hfrom. split; intros HN.
  - unfold fromPlanes in Hfrom.
    destruct (Nat.ltb_spec (length planes) 2); [|lia].
    by injection Hfrom as _ <-.
  - destruct (fromPlanes_built planes algorithmName warnings model HN Hfrom)
      as (algorithm & _ & Hbuild).
    apply buildSegments_returned in Hbuild as [Hb Ht].
    assert (getPlanes model = JsArray.sort byHeight planes) as Hsorted.
    { set (sortedPlanes := JsArray.sort byHeight planes) in *.
      assert (length sortedPlanes = length planes) as Hlen
        by (unfold sortedPlanes; by rewrite sort_perm).
      destruct (segments model) as [|first rest] eqn:E.
      { apply (f_equal length) in Ht. rewrite length_drop in Ht.
        simpl in Ht. lia. }
      rewrite (getPlanes_tops model first rest E), E, Ht.
      destruct sortedPlanes as [|p sorted']; [simpl in Hlen; lia|].
      simpl in Hb. destruct (length sorted') eqn:El; [simpl in Hlen; lia|].
      simpl in Hb. injection Hb as -> _. reflexivity. }
    rewrite Hsorted. split; [apply sort_perm|].
    intros Hnum. split; [done|].
    split; [by apply sort_ascending | intros h; apply sort_stable].
Qed.

End ModelQueries.

(** The three floors can be lofted with the built-in algorithm. *)
Lemma threeFloors_model :
  exists model,
    LoftableModelOps.fromPlanes Examples.builtinRegistry None
      Examples.threeFloors None = ([], Returned model).
Proof.
  destruct (buildSegments_returns
              (JsArray.sort byHeight Examples.threeFloors)
              perimeterWalkAlgorithm perimeterWalkAlgorithm_returns)
    as [model Hbuild].
  exists model. unfold LoftableModelOps.fromPlanes.
  change (length Examples.threeFloors <? 2)%nat with false. cbn iota.
  change (getLoftAlgorithm Examples.builtinRegistry
            (LoftableModelOps.resolveName None None))
    with (Some perimeterWalkAlgorithm).
  cbv beta zeta iota. by rewrite Hbuild.
Qed.

Lemma getPlanes_fromPlanes_witness :
  exists model,
    LoftableModelOps.fromPlanes Examples.builtinRegistry None
      Examples.threeFloors None = ([], Returned model) /\
    getHeight <$> getPlanes model = [0; 3; 6].
Proof.
  destruct threeFloors_model as [model Hmodel].
  exists model. split; [exact Hmodel|].
  destruct (getPlanes_fromPlanes Examples.builtinRegistry None
              Examples.threeFloors None [] model Hmodel) as [_ Hsorted].
  destruct Hsorted as [_ Hsorted]; [simpl; lia|].
  destruct Hsorted as [-> _]; [repeat constructor|].
  reflexivity.
Defined.

Lemma leb_refl_number (x : float) : is_nan x = false -> (x <=? x) = true.
Proof.
  intros H. apply is_nan_rank in H as [a Ha].
  rewrite leb_rank, Ha. apply Z.leb_refl.
Qed.

Section RoofQueries.
Import LoftableModelOps.
Variable registry : gmap string LoftAlgorithm.
Variable DEFAULT_ALGORITHM : option string.

(** X11. For a model that [fromPlanes] returns: with fewer than two planes
    [getRoofHeight] is 0 and [getRoofVertices] is [null]; with two or more
    they are the height and the vertices of one of the input planes, and
    when the heights are numbers that plane is the last of the planes
    sorted by height and no plane is higher than the roof. *)
Theorem roof_fromPlanes (planes : list SketchPlane)
    (algorithmName : option string) (warnings : list string)
    (model : LoftableModel) :
  fromPlanes registry DEFAULT_ALGORITHM planes algorithmName
    = (warnings, Returned model) ->
  ((length planes < 2)%nat ->
   getRoofHeight model = 0 /\ getRoofVertices model = None) /\
  ((2 <= length planes)%nat ->
   exists top,
     top ∈ planes /\
     getRoofHeight model = getHeight top /\
     getRoofVertices model = Some (getVertices top) /\
     (Forall (fun p => is_nan (getHeight p) = false) planes ->
      last (JsArray.sort byHeight planes) = Some top /\
      Forall (fun p => (getHeight p <=? getHeight top) = true) planes)).
Proof.
  intros Hfrom. split; intros HN.
  - unfold fromPlanes in Hfrom.
    destruct (Nat.ltb_spec (length planes) 2); [|lia].
    by injection Hfrom as _ <-.
  - destruct (fromPlanes_built registry DEFAULT_ALGORITHM planes algorithmName
                warnings model HN Hfrom) as (algorithm & _ & Hbuild).
    apply buildSegments_returned in Hbuild as [_ Ht].
    set (sortedPlanes := JsArray.sort byHeight planes) in *.
    assert (length sortedPlanes = length planes) as Hlen
      by (unfold sortedPlanes; by rewrite sort_perm).
    assert (length (segments model) = (length planes - 1)%nat) as Hsegs.
    { apply (f_equal length) in Ht.
      rewrite length_fmap, length_drop in Ht. lia. }
    destruct (lookup_lt_is_Some_2 sortedPlanes (length planes - 1))
      as [top Htop]; [lia|].
    assert (topPlane (segments model !!! (length (segments model) - 1)%nat)
            = top) as Hroof.
    { destruct (lookup_lt_is_Some_2 (segments model)
                  (length (segments model) - 1)) as [seg Hseg]; [lia|].
      rewrite (list_lookup_total_correct _ _ _ Hseg).
      pose proof (fmap_lookup_eq topPlane _ _ _ _ Ht Hseg) as Hd.
      rewrite lookup_drop in Hd.
      replace (1 + (length (segments model) - 1))%nat
        with (length planes - 1)%nat in Hd by lia.
      congruence. }
    assert (top ∈ planes) as Hin.
    { rewrite <- (sort_perm byHeight planes).
      by eapply list_elem_of_lookup_2. }
    exists top. split; [exact Hin|]. split; [|split].
    + unfold getRoofHeight, getTopHeight.
      destruct (Nat.eqb_spec (length (segments model)) 0); [lia|].
      by rewrite Hroof.
    + unfold getRoofVertices.
      destruct (Nat.eqb_spec (length (segments model)) 0); [lia|].
      by rewrite Hroof.
    + intros Hnum. split.
      { fold sortedPlanes. rewrite last_lookup, Hlen.
        by replace (pred (length planes)) with (length planes - 1)%nat
          by lia. }
      pose proof (sort_ascending planes Hnum) as Hsorted.
      fold sortedPlanes in Hsorted.
      assert (Forall (fun p => (getHeight p <=? getHeight top) = true)
                sortedPlanes) as Hall.
      { apply Forall_lookup. intros i p Hp.
        pose proof (lookup_lt_Some _ _ _ Hp) as Hi.
        destruct (decide (i = length planes - 1)%nat) as [->|Hne].
        - assert (p = top) as -> by congruence.
          apply leb_refl_number.
          rewrite Forall_forall in Hnum. by apply Hnum.
        - apply (StronglySorted_lookup ascending sortedPlanes i
                   (length planes - 1) p top Hsorted); [lia | done | done]. }
      unfold sortedPlanes in Hall. by rewrite sort_perm in Hall.
Qed.

End RoofQueries.

Lemma roof_fromPlanes_witness :
  exists model,
    LoftableModelOps.fromPlanes Examples.builtinRegistry None
      Examples.threeFloors None = ([], Returned model) /\
    getRoofHeight model = 6.
Proof.
  destruct threeFloors_model as [model Hmodel].
  exists model. split; [exact Hmodel|].
  destruct (roof_fromPlanes Examples.builtinRegistry None
              Examples.threeFloors None [] model Hmodel) as [_ Hroof].
  destruct Hroof as (top & _ & Hheight & _ & Hnum); [simpl; lia|].
  destruct Hnum as [Hlast _]; [repeat constructor|].
  rewrite Hheight. cbv in Hlast. by injection Hlast as <-.
Defined.

Section SegmentFaces.
Import LoftableModelOps.

Variable planes : list SketchPlane.
Variable algorithm : LoftAlgorithm.

Lemma buildSegment_loftPair (acc : Outcome (list LoftSegment)) (i : nat) :
  buildSegment planes algorithm acc i =
    match acc with
    | Returned segs =>
        match loftPair planes algorithm i with
        | Returned result =>
            Returned (segs ++ [mkLoftSegment (planes !!! i)
                                 (planes !!! (i + 1)%nat) (faces result)])
        | Raised e => Raised e
        | OutOfFuel => OutOfFuel
        end
    | Raised e => Raised e
    | OutOfFuel => OutOfFuel
    end.
Proof. reflexivity. Qed.

Lemma fold_buildSegment_faces (n : nat) (segs : list LoftSegment) :
  fold_left (buildSegment planes algorithm) (seq 0 n) (Returned [])
    = Returned segs ->
  length segs = n /\
  forall i seg, segs !! i = Some seg ->
    exists result,
      loftPair planes algorithm i = Returned result /\
      seg = mkLoftSegment (planes !!! i) (planes !!! (i + 1)%nat)
              (faces result).
Proof.
  revert segs. induction n as [|n IH]; intros segs.
  - simpl. intros [= <-]. split; [done|]. intros i seg Hi.
    by rewrite lookup_nil in Hi.
  - rewrite seq_S, fold_left_app. simpl. rewrite buildSegment_loftPair.
    destruct (fold_left _ _ _) as [segs0| |]; try done.
    destruct (IH segs0 eq_refl) as [Hlen Hsegs].
    destruct (loftPair planes algorithm n) as [result| |] eqn:Hpair; try done.
    intros [= <-]. split; [rewrite length_app; simpl; lia|].
    intros i seg Hi.
    destruct (Nat.lt_ge_cases i n) as [Hlt|Hge].
    + rewrite lookup_app_l in Hi by lia. by apply Hsegs.
    + rewrite lookup_app_r in Hi by lia.
      destruct (i - length segs0)%nat as [|k] eqn:Ek; [|done].
      simpl in Hi. injection Hi as <-.
      assert (i = n) as -> by lia. eauto.
Qed.

Lemma fold_buildSegment_raised (e : JsError) (indices : list nat) :
  fold_left (buildSegment planes algorithm) indices (Raised e) = Raised e.
Proof. induction indices as [|i indices IH]; [done | exact IH]. Qed.

Lemma fold_buildSegment_returns (n : nat) :
  (forall j, (j < n)%nat ->
             exists result, loftPair planes algorithm j = Returned result) ->
  exists segs,
    fold_left (buildSegment planes algorithm) (seq 0 n) (Returned [])
      = Returned segs.
Proof.
  induction n as [|n IH]; intros Hret; [simpl; eauto|].
  rewrite seq_S, fold_left_app. simpl.
  destruct IH as [segs ->]; [intros j Hj; apply Hret; lia|].
  rewrite buildSegment_loftPair.
  destruct (Hret n ltac:(lia)) as [result ->]. eauto.
Qed.

(** X13. [buildSegments] raises what the algorithm raises: when the
    algorithm raises at a pair of adjacent planes and has returned for
    every pair below, [buildSegments] raises that error and returns no
    model. *)
Theorem buildSegments_raises (i : nat) (e : JsError) :
  (i < length planes - 1)%nat ->
  (forall j, (j < i)%nat ->
             exists result, loftPair planes algorithm j = Returned result) ->
  loftPair planes algorithm i = Raised e ->
  buildSegments planes algorithm = Raised e.
Proof.
  intros Hi Hbelow Hraise. unfold buildSegments.
  replace (length planes - 1)%nat with (i + S (length planes - 1 - i - 1))%nat
    by lia.
  rewrite seq_app, fold_left_app.
  destruct (fold_buildSegment_returns i Hbelow) as [segs ->].
  cbn [seq fold_left Nat.add]. rewrite buildSegment_loftPair, Hraise.
  by rewrite fold_buildSegment_raised.
Qed.

End SegmentFaces.

Lemma buildSegments_raises_witness :
  LoftableModelOps.buildSegments
    [mkSketchPlane Examples.square 0; mkSketchPlane [] 1;
     mkSketchPlane Examples.square 2] Examples.strictAlgorithm
  = Raised (Error "empty loop").
Proof.
  apply (buildSegments_raises _ Examples.strictAlgorithm 1).
  - simpl. lia.
  - intros j Hj. assert (j = 0%nat) as -> by lia.
    eexists. vm_compute. reflexivity.
  - reflexivity.
Defined.

Section FromPlanesFaces.
Import LoftableModelOps.
Variable registry : gmap string LoftAlgorithm.
Variable DEFAULT_ALGORITHM : option string.

(** X12. In a model that [fromPlanes] returns for two planes or more,
    every segment holds two of the input planes and exactly the faces that
    the resolved algorithm, or the fallback when the resolved name is
    unknown, returns for the vertices and heights of its bottom and its top
    plane.  When the heights are numbers, segment [i] holds plane [i] and
    plane [i + 1] of the planes sorted by height. *)
Theorem fromPlanes_segment_faces (planes : list SketchPlane)
    (algorithmName : option string) (warnings : list string)
    (model : LoftableModel) :
  (2 <= length planes)%nat ->
  fromPlanes registry DEFAULT_ALGORITHM planes algorithmName
    = (warnings, Returned model) ->
  let name := resolveName DEFAULT_ALGORITHM algorithmName in
  let sortedPlanes := JsArray.sort byHeight planes in
  exists algorithm,
    (getLoftAlgorithm registry name = Some algorithm \/
     (getLoftAlgorithm registry name = None /\
      getLoftAlgorithm registry hardcodedDefault = Some algorithm)) /\
    forall i seg, segments model !! i = Some seg ->
      bottomPlane seg ∈ planes /\ topPlane seg ∈ planes /\
      (exists result,
         algorithm (getVertices (bottomPlane seg)) (getHeight (bottomPlane seg))
           (getVertices (topPlane seg)) (getHeight (topPlane seg))
           = Returned result /\
         segment_faces seg = faces result) /\
      (Forall (fun p => is_nan (getHeight p) = false) planes ->
       sortedPlanes !! i = Some (bottomPlane seg) /\
       sortedPlanes !! (i + 1)%nat = Some (topPlane seg)).
Proof.
  intros HN Hfrom name sortedPlanes.
  assert (length sortedPlanes = length planes) as Hlen
    by (unfold sortedPlanes; by rewrite sort_perm).
  assert (exists algorithm,
            (getLoftAlgorithm registry name = Some algorithm \/
             (getLoftAlgorithm registry name = None /\
              getLoftAlgorithm registry hardcodedDefault = Some algorithm)) /\
            buildSegments sortedPlanes algorithm = Returned model)
    as (algorithm & Hresolved & Hbuild).
  { unfold fromPlanes in Hfrom.
    destruct (Nat.ltb_spec (length planes) 2); [lia|].
    fold name sortedPlanes in Hfrom.
    destruct (getLoftAlgorithm registry name) as [algorithm|].
    - injection Hfrom as _ Hb. eauto.
    - destruct (getLoftAlgorithm registry hardcodedDefault) as [fallback|];
        [|done].
      injection Hfrom as _ Hb. eauto 6. }
  exists algorithm. split; [exact Hresolved|].
  unfold buildSegments in Hbuild.
  destruct (fold_left _ _ _) as [segs| |] eqn:Hfold; try done.
  injection Hbuild as <-. simpl.
  destruct (fold_buildSegment_faces sortedPlanes algorithm _ segs Hfold)
    as [Hsegs Hfaces].
  intros i seg Hseg.
  pose proof (lookup_lt_Some _ _ _ Hseg) as Hi.
  destruct (Hfaces i seg Hseg) as (result & Hpair & ->).
  assert (sortedPlanes !! i = Some (sortedPlanes !!! i)) as Hbottom
    by (apply list_lookup_lookup_total_lt; lia).
  assert (sortedPlanes !! (i + 1)%nat = Some (sortedPlanes !!! (i + 1)%nat))
    as Htop by (apply list_lookup_lookup_total_lt; lia).
  cbn [bottomPlane topPlane segment_faces].
  split; [|split; [|split]].
  - rewrite <- (sort_perm byHeight planes). by eapply list_elem_of_lookup_2.
  - rewrite <- (sort_perm byHeight planes). by eapply list_elem_of_lookup_2.
  - exists result. split; [exact Hpair | reflexivity].
  - intros _. split; [exact Hbottom | exact Htop].
Qed.

End FromPlanesFaces.

Lemma fromPlanes_segment_faces_witness :
  exists model algorithm,
    LoftableModelOps.fromPlanes Examples.builtinRegistry None
      Examples.threeFloors None = ([], Returned model) /\
    getLoftAlgorithm Examples.builtinRegistry "perimeter-walk"
      = Some algorithm.
Proof.
  destruct threeFloors_model as [model Hmodel]. exists model.
  destruct (fromPlanes_segment_faces Examples.builtinRegistry None
              Examples.threeFloors None [] model ltac:(simpl; lia) Hmodel)
    as (algorithm & [Hreg|[Hnone _]] & _).
  - exists algorithm. split; [exact Hmodel | exact Hreg].
  - discriminate Hnone.
Defined.

(** The number of faces the entry point returns for two loops of three
    vertices or more. *)
Lemma perimeterWalkAlgorithm_count (loopA : list Vector2.t) (heightA : float)
    (loopB : list Vector2.t) (heightB : float) :
  (3 <= length loopA)%nat -> (3 <= length loopB)%nat ->
  exists fs,
    perimeterWalkAlgorithm loopA heightA loopB heightB
      = Returned (mkLoftResult fs) /\
    (length loopA `max` length loopB <= length fs)%nat /\
    (length fs <= length loopA + length loopB)%nat.
Proof.
  intros HA HB.
  destruct (perimeterWalkAlgorithm_walk loopA heightA loopB heightB HA HB)
    as (alignedB & fs & _ & _ & HcA & HcB & Hres & Htr).
  exists fs. split; [exact Hres|].
  apply Forall2_length in Htr. rewrite <- Htr.
  match goal with
  | |- context [Walk.trace ?pA ?pB _ _ _] =>
      pose proof (trace_length pA pB (length loopA + length loopB) 0 0) as Hlen
  end.
  simpl in Hlen. rewrite HcA, HcB in Hlen. lia.
Qed.

Section FromPlanesPerimeterWalk.
Import LoftableModelOps.
Variable registry : gmap string LoftAlgorithm.
Variable DEFAULT_ALGORITHM : option string.

(** X14. When the resolved name is registered as [perimeterWalkAlgorithm],
    [fromPlanes] returns a model for every list of planes and warns of
    nothing.  A segment one of whose planes has fewer than three vertices
    has no faces; any other segment has at least as many faces as the
    longer of its two loops has vertices, and at most as many as both
    together. *)
Theorem fromPlanes_perimeter_walk (planes : list SketchPlane)
    (algorithmName : option string) :
  getLoftAlgorithm registry (resolveName DEFAULT_ALGORITHM algorithmName)
    = Some perimeterWalkAlgorithm ->
  exists model,
    fromPlanes registry DEFAULT_ALGORITHM planes algorithmName
      = ([], Returned model) /\
    Forall (fun seg =>
              let nA := length (getVertices (bottomPlane seg)) in
              let nB := length (getVertices (topPlane seg)) in
              if (nA <? 3)%nat || (nB <? 3)%nat
              then segment_faces seg = []
              else (nA `max` nB <= length (segment_faces seg))%nat /\
                   (length (segment_faces seg) <= nA + nB)%nat)
      (segments model).
Proof.
  intros Hreg. unfold fromPlanes.
  destruct (Nat.ltb_spec (length planes) 2) as [HN|HN].
  { eexists. split; [reflexivity|]. constructor. }
  rewrite Hreg.
  set (sortedPlanes := JsArray.sort byHeight planes).
  destruct (buildSegments_returns sortedPlanes perimeterWalkAlgorithm
              perimeterWalkAlgorithm_returns) as [model Hbuild].
  exists model. split; [by rewrite Hbuild|].
  unfold buildSegments in Hbuild.
  destruct (fold_left _ _ _) as [segs| |] eqn:Hfold; try done.
  injection Hbuild as <-. simpl.
  destruct (fold_buildSegment_faces sortedPlanes perimeterWalkAlgorithm
              _ segs Hfold) as [_ Hfaces].
  apply Forall_lookup. intros i seg Hseg.
  destruct (Hfaces i seg Hseg) as (result & Hpair & ->). simpl.
  unfold loftPair in Hpair.
  set (bottom := sortedPlanes !!! i) in *.
  set (top := sortedPlanes !!! (i + 1)%nat) in *.
  destruct ((length (getVertices bottom) <? 3)%nat
            || (length (getVertices top) <? 3)%nat) eqn:Hshort.
  - unfold perimeterWalkAlgorithm in Hpair. rewrite Hshort in Hpair.
    by injection Hpair as <-.
  - apply orb_false_iff in Hshort as [HA HB].
    apply Nat.ltb_ge in HA, HB.
    destruct (perimeterWalkAlgorithm_count (getVertices bottom)
                (getHeight bottom) (getVertices top) (getHeight top) HA HB)
      as (fs & Hres & Hmax & Hsum).
    rewrite Hres in Hpair. injection Hpair as <-. simpl. lia.
Qed.

End FromPlanesPerimeterWalk.

Lemma fromPlanes_perimeter_walk_witness :
  exists model,
    LoftableModelOps.fromPlanes Examples.builtinRegistry None
      [mkSketchPlane Examples.square 0; mkSketchPlane [] 1;
       mkSketchPlane Examples.notchedSquare 2] None
      = ([], Returned model).
Proof.
  destruct (fromPlanes_perimeter_walk Examples.builtinRegistry None
              [mkSketchPlane Examples.square 0; mkSketchPlane [] 1;
               mkSketchPlane Examples.notchedSquare 2] None)
    as (model & Hfrom & _); [reflexivity|].
  exists model. exact Hfrom.
Defined.

(** ** Model *)

Section ModelFacts.
Import Model.
Context {Plane : Type} `{EqDecision Plane}.

Lemma segmentCount_length (planes : list Plane) :
  segmentCount planes = (length planes - 1)%nat.
Proof. unfold segmentCount. lia. Qed.

Lemma syncSegmentLockArray_synced (m : t Plane) :
  synced (syncSegmentLockArray m).
Proof.
  unfold synced, syncSegmentLockArray, getSegmentCount. simpl.
  rewrite length_take, length_app, length_replicate. lia.
Qed.

Lemma setSegmentLocked_synced (m : t Plane) (index : Z) (locked : bool) :
  synced m -> synced (setSegmentLocked m index locked).
Proof.
  unfold synced, setSegmentLocked, getSegmentCount. intros Hm.
  destruct (_ && _); [|done]. simpl. by rewrite length_insert.
Qed.

Lemma calls_synced (m : t Plane) (calls : list (Call (Plane := Plane))) :
  synced m -> synced (fold_left call calls m).
Proof.
  revert m. induction calls as [|c calls IH]; intros m Hm; [done|].
  simpl. apply IH. destruct c as [plane|plane|index locked]; simpl.
  - apply syncSegmentLockArray_synced.
  - unfold removePlane. destruct (indexOf _ _); simpl;
      [apply syncSegmentLockArray_synced | done].
  - by apply setSegmentLocked_synced.
Qed.

(** X15. The lock array has exactly one entry for each segment,
    [max 0 (planes - 1)] of them, in a model as constructed and after any
    sequence of [addPlane], [removePlane] and [setSegmentLocked] calls. *)
Theorem segmentLocked_synced (name : string) (planes : option (list Plane))
    (calls : list (Call (Plane := Plane))) :
  let m := fold_left call calls (new name planes) in
  length (segmentLocked m) = getSegmentCount m /\
  getSegmentCount m = (length (Model.planes m) - 1)%nat.
Proof.
  intros m. split; [|apply segmentCount_length].
  apply calls_synced.
  unfold synced, new, createSegmentLockArray, getSegmentCount. simpl.
  by rewrite length_replicate.
Qed.

End ModelFacts.

Section ModelCalls.
Import Model.
Context {Plane : Type} `{EqDecision Plane}.

(** X16. After [setSegmentLocked(index, locked)] with [index] the index of
    an entry of the lock array, [isSegmentLocked(index)] is [locked] and
    every other answer of [isSegmentLocked] is as before; for any other
    [index] the call changes nothing.  [isSegmentLocked] of an index
    outside the lock array, below 0 or at its length or beyond, is
    [false], before the call and after it. *)
Theorem isSegmentLocked_setSegmentLocked (m : t Plane) (index : Z)
    (locked : bool) (j : Z) :
  let inRange :=
    (0 <=? index)%Z && (index <? Z.of_nat (length (segmentLocked m)))%Z in
  isSegmentLocked (setSegmentLocked m index locked) j =
    (if inRange && (j =? index)%Z then locked else isSegmentLocked m j) /\
  (inRange = false -> setSegmentLocked m index locked = m) /\
  planes (setSegmentLocked m index locked) = planes m /\
  length (segmentLocked (setSegmentLocked m index locked))
    = length (segmentLocked m) /\
  ((j < 0)%Z \/ (Z.of_nat (length (segmentLocked m)) <= j)%Z ->
   isSegmentLocked m j = false /\
   isSegmentLocked (setSegmentLocked m index locked) j = false).
Proof.
  intros inRange.
  assert (forall m' : t Plane,
            (j < 0)%Z \/ (Z.of_nat (length (segmentLocked m')) <= j)%Z ->
            isSegmentLocked m' j = false) as Houtside.
  { intros m' Hj. unfold isSegmentLocked.
    destruct (Z.ltb_spec j 0); [done|].
    rewrite lookup_ge_None_2; [done | lia]. }
  assert (length (segmentLocked (setSegmentLocked m index locked))
          = length (segmentLocked m)) as Hlen.
  { unfold setSegmentLocked. destruct (_ && _); [|done].
    simpl. by rewrite length_insert. }
  assert (isSegmentLocked (setSegmentLocked m index locked) j =
            (if inRange && (j =? index)%Z then locked
             else isSegmentLocked m j) /\
          (inRange = false -> setSegmentLocked m index locked = m) /\
          planes (setSegmentLocked m index locked) = planes m) as Hset.
  { unfold setSegmentLocked. fold inRange.
    destruct inRange eqn:Hin; simpl; [|by destruct (j =? index)%Z].
    apply andb_prop in Hin as [H0 Hlt].
    apply Z.leb_le in H0. apply Z.ltb_lt in Hlt.
    split; [|done].
    unfold isSegmentLocked. simpl.
    destruct (Z.eqb_spec j index) as [->|Hne].
    - destruct (Z.ltb_spec index 0); [lia|].
      rewrite list_lookup_insert_eq; [done | lia].
    - destruct (Z.ltb_spec j 0); [done|].
      rewrite list_lookup_insert_ne; [done | lia]. }
  destruct Hset as (H1 & H2 & H3).
  split; [exact H1|]. split; [exact H2|]. split; [exact H3|].
  split; [exact Hlen|].
  intros Hj. split; [by apply Houtside|].
  apply Houtside. by rewrite Hlen.
Qed.

Lemma isSegmentLocked_take (m : t Plane) (locks : list bool) (j : Z) :
  isSegmentLocked (mk (name m) (planes m) (locks ++ [false])) j
    = isSegmentLocked (mk (name m) (planes m) locks) j.
Proof.
  unfold isSegmentLocked. simpl. destruct (j <? 0)%Z; [done|].
  destruct (Nat.lt_ge_cases (Z.to_nat j) (length locks)) as [Hlt|Hge].
  - by rewrite lookup_app_l.
  - rewrite lookup_app_r by done. rewrite (lookup_ge_None_2 locks) by done.
    by destruct (Z.to_nat j - length locks)%nat.
Qed.

Lemma addPlane_locks (m : t Plane) (plane : Plane) :
  length (segmentLocked m) = getSegmentCount m ->
  segmentLocked (addPlane m plane)
    = segmentLocked m ++ (if planes m is [] then [] else [false]).
Proof.
  intros Hm. unfold getSegmentCount in Hm. rewrite segmentCount_length in Hm.
  unfold addPlane, syncSegmentLockArray, getSegmentCount.
  cbn [planes segmentLocked]. rewrite segmentCount_length, length_app.
  cbn [length].
  destruct (planes m) as [|p ps] eqn:E; cbn [length] in *.
  - destruct (segmentLocked m); [done | simpl in Hm; lia].
  - replace (S (length ps) + 1 - 1 - length (segmentLocked m))%nat
      with 1%nat by lia.
    apply take_ge. rewrite length_app. simpl. lia.
Qed.

(** X17. [addPlane] puts the plane last.  In a model whose lock array has
    one entry for each segment, the locks stay as they are and the new
    segment, if the plane brings one, is unlocked: every answer of
    [isSegmentLocked] is as before. *)
Theorem addPlane_keeps_locks (m : t Plane) (plane : Plane) :
  length (segmentLocked m) = getSegmentCount m ->
  planes (addPlane m plane) = planes m ++ [plane] /\
  name (addPlane m plane) = name m /\
  segmentLocked (addPlane m plane)
    = segmentLocked m ++ (if planes m is [] then [] else [false]) /\
  forall j, isSegmentLocked (addPlane m plane) j = isSegmentLocked m j.
Proof.
  intros Hm. pose proof (addPlane_locks m plane Hm) as Hlocks.
  split; [done|]. split; [done|]. split; [exact Hlocks|].
  intros j. unfold isSegmentLocked at 1. rewrite Hlocks.
  destruct (planes m) as [|p ps'].
  - by rewrite app_nil_r.
  - apply (isSegmentLocked_take m).
Qed.

Lemma indexOf_Some (arr : list Plane) (plane : Plane) (i : nat) :
  indexOf arr plane = Some i <->
  arr !! i = Some plane /\ forall j, (j < i)%nat -> arr !! j <> Some plane.
Proof.
  unfold indexOf. split.
  - destruct (list_find _ arr) as [[k x]|] eqn:Hfind; [|done].
    simpl. intros [= ->].
    apply list_find_Some in Hfind as (Hx & -> & Hfirst).
    split; [done|]. intros j Hj Hjp. by apply (Hfirst j plane).
  - intros [Hi Hfirst].
    assert (list_find (fun p => p = plane) arr = Some (i, plane)) as ->; [|done].
    apply list_find_Some. split; [done|]. split; [done|].
    intros j y Hy Hj ->. by apply (Hfirst j).
Qed.

Lemma indexOf_None (arr : list Plane) (plane : Plane) :
  indexOf arr plane = None <-> plane ∉ arr.
Proof.
  unfold indexOf. rewrite fmap_None, list_find_None, Forall_forall.
  split.
  - intros Hall Hin. by apply (Hall plane).
  - intros Hnot x Hx ->. done.
Qed.

Lemma removePlane_at (m : t Plane) (plane : Plane) (i : nat) :
  length (segmentLocked m) = getSegmentCount m ->
  planes m !! i = Some plane ->
  (forall j, (j < i)%nat -> planes m !! j <> Some plane) ->
  removePlane m plane =
    (true, mk (name m) (delete i (planes m))
             (take (length (planes m) - 2) (segmentLocked m))).
Proof.
  intros Hm Hi Hfirst.
  unfold getSegmentCount in Hm. rewrite segmentCount_length in Hm.
  unfold removePlane.
  rewrite (proj2 (indexOf_Some _ _ _) (conj Hi Hfirst)).
  f_equal. unfold syncSegmentLockArray, getSegmentCount.
  cbn [planes segmentLocked name]. rewrite segmentCount_length.
  pose proof (lookup_lt_Some _ _ _ Hi) as Hlt.
  rewrite length_delete by eauto. f_equal.
  replace (length (planes m) - 1 - 1 - length (segmentLocked m))%nat
    with 0%nat by lia.
  simpl. rewrite app_nil_r. f_equal. lia.
Qed.

(** X18. [removePlane] of a plane the model does not hold returns [false]
    and leaves the model as it is.  Otherwise it returns [true] and takes
    out the first occurrence of the plane; in a model whose lock array has
    one entry for each segment, the lock array loses its last entry,
    whichever plane is removed: the locks stay at their indices and do not
    move with the planes. *)
Theorem removePlane_first_occurrence (m : t Plane) (plane : Plane) :
  length (segmentLocked m) = getSegmentCount m ->
  (plane ∉ planes m -> removePlane m plane = (false, m)) /\
  (forall i,
     planes m !! i = Some plane ->
     (forall j, (j < i)%nat -> planes m !! j <> Some plane) ->
     removePlane m plane =
       (true, mk (name m) (delete i (planes m))
                (take (length (planes m) - 2) (segmentLocked m)))).
Proof.
  intros Hm. split.
  - intros Hnot. unfold removePlane.
    by rewrite (proj2 (indexOf_None _ _) Hnot).
  - intros i. by apply removePlane_at.
Qed.

(** X19. In a model whose lock array has one entry for each segment,
    adding a plane the model does not hold and removing it again gives the
    model back. *)
Theorem removePlane_addPlane (m : t Plane) (plane : Plane) :
  length (segmentLocked m) = getSegmentCount m ->
  plane ∉ planes m ->
  removePlane (addPlane m plane) plane = (true, m).
Proof.
  intros Hm Hnot.
  pose proof (addPlane_locks m plane Hm) as Hlocks.
  assert (planes (addPlane m plane) = planes m ++ [plane]) as Hplanes by done.
  assert (name (addPlane m plane) = name m) as Hname by done.
  assert (length (segmentLocked (addPlane m plane))
          = getSegmentCount (addPlane m plane)) as Hsynced
    by apply syncSegmentLockArray_synced.
  rewrite (removePlane_at (addPlane m plane) plane (length (planes m)) Hsynced).
  - f_equal. rewrite Hname, Hplanes, Hlocks.
    unfold getSegmentCount in Hm. rewrite segmentCount_length in Hm.
    destruct m as [nm ps locks]. simpl in *. f_equal.
    + clear. induction ps as [|p ps IH]; [done|]. simpl. by rewrite IH.
    + rewrite length_app. simpl. destruct ps as [|p ps'].
      * by destruct locks.
      * simpl in *. rewrite take_app_length'; [done | lia].
  - rewrite Hplanes. by rewrite lookup_app_r, Nat.sub_diag.
  - intros j Hj. rewrite Hplanes, lookup_app_l by done.
    intros Hin. apply Hnot. by eapply list_elem_of_lookup_2.
Qed.

End ModelCalls.

Lemma addPlane_keeps_locks_witness :
  let m := Model.setSegmentLocked (Model.new "tower" (Some [1; 2; 3]%nat))
             0 true in
  Model.segmentLocked (Model.addPlane m 4%nat) = [true; false; false].
Proof.
  intros m.
  destruct (addPlane_keeps_locks m 4%nat) as (_ & _ & Hlocks & _);
    [reflexivity|].
  rewrite Hlocks. reflexivity.
Defined.

Lemma removePlane_first_occurrence_witness :
  let m := Model.setSegmentLocked (Model.new "tower" (Some [1; 2; 3]%nat))
             0 true in
  Model.removePlane m 1%nat = (true, Model.mk "tower" [2; 3]%nat [true]).
Proof.
  intros m.
  destruct (removePlane_first_occurrence m 1%nat) as [_ Hremove];
    [reflexivity|].
  rewrite (Hremove 0%nat); [reflexivity | reflexivity | intros j Hj; lia].
Defined.

Lemma removePlane_addPlane_witness :
  let m := Model.new "tower" (Some [1; 2; 3]%nat) in
  Model.removePlane (Model.addPlane m 4%nat) 4%nat = (true, m).
Proof.
  intros m. apply removePlane_addPlane; [reflexivity|].
  unfold m. simpl. rewrite !elem_of_cons, elem_of_nil. lia.
Defined.

(** ** Sorting by a number *)

Section SortByNumber.
Context {T : Type}.
Variable number : T -> float.

Let comparefn (a b : T) : float := number a - number b.

Lemma insertSorted_by_number (a : T) (sorted : list T) :
  is_nan (number a) = false ->
  Forall (fun p => is_nan (number p) = false) sorted ->
  StronglySorted (fun p q => (number p <=? number q) = true) sorted ->
  StronglySorted (fun p q => (number p <=? number q) = true)
    (JsArray.insertSorted comparefn a sorted).
Proof.
  intros Ha Hnum Hsorted.
  induction Hsorted as [|b rest Hrest IH Hb]; simpl.
  - repeat constructor.
  - apply Forall_cons in Hnum as [Hnb Hnum].
    unfold comparefn at 1. rewrite sub_positive.
    destruct (number b <? number a) eqn:Hlt.
    + constructor; [by apply IH|].
      rewrite insertSorted_perm. constructor; [by apply ltb_leb | done].
    + assert ((number a <=? number b) = true) as Hab.
      { apply not_ltb_leb; [by apply is_nan_rank..|done]. }
      constructor; [by constructor|].
      constructor; [done|].
      eapply Forall_impl; [exact Hb|].
      intros q Hq. simpl in *. by eapply leb_trans.
Qed.

Lemma sort_by_number (arr : list T) :
  Forall (fun p => is_nan (number p) = false) arr ->
  StronglySorted (fun p q => (number p <=? number q) = true)
    (JsArray.sort comparefn arr).
Proof.
  induction arr as [|a rest IH]; intros Hnum; simpl; [constructor|].
  apply Forall_cons in Hnum as [Ha Hnum].
  apply insertSorted_by_number; [done | | by apply IH].
  by rewrite sort_perm.
Qed.

Lemma insertSorted_by_number_stable (h : float) (a : T) (sorted : list T) :
  List.filter (fun p => number p =? h) (JsArray.insertSorted comparefn a sorted)
    = List.filter (fun p => number p =? h) (a :: sorted).
Proof.
  induction sorted as [|b rest IH]; [done|].
  cbn [JsArray.insertSorted]. unfold comparefn at 1. rewrite sub_positive.
  destruct (number b <? number a) eqn:Hlt; [|done].
  cbn [List.filter] in *. rewrite IH.
  destruct (number a =? h) eqn:Ea; [|done].
  by rewrite (ltb_not_eqb _ _ _ Hlt Ea).
Qed.

Lemma sort_by_number_stable (h : float) (arr : list T) :
  List.filter (fun p => number p =? h) (JsArray.sort comparefn arr)
    = List.filter (fun p => number p =? h) arr.
Proof.
  induction arr as [|a rest IH]; [done|].
  cbn [JsArray.sort]. rewrite insertSorted_by_number_stable.
  cbn [List.filter]. by rewrite IH.
Qed.

End SortByNumber.

Lemma insertSorted_fmap {T U : Type} (f : T -> U) (comparefn : U -> U -> float)
    (a : T) (sorted : list T) :
  f <$> JsArray.insertSorted (fun p q => comparefn (f p) (f q)) a sorted
    = JsArray.insertSorted comparefn (f a) (f <$> sorted).
Proof.
  induction sorted as [|b rest IH]; [done|]. simpl.
  destruct (0 <? comparefn (f a) (f b)); [|done].
  simpl. f_equal. exact IH.
Qed.

Lemma sort_fmap {T U : Type} (f : T -> U) (comparefn : U -> U -> float)
    (arr : list T) :
  f <$> JsArray.sort (fun p q => comparefn (f p) (f q)) arr
    = JsArray.sort comparefn (f <$> arr).
Proof.
  induction arr as [|a rest IH]; [done|]. simpl.
  by rewrite insertSorted_fmap, IH.
Qed.

Section ModelSorted.
Import Model.
Context {Plane : Type}.
Variable deref : Plane -> SketchPlane.

(** X20. [getPlanesSortedByHeight] returns the planes of the model, each as
    often as the model holds it.  When the heights are numbers, they come
    in the order in which [fromPlanes] joins them: the heights ascend, and
    planes of the same height keep the order they have in the model. *)
Theorem getPlanesSortedByHeight_order (m : t Plane) :
  let sorted := getPlanesSortedByHeight deref m in
  let height := fun p => getHeight (deref p) in
  sorted ≡ₚ planes m /\
  (Forall (fun p => is_nan (height p) = false) (planes m) ->
   StronglySorted (fun p q => (height p <=? height q) = true) sorted /\
   (forall h, List.filter (fun p => height p =? h) sorted
              = List.filter (fun p => height p =? h) (planes m)) /\
   deref <$> sorted = JsArray.sort byHeight (deref <$> planes m)).
Proof.
  intros sorted height. split; [apply sort_perm|].
  intros Hnum. split; [by apply (sort_by_number height)|].
  split; [|apply (sort_fmap deref byHeight)].
  intros h. apply (sort_by_number_stable height).
Qed.

End ModelSorted.

Lemma restoreLocks_take (saved locks : list bool) :
  BuildingSerializer.restoreLocks saved locks =
    take (length saved `min` length locks) saved
      ++ drop (length saved `min` length locks) locks.
Proof.
  unfold BuildingSerializer.restoreLocks.
  generalize (Nat.le_min_l (length saved) (length locks)).
  generalize (Nat.le_min_r (length saved) (length locks)).
  generalize (length saved `min` length locks)%nat as k.
  induction k as [|k IH]; intros Hl Hs; [by rewrite take_0, drop_0|].
  rewrite seq_S, fold_left_app. simpl. rewrite IH by lia.
  destruct (lookup_lt_is_Some_2 saved k) as [x Hx]; [lia|].
  rewrite (list_lookup_total_correct _ _ _ Hx).
  rewrite (take_S_r _ _ _ Hx), <- app_assoc. simpl.
  rewrite insert_app_r_alt by (rewrite length_take; lia).
  rewrite length_take. replace (k - k `min` length saved)%nat with 0%nat by lia.
  f_equal.
  destruct (lookup_lt_is_Some_2 locks k) as [y Hy]; [lia|].
  by rewrite (drop_S _ _ _ Hy).
Qed.

Section SerializerLocks.
Import Model.
Context {Plane : Type} `{EqDecision Plane}.
Variable deref : Plane -> SketchPlane.
Variable makePlane : nat -> BuildingData.PlaneData -> Plane.

(** X22. [deserialize] makes one plane for each entry of the data and a
    lock array of one entry for each segment, whatever the data holds:
    lock [i] is the saved one where the data has it and [false] where it
    has not, and saved locks beyond the last segment are dropped.  So
    [deserialize] of what [serialize] returns for a model whose lock array
    has one entry for each segment has the name, the number of planes and
    the locks of that model. *)
Theorem deserialize_locks (data : BuildingData.t) (m : t Plane) :
  let model := BuildingSerializer.deserialize makePlane data in
  let saved := default [] (BuildingData.segmentLocked data) in
  name model = BuildingData.name data /\
  length (planes model) = length (BuildingData.planes data) /\
  length (segmentLocked model) = getSegmentCount model /\
  segmentLocked model =
    take (getSegmentCount model)
      (saved ++ replicate (getSegmentCount model - length saved) false) /\
  let back :=
    BuildingSerializer.deserialize makePlane
      (BuildingSerializer.serialize deref m) in
  (length (segmentLocked m) = getSegmentCount m ->
   name back = name m /\
   length (planes back) = length (planes m) /\
   segmentLocked back = segmentLocked m).
Proof.
  assert (forall data : BuildingData.t,
    let model := BuildingSerializer.deserialize makePlane data in
    let saved := default [] (BuildingData.segmentLocked data) in
    name model = BuildingData.name data /\
    length (planes model) = length (BuildingData.planes data) /\
    length (segmentLocked model) = getSegmentCount model /\
    segmentLocked model =
      take (getSegmentCount model)
        (saved ++ replicate (getSegmentCount model - length saved) false))
    as Hany.
  { clear data. intros data model saved.
    set (n := getSegmentCount model).
    assert (planes model = imap makePlane (BuildingData.planes data)) as Hp.
    { unfold model, BuildingSerializer.deserialize.
      by destruct (BuildingData.segmentLocked data). }
    assert (n = segmentCount (imap makePlane (BuildingData.planes data)))
      as Hn by (unfold n, getSegmentCount; by rewrite Hp).
    assert (segmentLocked model =
              take n (saved ++ replicate (n - length saved) false)) as Hlocks.
    { unfold model, saved, BuildingSerializer.deserialize.
      destruct (BuildingData.segmentLocked data) as [ls|]; simpl.
      - rewrite restoreLocks_take. unfold createSegmentLockArray.
        rewrite length_replicate, <- Hn.
        destruct (Nat.le_ge_cases (length ls) n) as [Hle|Hge].
        + rewrite Nat.min_l by done. rewrite take_ge by done.
          rewrite drop_replicate.
          rewrite take_ge; [done|]. rewrite length_app, length_replicate. lia.
        + rewrite Nat.min_r by done. rewrite drop_replicate, Nat.sub_diag.
          replace (n - length ls)%nat with 0%nat by lia. simpl.
          by rewrite !app_nil_r.
      - unfold createSegmentLockArray. rewrite <- Hn, Nat.sub_0_r.
        rewrite take_ge; [done|]. by rewrite length_replicate. }
    split; [|split; [|split]].
    - unfold model, BuildingSerializer.deserialize.
      by destruct (BuildingData.segmentLocked data).
    - by rewrite Hp, length_imap.
    - rewrite Hlocks, length_take, length_app, length_replicate. lia.
    - exact Hlocks. }
  intros model saved.
  destruct (Hany data) as (H1 & H2 & H3 & H4).
  split; [exact H1|]. split; [exact H2|]. split; [exact H3|].
  split; [exact H4|].
  intros back Hm.
  destruct (Hany (BuildingSerializer.serialize deref m)) as (B1 & B2 & _ & B4).
  fold back in B1, B2, B4.
  change (BuildingData.name (BuildingSerializer.serialize deref m))
    with (name m) in B1.
  change (BuildingData.planes (BuildingSerializer.serialize deref m))
    with (BuildingSerializer.planeData <$> (deref <$> planes m)) in B2.
  change (default [] (BuildingData.segmentLocked
                        (BuildingSerializer.serialize deref m)))
    with (segmentLocked m) in B4.
  rewrite !length_fmap in B2.
  split; [exact B1|]. split; [exact B2|].
  rewrite B4.
  assert (getSegmentCount back = getSegmentCount m) as ->.
  { unfold getSegmentCount. rewrite !segmentCount_length. by rewrite B2. }
  rewrite <- Hm, Nat.sub_diag. simpl. rewrite app_nil_r. by apply take_ge.
Qed.

End SerializerLocks.

(** ** The bounds of [serialize] *)

Lemma min_rank (a b : float) (ra rb : Z) :
  rank a = Some ra -> rank b = Some rb ->
  rank (Math.min a b) = Some (Z.min ra rb).
Proof.
  intros Ha Hb. unfold Math.min.
  rewrite (proj2 (is_nan_rank a)), (proj2 (is_nan_rank b)) by eauto.
  cbn [orb]. rewrite !ltb_rank, Ha, Hb.
  destruct (Z.ltb_spec ra rb); [rewrite Ha; f_equal; lia|].
  destruct (Z.ltb_spec rb ra); [rewrite Hb; f_equal; lia|].
  destruct (get_sign a); [rewrite Ha | rewrite Hb]; f_equal; lia.
Qed.

Lemma max_rank (a b : float) (ra rb : Z) :
  rank a = Some ra -> rank b = Some rb ->
  rank (Math.max a b) = Some (Z.max ra rb).
Proof.
  intros Ha Hb. unfold Math.max.
  rewrite (proj2 (is_nan_rank a)), (proj2 (is_nan_rank b)) by eauto.
  cbn [orb]. rewrite !ltb_rank, Ha, Hb.
  destruct (Z.ltb_spec rb ra); [rewrite Ha; f_equal; lia|].
  destruct (Z.ltb_spec ra rb); [rewrite Hb; f_equal; lia|].
  destruct (get_sign a); [rewrite Hb | rewrite Ha]; f_equal; lia.
Qed.

Lemma fold_min_below (l : list float) (init : float) (r0 : Z) :
  rank init = Some r0 -> Forall (fun x => is_nan x = false) l ->
  exists r, rank (fold_left Math.min l init) = Some r /\ (r <= r0)%Z /\
            Forall (fun x => (fold_left Math.min l init <=? x) = true) l.
Proof.
  revert init r0. induction l as [|x l IH]; intros init r0 Hinit Hnum.
  - exists r0. simpl. split; [done|]. split; [lia | constructor].
  - apply Forall_cons in Hnum as [Hx Hnum].
    apply is_nan_rank in Hx as [rx Hrx]. simpl.
    destruct (IH (Math.min init x) _ (min_rank init x r0 rx Hinit Hrx) Hnum)
      as (r & Hr & Hle & Hall).
    exists r. split; [exact Hr|]. split; [lia|].
    constructor; [|exact Hall].
    rewrite leb_rank, Hr, Hrx. apply Z.leb_le. lia.
Qed.

Lemma fold_max_above (l : list float) (init : float) (r0 : Z) :
  rank init = Some r0 -> Forall (fun x => is_nan x = false) l ->
  exists r, rank (fold_left Math.max l init) = Some r /\ (r0 <= r)%Z /\
            Forall (fun x => (x <=? fold_left Math.max l init) = true) l.
Proof.
  revert init r0. induction l as [|x l IH]; intros init r0 Hinit Hnum.
  - exists r0. simpl. split; [done|]. split; [lia | constructor].
  - apply Forall_cons in Hnum as [Hx Hnum].
    apply is_nan_rank in Hx as [rx Hrx]. simpl.
    destruct (IH (Math.max init x) _ (max_rank init x r0 rx Hinit Hrx) Hnum)
      as (r & Hr & Hle & Hall).
    exists r. split; [exact Hr|]. split; [lia|].
    constructor; [|exact Hall].
    rewrite leb_rank, Hr, Hrx. apply Z.leb_le. lia.
Qed.

Section BoxFolds.
Import BuildingSerializer.

Lemma growVertex_fold (vs : list Vector2.t) (box : Box) :
  fold_left growVertex vs box =
    mkBox (fold_left Math.min (Vector2.x <$> vs) (minX box))
      (fold_left Math.min (Vector2.y <$> vs) (minY box))
      (minZ box)
      (fold_left Math.max (Vector2.x <$> vs) (maxX box))
      (fold_left Math.max (Vector2.y <$> vs) (maxY box))
      (maxZ box).
Proof.
  revert box. induction vs as [|v vs IH]; intros box; [by destruct box|].
  simpl. by rewrite IH.
Qed.

Lemma growPlane_fold (planes : list SketchPlane) (box : Box) :
  fold_left growPlane planes box =
    mkBox (fold_left Math.min (xsOf planes) (minX box))
      (fold_left Math.min (ysOf planes) (minY box))
      (fold_left Math.min (getHeight <$> planes) (minZ box))
      (fold_left Math.max (xsOf planes) (maxX box))
      (fold_left Math.max (ysOf planes) (maxY box))
      (fold_left Math.max (getHeight <$> planes) (maxZ box)).
Proof.
  revert box. induction planes as [|p planes IH]; intros box;
    [by destruct box|].
  cbn [fold_left]. rewrite IH. unfold growPlane at 1 2 3 4 5 6.
  rewrite growVertex_fold. cbn [minX minY minZ maxX maxY maxZ].
  unfold xsOf, ysOf. cbn [mbind list_bind fmap list_fmap].
  by rewrite !fold_left_app.
Qed.

End BoxFolds.

Section SerializerBounds.
Import Model.
Context {Plane : Type}.
Variable deref : Plane -> SketchPlane.

(** X21. The bounds that [serialize] writes.  For a model of no planes
    they are [Infinity] for the three minima and [-Infinity] for the three
    maxima.  When every height and every coordinate of the model is a
    number, every plane's height lies between the third minimum and the
    third maximum, and every vertex's [x] and [y] between the first and
    the second. *)
Theorem serialize_bounds (m : t Plane) :
  let data := BuildingSerializer.serialize deref m in
  let '(minX, minY, minZ) := BuildingData.bounds_min data in
  let '(maxX, maxY, maxZ) := BuildingData.bounds_max data in
  (planes m = [] ->
   BuildingData.bounds_min data = (infinity, infinity, infinity) /\
   BuildingData.bounds_max data
     = (neg_infinity, neg_infinity, neg_infinity)) /\
  (Forall (fun p =>
             is_nan (getHeight (deref p)) = false /\
             Forall (fun v => is_nan (Vector2.x v) = false /\
                              is_nan (Vector2.y v) = false)
               (getVertices (deref p))) (planes m) ->
   Forall (fun p =>
             ((minZ <=? getHeight (deref p)) = true /\
              (getHeight (deref p) <=? maxZ) = true) /\
             Forall (fun v =>
                       ((minX <=? Vector2.x v) = true /\
                        (Vector2.x v <=? maxX) = true) /\
                       ((minY <=? Vector2.y v) = true /\
                        (Vector2.y v <=? maxY) = true))
               (getVertices (deref p))) (planes m)).
Proof.
  intros data. unfold data, BuildingSerializer.serialize.
  cbn [BuildingData.bounds_min BuildingData.bounds_max].
  rewrite growPlane_fold.
  cbn [BuildingSerializer.minX BuildingSerializer.minY BuildingSerializer.minZ
       BuildingSerializer.maxX BuildingSerializer.maxY BuildingSerializer.maxZ
       BuildingSerializer.emptyBox].
  split; [by intros ->|].
  intros Hnum.
  set (ps := deref <$> planes m).
  assert (Forall (fun x => is_nan x = false) (getHeight <$> ps)) as Hzs.
  { apply Forall_fmap. unfold ps. apply Forall_fmap.
    eapply Forall_impl; [exact Hnum|]. by intros p [Hz _]. }
  assert (Forall (fun x => is_nan x = false) (xsOf ps)) as Hxs.
  { unfold xsOf. apply Forall_bind. unfold ps. apply Forall_fmap.
    eapply Forall_impl; [exact Hnum|]. intros p [_ Hvs]. simpl.
    apply Forall_fmap. eapply Forall_impl; [exact Hvs|]. by intros v [Hx _]. }
  assert (Forall (fun x => is_nan x = false) (ysOf ps)) as Hys.
  { unfold ysOf. apply Forall_bind. unfold ps. apply Forall_fmap.
    eapply Forall_impl; [exact Hnum|]. intros p [_ Hvs]. simpl.
    apply Forall_fmap. eapply Forall_impl; [exact Hvs|]. by intros v [_ Hy]. }
  destruct (fold_min_below _ infinity _ eq_refl Hzs) as (? & _ & _ & HminZ).
  destruct (fold_max_above _ neg_infinity _ eq_refl Hzs) as (? & _ & _ & HmaxZ).
  destruct (fold_min_below _ infinity _ eq_refl Hxs) as (? & _ & _ & HminX).
  destruct (fold_max_above _ neg_infinity _ eq_refl Hxs) as (? & _ & _ & HmaxX).
  destruct (fold_min_below _ infinity _ eq_refl Hys) as (? & _ & _ & HminY).
  destruct (fold_max_above _ neg_infinity _ eq_refl Hys) as (? & _ & _ & HmaxY).
  rewrite Forall_forall in HminZ, HmaxZ, HminX, HmaxX, HminY, HmaxY.
  apply Forall_forall. intros p Hp.
  assert (deref p ∈ ps) as Hin by (unfold ps; by apply list_elem_of_fmap_2).
  split.
  - split; [apply HminZ | apply HmaxZ]; by apply list_elem_of_fmap_2.
  - apply Forall_forall. intros v Hv.
    assert (Vector2.x v ∈ xsOf ps) as Hx.
    { unfold xsOf. apply list_elem_of_bind. exists (deref p).
      split; [by apply list_elem_of_fmap_2 | done]. }
    assert (Vector2.y v ∈ ysOf ps) as Hy.
    { unfold ysOf. apply list_elem_of_bind. exists (deref p).
      split; [by apply list_elem_of_fmap_2 | done]. }
    split; split; auto.
Qed.

End SerializerBounds.

(** ** Heights and footprints *)

Section Footprints.
Import Walk.
Variables loopA loopB : ParameterizedLoop.t.

Lemma face_footprint (b b' : FaceBuilder.t) (q : Quad) (f f' : LoftFace) :
  face loopA loopB b q = Some f -> face loopA loopB b' q = Some f' ->
  footprint f = footprint f'.
Proof.
  unfold face. intros Hf Hf'.
  destruct (point loopA (quad_a0 q)); simpl in *; [|done].
  destruct (point loopA (quad_a1 q)); simpl in *; [|done].
  destruct (point loopB (quad_b0 q)); simpl in *; [|done].
  destruct (point loopB (quad_b1 q)); simpl in *; [|done].
  by injection Hf as <-; injection Hf' as <-.
Qed.

Lemma faces_footprint (b b' : FaceBuilder.t) (turns : list Step)
    (fs fs' : list LoftFace) :
  Forall2 (fun s f => face loopA loopB b (corners loopA loopB s) = Some f)
    turns fs ->
  Forall2 (fun s f => face loopA loopB b' (corners loopA loopB s) = Some f)
    turns fs' ->
  map footprint fs = map footprint fs'.
Proof.
  intros H. revert fs'. induction H as [|s f turns fs Hf _ IH]; intros fs' H'.
  - by apply Forall2_nil_inv_l in H' as ->.
  - apply Forall2_cons_inv_l in H' as (f' & fs'' & Hf' & H' & ->).
    simpl. f_equal; [by eapply face_footprint | by apply IH].
Qed.

End Footprints.

(** X23. The heights never reach the plan of the faces: for the same two
    loops and any two pairs of heights, [perimeterWalkAlgorithm] returns
    the same number of faces with the same [x] and [y] at every vertex;
    only the [z] of the vertices differ. *)
Theorem perimeterWalkAlgorithm_footprint (loopA loopB : list Vector2.t)
    (heightA heightB heightA' heightB' : float) :
  exists fs fs',
    perimeterWalkAlgorithm loopA heightA loopB heightB
      = Returned (mkLoftResult fs) /\
    perimeterWalkAlgorithm loopA heightA' loopB heightB'
      = Returned (mkLoftResult fs') /\
    length fs = length fs' /\
    map footprint fs = map footprint fs'.
Proof.
  destruct ((length loopA <? 3)%nat || (length loopB <? 3)%nat) eqn:Hshort.
  { exists [], []. unfold perimeterWalkAlgorithm. by rewrite Hshort. }
  apply orb_false_iff in Hshort as [HA HB]. apply Nat.ltb_ge in HA, HB.
  destruct (perimeterWalkAlgorithm_walk loopA heightA loopB heightB HA HB)
    as (alignedB & fs & Halign & _ & _ & _ & Hres & Htr).
  destruct (perimeterWalkAlgorithm_walk loopA heightA' loopB heightB' HA HB)
    as (alignedB' & fs' & Halign' & _ & _ & _ & Hres' & Htr').
  rewrite Halign in Halign'. injection Halign' as <-.
  exists fs, fs'. split; [exact Hres|]. split; [exact Hres'|].
  pose proof (faces_footprint _ _ _ _ _ _ _ Htr Htr') as Hfoot.
  split; [|exact Hfoot].
  apply (f_equal length) in Hfoot. by rewrite !length_map in Hfoot.
Qed.

(** ** A loop whose vertices coincide *)

Section Coincident.
Import ParameterizedLoop.
Variable v : Vector2.t.
Variable n : nat.
Hypothesis finite_x : is_finite (Vector2.x v) = true.
Hypothesis finite_y : is_finite (Vector2.y v) = true.

Lemma accumulate_coincident (acc : list float * float) (i : nat) :
  (i < n)%nat ->
  Forall (fun d => d = 0) (fst acc) /\ snd acc = 0 ->
  Forall (fun d => d = 0) (fst (accumulate (replicate n v) n acc i)) /\
  snd (accumulate (replicate n v) n acc i) = 0.
Proof.
  intros Hi [Hall Htotal]. unfold accumulate.
  rewrite !lookup_total_replicate_2
    by (try apply Nat.mod_upper_bound; lia).
  rewrite (distanceTo_self v finite_x finite_y), Htotal.
  change (0 + 0) with 0. cbn [fst snd].
  split; [|done].
  destruct (i <? n - 1)%nat; [|done].
  apply Forall_app. split; [done | by constructor].
Qed.

Lemma cumulative_coincident :
  Forall (fun d => d = 0) (fst (cumulative (replicate n v))) /\
  snd (cumulative (replicate n v)) = 0.
Proof.
  unfold cumulative. rewrite length_replicate.
  assert (forall indices acc,
            Forall (fun i => (i < n)%nat) indices ->
            Forall (fun d => d = 0) (fst acc) /\ snd acc = 0 ->
            Forall (fun d => d = 0)
              (fst (fold_left (accumulate (replicate n v) n) indices acc)) /\
            snd (fold_left (accumulate (replicate n v) n) indices acc) = 0)
    as Hfold.
  { induction indices as [|i indices IH]; intros acc Hlt Hacc; [done|].
    apply Forall_cons in Hlt as [Hi Hlt]. simpl.
    apply IH; [done|]. by apply accumulate_coincident. }
  apply Hfold.
  - apply Forall_forall. intros i Hi. apply elem_of_seq in Hi. lia.
  - split; [by repeat constructor | done].
Qed.

End Coincident.

(** X24. A loop of [n] vertices that all lie at one point with finite
    coordinates has a perimeter of exactly 0, and the constructor gives
    every vertex the parameter 0: the division by the perimeter is not
    made, and no parameter is [NaN]. *)
Theorem new_coincident (v : Vector2.t) (n : nat) :
  is_finite (Vector2.x v) = true -> is_finite (Vector2.y v) = true ->
  let l := ParameterizedLoop.new (replicate n v) in
  ParameterizedLoop.count l = n /\
  ParameterizedLoop.totalLength l = 0 /\
  Forall (fun t => t = 0) (ParameterizedLoop.params l) /\
  forall i, (i < n)%nat -> ParameterizedLoop.param l i = 0.
Proof.
  intros Hx Hy l.
  assert (ensureWindingCCW (replicate n v) = replicate n v) as Hccw.
  { destruct (ensureWindingCCW_cases (replicate n v)) as [->| ->]; [done|].
    apply reverse_replicate. }
  destruct (cumulative_coincident v n Hx Hy) as [Hall Htotal].
  pose proof (cumulative_length (replicate n v)) as Hlen.
  assert (ParameterizedLoop.count l = n) as Hn.
  { unfold l. rewrite count_new. apply length_replicate. }
  assert (ParameterizedLoop.totalLength l = 0 /\
          ParameterizedLoop.params l
          = map (ParameterizedLoop.normalize 0)
              (fst (ParameterizedLoop.cumulative (replicate n v))))
    as [HT Hparams].
  { unfold l, ParameterizedLoop.new. rewrite Hccw.
    destruct (ParameterizedLoop.cumulative (replicate n v)) as [ds T].
    simpl in *. by subst T. }
  assert (Forall (fun t => t = 0) (ParameterizedLoop.params l)) as Hzero.
  { rewrite Hparams. apply Forall_fmap, Forall_forall. by intros d _. }
  split; [exact Hn|]. split; [exact HT|]. split; [exact Hzero|].
  intros i Hi. unfold ParameterizedLoop.param. rewrite Hn.
  destruct (Nat.leb_spec n i); [lia|].
  unfold numberAt.
  destruct (lookup_lt_is_Some_2 (ParameterizedLoop.params l) i) as [t Ht].
  { rewrite Hparams, length_map, Hlen, length_replicate. lia. }
  rewrite Ht. simpl. rewrite Forall_forall in Hzero. apply Hzero.
  by eapply list_elem_of_lookup_2.
Qed.

Lemma new_coincident_witness :
  ParameterizedLoop.totalLength
    (ParameterizedLoop.new (replicate 4 (Vector2.mk 1 2))) = 0.
Proof.
  apply (new_coincident (Vector2.mk 1 2) 4); reflexivity.
Defined.

(** ** Segments and locks *)

Section SegmentsChain.
Import LoftableModelOps.
Variable registry : gmap string LoftAlgorithm.
Variable DEFAULT_ALGORITHM : option string.

(** X25. The segments of a model that [fromPlanes] returns stack without
    a gap: the top plane of each segment is the bottom plane of the next,
    so [getTopHeight] of the one is [getBottomHeight] of the other.  When
    the heights are numbers, the first segment starts at the first of the
    planes sorted by height, and no plane lies below it. *)
Theorem fromPlanes_segments_chain (planes : list SketchPlane)
    (algorithmName : option string) (warnings : list string)
    (model : LoftableModel) :
  fromPlanes registry DEFAULT_ALGORITHM planes algorithmName
    = (warnings, Returned model) ->
  (forall i seg next,
     segments model !! i = Some seg ->
     segments model !! (i + 1)%nat = Some next ->
     topPlane seg = bottomPlane next /\
     getTopHeight seg = getBottomHeight next) /\
  (Forall (fun p => is_nan (getHeight p) = false) planes ->
   forall seg, segments model !! 0%nat = Some seg ->
     JsArray.sort byHeight planes !! 0%nat = Some (bottomPlane seg) /\
     Forall (fun p => (getBottomHeight seg <=? getHeight p) = true) planes).
Proof.
  intros Hfrom.
  destruct (Nat.lt_ge_cases (length planes) 2) as [HN|HN].
  { unfold fromPlanes in Hfrom.
    destruct (Nat.ltb_spec (length planes) 2); [|lia].
    injection Hfrom as _ <-. simpl. split; intros; discriminate. }
  destruct (fromPlanes_built registry DEFAULT_ALGORITHM planes algorithmName
              warnings model HN Hfrom) as (algorithm & _ & Hbuild).
  apply buildSegments_returned in Hbuild as [Hb Ht].
  split.
  - intros i seg next Hseg Hnext.
    pose proof (fmap_lookup_eq topPlane _ _ _ _ Ht Hseg) as H1.
    pose proof (fmap_lookup_eq bottomPlane _ _ _ _ Hb Hnext) as H2.
    rewrite lookup_drop in H1. apply lookup_take_Some in H2 as [H2 _].
    replace (1 + i)%nat with (i + 1)%nat in H1 by lia.
    assert (topPlane seg = bottomPlane next) as E by congruence.
    split; [exact E|]. unfold getTopHeight, getBottomHeight. by rewrite E.
  - intros Hnum seg Hseg.
    pose proof (fmap_lookup_eq bottomPlane _ _ _ _ Hb Hseg) as H1.
    apply lookup_take_Some in H1 as [H1 _]. split; [exact H1|].
    pose proof (sort_ascending planes Hnum) as Hsorted.
    rewrite <- (sort_perm byHeight planes).
    apply Forall_lookup. intros i p Hp. unfold getBottomHeight.
    destruct (Nat.eq_dec i 0) as [->|Hne].
    + assert (p = bottomPlane seg) as -> by congruence.
      apply leb_refl_number.
      assert (bottomPlane seg ∈ planes) as Hin.
      { rewrite <- (sort_perm byHeight planes).
        by eapply list_elem_of_lookup_2. }
      rewrite Forall_forall in Hnum. by apply Hnum.
    + apply (StronglySorted_lookup ascending _ 0 i (bottomPlane seg) p
               Hsorted); [lia | done | done].
Qed.

End SegmentsChain.

Lemma fromPlanes_segments_chain_witness :
  exists model,
    LoftableModelOps.fromPlanes Examples.builtinRegistry None
      Examples.threeFloors None = ([], Returned model) /\
    forall seg, segments model !! 0%nat = Some seg ->
      getBottomHeight seg = 0.
Proof.
  destruct threeFloors_model as [model Hmodel].
  exists model. split; [exact Hmodel|].
  destruct (fromPlanes_segments_chain Examples.builtinRegistry None
              Examples.threeFloors None [] model Hmodel) as [_ Hfirst].
  intros seg Hseg.
  destruct (Hfirst ltac:(repeat constructor) seg Hseg) as [Hbottom _].
  assert (JsArray.sort byHeight Examples.threeFloors !! 0%nat
          = Some (mkSketchPlane Examples.unitSquare 0)) as E
    by (vm_compute; reflexivity).
  rewrite E in Hbottom. unfold getBottomHeight. by injection Hbottom as <-.
Defined.

Section LocksAndSegments.
Import Model LoftableModelOps.
Context {Plane : Type} `{EqDecision Plane}.
Variable deref : Plane -> SketchPlane.
Variable registry : gmap string LoftAlgorithm.
Variable DEFAULT_ALGORITHM : option string.

(** X26. The lock array of a [Model] has one entry for each segment of the
    [LoftableModel] built from its planes: for a model as constructed and
    changed by any calls of [addPlane], [removePlane] and
    [setSegmentLocked], the model that [fromPlanes] returns for its planes
    has as many segments as the lock array has entries. *)
Theorem segmentLocked_fromPlanes (name : string)
    (planes : option (list Plane)) (calls : list Call)
    (algorithmName : option string) (warnings : list string)
    (built : LoftableModel) :
  let m := fold_left call calls (Model.new name planes) in
  fromPlanes registry DEFAULT_ALGORITHM (deref <$> Model.planes m)
    algorithmName = (warnings, Returned built) ->
  length (segments built) = length (segmentLocked m) /\
  length (segments built) = getSegmentCount m.
Proof.
  intros m Hfrom.
  assert (synced m) as Hm.
  { apply calls_synced. unfold synced, Model.new, createSegmentLockArray,
      getSegmentCount. simpl. by rewrite length_replicate. }
  unfold synced in Hm. rewrite Hm.
  assert (length (segments built) = getSegmentCount m) as E; [|by split].
  unfold getSegmentCount. rewrite segmentCount_length.
  set (ps := deref <$> Model.planes m) in *.
  assert (length ps = length (Model.planes m)) as Hlen
    by (unfold ps; by rewrite length_fmap).
  rewrite <- Hlen.
  destruct (Nat.lt_ge_cases (length ps) 2) as [HN|HN].
  { unfold fromPlanes in Hfrom.
    destruct (Nat.ltb_spec (length ps) 2); [|lia].
    injection Hfrom as _ <-. simpl. lia. }
  destruct (fromPlanes_built registry DEFAULT_ALGORITHM ps algorithmName
              warnings built HN Hfrom) as (algorithm & _ & Hbuild).
  apply buildSegments_returned in Hbuild as [_ Ht].
  apply (f_equal length) in Ht.
  rewrite length_fmap, length_drop in Ht.
  rewrite Ht. f_equal. by rewrite sort_perm.
Qed.

End LocksAndSegments.

Lemma segmentLocked_fromPlanes_witness :
  exists built,
    LoftableModelOps.fromPlanes Examples.builtinRegistry None
      Examples.threeFloors None = ([], Returned built) /\
    length (segments built) = 2%nat.
Proof.
  destruct threeFloors_model as [built Hbuilt].
  exists built. split; [exact Hbuilt|].
  destruct (segmentLocked_fromPlanes
              (fun i : nat => Examples.threeFloors !!! i)
              Examples.builtinRegistry None "tower" (Some [0; 1; 2]%nat)
              [] None [] built Hbuilt) as [_ Hcount].
  rewrite Hcount. reflexivity.
Defined.
